(** * Kite_WebSocket.py: the tick ingestion pipeline

    A shallow embedding of the queue consumer ([database_worker]), the
    persistence sink ([upsert_price], [upsert_price_bulk],
    [upsert_spot_price], [populate_initial_instruments]) and the error
    callback of the feed session ([zerodha_on_error]) together with the
    restart loop of [main]; further, the reading of the instrument file
    ([parse_kite_instruments_multi]), the start of the service up to the
    populated table, the subscription callback ([zerodha_on_connect]), the
    service control ([start_websocket_service], [stop_websocket_service],
    [get_websocket_status]) and its caller in start_all.py.

    Conventions of the embedding
    - a [datetime] is a number of microseconds since the epoch, a [date] a
      day number; Python floats (prices, strikes, delays, CPU load) are
      rationals, and the narrowing of a PostgreSQL REAL column is not
      modelled;
    - the price table is a finite map from [symbol] (the primary key) to
      the other ten columns, each of them nullable;
    - [datetime.now()] is an input of every function that reads the clock;
    - SQL statements always succeed; the exceptions that the Python code
      itself raises (KeyError, IndexError) are modelled;
    - every function that talks to the database appends what it does to a
      journal, so that what was executed can be stated as well as what was
      stored. *)

From Stdlib Require Import ZArith QArith Lia Lqa.
From stdpp Require Import gmap strings list fin_maps.

Local Open Scope Z_scope.

(** ** Python values *)

Definition datetime := Z.
Definition date := Z.

(** [dt.strftime('%Y-%m-%d %H:%M:%S.%f')[:-3]]: the last three digits of
    the microsecond field are cut off. *)
Definition strftime_ms (t : datetime) : datetime := 1000 * (t / 1000).

Definition ascii_lower (c : Ascii.ascii) : Ascii.ascii :=
  let n := Ascii.N_of_ascii c in
  if ((65 <=? n) && (n <=? 90))%N then Ascii.ascii_of_N (n + 32) else c.

(** [str.lower()] on ASCII text. *)
Fixpoint lower (s : string) : string :=
  match s with
  | EmptyString => EmptyString
  | String c s' => String (ascii_lower c) (lower s')
  end.

(** [d.get(k)] on a dict kept in insertion order. *)
Fixpoint dict_get {K V} `{EqDecision K} (k : K) (d : list (K * V)) : option V :=
  match d with
  | [] => None
  | (k', v) :: d' => if decide (k' = k) then Some v else dict_get k d'
  end.

(** ** The instrument directory (module globals) *)

Record details := Details {
  strike : Q;
  option_type_of : string;
  expiry : date;
  trade_symbol_of : string
}.

Record directory := Directory {
  kite_instrument_mapping : list (Z * string);
  kite_instrument_details : list (string * details);
  spot_instrument_tokens : gmap string (option Z);
  nearest_expiry_dates : gmap string date
}.

(** ** The price table *)

Record row := Row {
  price : option Q;
  timestamp : option datetime;
  trade_symbol : option string;
  strike_price : option Q;
  option_type : option string;
  source : option string;
  zerodha_price : option Q;
  zerodha_timestamp : option datetime;
  instrument_token : option Z;
  expiry_date : option date
}.

Definition null_row : row :=
  Row None None None None None None None None None None.

Inductive statement :=
| UpsertZerodha        (* upsert_price, source zerodha *)
| UpsertCommon         (* upsert_price, any other source *)
| UpsertZerodhaBulk    (* upsert_price_bulk, one parameter tuple *)
| UpsertSpot           (* upsert_spot_price *)
| InsertInitial        (* populate_initial_instruments *)
| UpdateDerived.       (* UPDATE .. SET price = zerodha_price .. *)

Inductive db_op :=
| OpConnect
| OpExecute (q : statement) (symbol : string)
| OpCommit
| OpRollback
| OpClose.

Record store := Store {
  rows : gmap string row;
  journal : list db_op
}.

Definition log (op : db_op) (st : store) : store :=
  Store (rows st) (journal st ++ [op]).

Definition execute (q : statement) (symbol : string)
    (f : gmap string row -> gmap string row) (st : store) : store :=
  Store (f (rows st)) (journal st ++ [OpExecute q symbol]).

(** [INSERT INTO t (..) VALUES (..) ON CONFLICT (symbol) DO UPDATE SET ..]:
    [ins] is the row inserted when the symbol is new (columns that the
    statement does not name are NULL), [upd] the assignment list applied to
    the existing row. *)
Definition insert_on_conflict (symbol : string) (ins : row) (upd : row -> row)
    (t : gmap string row) : gmap string row :=
  match t !! symbol with
  | None => <[symbol := ins]> t
  | Some r => <[symbol := upd r]> t
  end.

(** [UPDATE t SET price = zerodha_price, timestamp = zerodha_timestamp
     WHERE symbol = %s AND zerodha_price IS NOT NULL]. *)
Definition set_derived (r : row) : row :=
  Row (zerodha_price r) (zerodha_timestamp r) (trade_symbol r)
      (strike_price r) (option_type r) (source r)
      (zerodha_price r) (zerodha_timestamp r) (instrument_token r)
      (expiry_date r).

Definition update_derived (symbol : string) (t : gmap string row)
    : gmap string row :=
  match t !! symbol with
  | Some r =>
      match zerodha_price r with
      | Some _ => <[symbol := set_derived r]> t
      | None => t
      end
  | None => t
  end.

(** The assignment lists of the five upserts. *)
Definition set_zerodha (p : option Q) (ts : datetime) (tok : option Z)
    (e : option date) (r : row) : row :=
  Row (price r) (timestamp r) (trade_symbol r) (strike_price r)
      (option_type r) (source r) p (Some ts) tok e.

Definition set_common (p : option Q) (ts : datetime) (tok : option Z)
    (e : option date) (r : row) : row :=
  Row p (Some ts) (trade_symbol r) (strike_price r) (option_type r)
      (source r) (zerodha_price r) (zerodha_timestamp r) tok e.

Definition set_zerodha_bulk (p : option Q) (ts : datetime) (e : option date)
    (r : row) : row :=
  Row (price r) (timestamp r) (trade_symbol r) (strike_price r)
      (option_type r) (source r) p (Some ts) (instrument_token r) e.

Definition set_spot (p : option Q) (ts : datetime) (tsym : option string)
    (src : string) (e : option date) (r : row) : row :=
  Row (price r) (timestamp r) tsym (strike_price r) (option_type r)
      (Some src) p (Some ts) (instrument_token r) e.

Definition set_initial (tsym : string) (k : Q) (ot : string) (tok : Z)
    (e : date) (r : row) : row :=
  Row (price r) (timestamp r) (Some tsym) (Some k) (Some ot) (source r)
      (zerodha_price r) (zerodha_timestamp r) (Some tok) (Some e).

Definition with_source (src : string) (r : row) : row :=
  Row (price r) (timestamp r) (trade_symbol r) (strike_price r)
      (option_type r) (Some src) (zerodha_price r) (zerodha_timestamp r)
      (instrument_token r) (expiry_date r).

(** What a call leaves behind: it returns, or an exception leaves it. *)
Inductive result :=
| Returned (st : store)
| Raised (st : store).

Definition store_of (r : result) : store :=
  match r with Returned st | Raised st => st end.

(** [conn=None]: the function opens a connection of its own and closes it in
    its [finally] block. *)
Definition open_conn (conn : bool) (st : store) : store :=
  if conn then st else log OpConnect st.

Definition close_conn (conn : bool) (st : store) : store :=
  if conn then st else log OpClose st.

(** The timestamp parameter of the upserts: the exchange timestamp when the
    tick has one, else the clock. *)
Definition stamp (exchange_timestamp : option datetime) (now : datetime)
    : datetime :=
  match exchange_timestamp with
  | Some t => strftime_ms t
  | None => strftime_ms now
  end.

(** [symbol_expiry or nearest_expiry_dates.get(trade_symbol)]. *)
Definition expiry_or_nearest (env : directory) (symbol_expiry : option date)
    (trade_symbol : option string) : option date :=
  match symbol_expiry with
  | Some e => Some e
  | None => trade_symbol ≫= (λ ts, nearest_expiry_dates env !! ts)
  end.

(** [upsert_price]. The parameters [strike_price] and [option_type] are
    never read by the function and [table_name] names the one table of the
    model; they are left out.  [conn] tells whether a connection is passed. *)
Definition upsert_price (env : directory) (now : datetime)
    (kite_symbol : string) (price : option Q) (trade_symbol : option string)
    (source : string) (conn : bool) (kite_instrument_token : option Z)
    (exchange_timestamp : option datetime) (st : store) : store :=
  let timestamp := stamp exchange_timestamp now in
  let symbol_expiry :=
    expiry <$> dict_get kite_symbol (kite_instrument_details env) in
  let expiry_date := expiry_or_nearest env symbol_expiry trade_symbol in
  let st := open_conn conn st in
  let st :=
    if decide (lower source = "zerodha") then
      execute UpsertZerodha kite_symbol
        (insert_on_conflict kite_symbol
           (set_zerodha price timestamp kite_instrument_token expiry_date
              null_row)
           (set_zerodha price timestamp kite_instrument_token expiry_date))
        st
    else
      execute UpsertCommon kite_symbol
        (insert_on_conflict kite_symbol
           (set_common price timestamp kite_instrument_token expiry_date
              null_row)
           (set_common price timestamp kite_instrument_token expiry_date))
        st in
  let st := execute UpdateDerived kite_symbol (update_derived kite_symbol) st in
  let st := log OpCommit st in
  close_conn conn st.

(** [upsert_spot_price]: spot rows take the nearest expiry of their index
    and are stamped with [trade_symbol] and [source]. *)
Definition upsert_spot_price (env : directory) (now : datetime)
    (spot_symbol : string) (price : option Q) (trade_symbol : string)
    (source : string) (conn : bool) (exchange_timestamp : option datetime)
    (st : store) : store :=
  let timestamp := stamp exchange_timestamp now in
  let expiry_date := nearest_expiry_dates env !! trade_symbol in
  let st := open_conn conn st in
  let st :=
    execute UpsertSpot spot_symbol
      (insert_on_conflict spot_symbol
         (set_spot price timestamp (Some trade_symbol) source expiry_date
            null_row)
         (set_spot price timestamp (Some trade_symbol) source expiry_date))
      st in
  let st := execute UpdateDerived spot_symbol (update_derived spot_symbol) st in
  let st := log OpCommit st in
  close_conn conn st.

(** [bulk_data.append((kite_symbol, prices[i], timestamps[i],
    per_symbol_expiries[i]))] for [i, kite_symbol in enumerate(kite_symbols)];
    [None] is the IndexError of a list that is too short. *)
Fixpoint bulk_data (i : nat) (kite_symbols : list string)
    (prices : list (option Q)) (timestamps : list datetime)
    (per_symbol_expiries : list (option date))
    : option (list (string * option Q * datetime * option date)) :=
  match kite_symbols with
  | [] => Some []
  | kite_symbol :: rest =>
      p ← prices !! i;
      ts ← timestamps !! i;
      e ← per_symbol_expiries !! i;
      tl ← bulk_data (S i) rest prices timestamps per_symbol_expiries;
      Some ((kite_symbol, p, ts, e) :: tl)
  end.

Definition bulk_expiry (env : directory) (sym : string) : option date :=
  let details := dict_get sym (kite_instrument_details env) in
  expiry_or_nearest env (expiry <$> details) (trade_symbol_of <$> details).

(** The two [executemany] calls. *)
Definition execute_bulk_upserts
    (bulk : list (string * option Q * datetime * option date)) (st : store)
    : store :=
  foldl (λ st '(sym, p, ts, e),
           execute UpsertZerodhaBulk sym
             (insert_on_conflict sym (set_zerodha_bulk p ts e null_row)
                (set_zerodha_bulk p ts e)) st)
        st bulk.

Definition execute_bulk_derived (kite_symbols : list string) (st : store)
    : store :=
  foldl (λ st sym, execute UpdateDerived sym (update_derived sym) st)
        st kite_symbols.

(** [upsert_price_bulk]; [now i] is the clock reading taken for the [i]-th
    exchange timestamp when that one is None.  Nothing is executed for a
    source other than zerodha. *)
Definition upsert_price_bulk (env : directory) (now : nat -> datetime)
    (kite_symbols : list string) (prices : list (option Q))
    (exchange_timestamps : list (option datetime)) (source : string)
    (conn : bool) (st : store) : result :=
  match kite_symbols with
  | [] => Returned st
  | _ :: _ =>
      let timestamps :=
        imap (λ i ets, stamp ets (now i)) exchange_timestamps in
      let per_symbol_expiries := map (bulk_expiry env) kite_symbols in
      let st := open_conn conn st in
      if decide (lower source = "zerodha") then
        match bulk_data 0 kite_symbols prices timestamps per_symbol_expiries with
        | None => Raised (close_conn conn (log OpRollback st))
        | Some bulk =>
            let st := execute_bulk_upserts bulk st in
            let st := execute_bulk_derived kite_symbols st in
            Returned (close_conn conn (log OpCommit st))
        end
      else Returned (close_conn conn (log OpCommit st))
  end.

(** The reverse lookup of [populate_initial_instruments]: the first token, in
    insertion order, that maps to the symbol. *)
Definition token_of_symbol (mapping : list (Z * string)) (kite_symbol : string)
    : option Z :=
  fst <$> List.find (λ e, bool_decide (e.2 = kite_symbol)) mapping.

Definition populate_one (env : directory) (trade_symbol : string)
    (expiry_date : date) (st : store) (entry : string * details) : store :=
  let kite_symbol := entry.1 in
  let details := entry.2 in
  if decide (trade_symbol_of details = trade_symbol) then
    match token_of_symbol (kite_instrument_mapping env) kite_symbol with
    | Some instrument_token =>
        if decide (instrument_token = 0) then st
        else
          execute InsertInitial kite_symbol
            (insert_on_conflict kite_symbol
               (with_source "Initial"
                  (set_initial trade_symbol (strike details)
                     (option_type_of details) instrument_token expiry_date
                     null_row))
               (set_initial trade_symbol (strike details)
                  (option_type_of details) instrument_token expiry_date))
            st
    | None => st
    end
  else st.

(** [populate_initial_instruments]; [nearest_expiry_dates[trade_symbol]]
    raises KeyError for an unknown trade symbol, before any insert. *)
Definition populate_initial_instruments (env : directory)
    (trade_symbol : string) (conn : bool) (st : store) : result :=
  let st := open_conn conn st in
  match nearest_expiry_dates env !! trade_symbol with
  | None => Raised (close_conn conn (log OpRollback st))
  | Some expiry_date =>
      let st :=
        foldl (populate_one env trade_symbol expiry_date) st
              (kite_instrument_details env) in
      Returned (close_conn conn (log OpCommit st))
  end.

(** ** Adaptive batching *)

Definition get_adaptive_timeout (queue_size : Z) : Q :=
  if decide (1000 < queue_size) then 5 # 100
  else if decide (500 < queue_size) then 1 # 10
  else if decide (200 < queue_size) then 2 # 10
  else 3 # 10.

Definition get_adaptive_batch_size (cpu_percent : Q) (queue_size : Z) : Z :=
  if decide (2000 < queue_size) then 150
  else if decide (1000 < queue_size) then 100
  else if decide (500 < queue_size) then 75
  else if decide (200 < queue_size) then 50
  else if decide (100 < queue_size) then 35
  else if Qlt_le_dec 80 cpu_percent then 25
  else if Qlt_le_dec 60 cpu_percent then 35
  else 50.

(** ** Delay statistics *)

Inductive xfloat :=
| Finite (q : Q)
| Infinity.          (* float('inf') *)

Record delay_statistics := DelayStats {
  count : Z;
  total_delay : Q;
  min_delay : xfloat;
  max_delay : Q
}.

(** The module-level initial value of [delay_stats]. *)
Definition delay_stats_init : delay_statistics :=
  DelayStats 0 0 Infinity 0.

Definition py_min (a : xfloat) (b : Q) : xfloat :=
  match a with
  | Infinity => Finite b
  | Finite x => if Qlt_le_dec b x then Finite b else Finite x
  end.

Definition py_max (a b : Q) : Q := if Qlt_le_dec a b then b else a.

(** [(current_time - exchange_timestamp).total_seconds()]. *)
Definition total_seconds (micros : Z) : Q := micros # 1000000.

Definition update_delay_stats (current_time exchange_timestamp : datetime)
    (s : delay_statistics) : delay_statistics :=
  let delay_seconds := total_seconds (current_time - exchange_timestamp) in
  DelayStats (count s + 1)
             (total_delay s + delay_seconds)%Q
             (py_min (min_delay s) delay_seconds)
             (py_max (max_delay s) delay_seconds).


(** ** The tick queue and its consumer *)

Record tick_data := TickData {
  tick_instrument_token : option Z;      (* data.get("instrument_token") *)
  last_price : option Q;                 (* data.get("last_price") *)
  exchange_timestamp : option datetime   (* data.get("exchange_timestamp") *)
}.

Record tick := Tick {
  tick_source : string;
  data : tick_data;
  queue_entry_time : option datetime
}.

Record spot_tick := SpotTick {
  spot_symbol : string;
  spot_price : Q;
  spot_exchange_timestamp : option datetime;
  spot_trade_symbol : string
}.

Record zerodha_tick := ZerodhaTick {
  kite_symbol : string;
  zerodha_tick_price : Q;
  zerodha_tick_token : Z;
  zerodha_tick_timestamp : option datetime
}.

Inductive resolved :=
| Spot (s : spot_tick)
| Contract (z : zerodha_tick)
| Dropped.

(** [spot_instrument_tokens.get(trade_symbol)]. *)
Definition spot_token (env : directory) (trade_symbol : string) : option Z :=
  match spot_instrument_tokens env !! trade_symbol with
  | Some tok => tok
  | None => None
  end.

(** The first trade symbol whose spot token is the tick's token. *)
Definition find_spot (env : directory) (trade_symbols : list string)
    (instrument_token : Z) : option string :=
  List.find (λ ts, bool_decide (spot_token env ts = Some instrument_token))
            trade_symbols.

Definition spot_symbol_of (trade_symbol : string) : string :=
  if decide (trade_symbol = "NIFTY") then "NIFTY 50" else "SENSEX".

(** The body of the [for tick in batch] loop, the same in the emergency and
    in the normal path (the normal path also records the delay, see
    [record_delays]). *)
Definition resolve (env : directory) (trade_symbols : list string) (t : tick)
    : resolved :=
  if decide (tick_source t = "zerodha") then
    match tick_instrument_token (data t), last_price (data t) with
    | Some instrument_token, Some ltp =>
        if decide (instrument_token = 0) then Dropped
        else
          match find_spot env trade_symbols instrument_token with
          | Some trade_symbol =>
              Spot (SpotTick (spot_symbol_of trade_symbol) ltp
                      (exchange_timestamp (data t)) trade_symbol)
          | None =>
              match dict_get instrument_token (kite_instrument_mapping env) with
              | Some kite_symbol =>
                  if decide (kite_symbol = "") then Dropped
                  else
                    Contract (ZerodhaTick kite_symbol ltp instrument_token
                                (exchange_timestamp (data t)))
              | None => Dropped
              end
          end
    | _, _ => Dropped
    end
  else Dropped.

Fixpoint classify (env : directory) (trade_symbols : list string)
    (batch : list tick) : list spot_tick * list zerodha_tick :=
  match batch with
  | [] => ([], [])
  | t :: batch' =>
      let '(spot_ticks, zerodha_ticks) := classify env trade_symbols batch' in
      match resolve env trade_symbols t with
      | Spot s => (s :: spot_ticks, zerodha_ticks)
      | Contract z => (spot_ticks, z :: zerodha_ticks)
      | Dropped => (spot_ticks, zerodha_ticks)
      end
  end.

(** The delay bookkeeping of the normal path: one update per tick of source
    zerodha that carries an exchange timestamp, before the tick is
    validated. *)
Fixpoint record_delays (now : nat -> datetime) (i : nat) (batch : list tick)
    (s : delay_statistics) : delay_statistics :=
  match batch with
  | [] => s
  | t :: batch' =>
      let s :=
        if decide (tick_source t = "zerodha") then
          match exchange_timestamp (data t) with
          | Some ts => update_delay_stats (now i) ts s
          | None => s
          end
        else s in
      record_delays now (S i) batch' s
  end.

(** What a consumer does, as seen from outside. *)
Inductive action :=
| GetNowait                          (* tick_queue.get_nowait() *)
| Get (timeout : Q) (got : bool)     (* tick_queue.get(timeout=..) *)
| CallUpsertSpot (s : spot_tick)
| CallUpsertBulk (zs : list zerodha_tick)
| ConnCommit.

(** The readings of [datetime.now()] during one pass of the loop. *)
Record clock := Clock {
  now_tick : nat -> datetime;    (* at the i-th tick of the batch *)
  now_spot : nat -> datetime;    (* in the i-th call of upsert_spot_price *)
  now_bulk : nat -> datetime     (* at the i-th entry of the bulk call *)
}.

Fixpoint apply_spot_ticks (env : directory) (now : nat -> datetime) (i : nat)
    (spot_ticks : list spot_tick) (st : store) : store :=
  match spot_ticks with
  | [] => st
  | s :: rest =>
      apply_spot_ticks env now (S i) rest
        (upsert_spot_price env (now i) (spot_symbol s) (Some (spot_price s))
           (spot_trade_symbol s) "zerodha" true (spot_exchange_timestamp s) st)
  end.

(** [if zerodha_ticks: try: upsert_price_bulk(..) except: conn.rollback()]. *)
Definition apply_zerodha_ticks (env : directory) (now : nat -> datetime)
    (zerodha_ticks : list zerodha_tick) (st : store) : store :=
  match zerodha_ticks with
  | [] => st
  | _ :: _ =>
      match upsert_price_bulk env now
              (map kite_symbol zerodha_ticks)
              (map (λ z, Some (zerodha_tick_price z)) zerodha_ticks)
              (map zerodha_tick_timestamp zerodha_ticks)
              "zerodha" true st with
      | Returned st' => st'
      | Raised st' => log OpRollback st'
      end
  end.

Definition bulk_call (zerodha_ticks : list zerodha_tick) : list action :=
  match zerodha_ticks with
  | [] => []
  | _ :: _ => [CallUpsertBulk zerodha_ticks]
  end.

(** [while not tick_queue.empty() and len(emergency_batch) < 300]; [cap] is
    what is left of the 300. *)
Fixpoint drain (cap : nat) (q : list tick) : list tick * list tick :=
  match cap, q with
  | S cap', t :: q' =>
      let '(batch, rest) := drain cap' q' in (t :: batch, rest)
  | _, _ => ([], q)
  end.

(** [while len(batch) < current_batch_size]: a blocking pop with the adaptive
    timeout of the moment; on an empty queue the pop times out and the loop
    is left. *)
Fixpoint collect (n : nat) (q : list tick)
    : list tick * list tick * list action :=
  match n with
  | O => ([], q, [])
  | S n' =>
      let timeout := get_adaptive_timeout (Z.of_nat (length q)) in
      match q with
      | [] => ([], [], [Get timeout false])
      | t :: q' =>
          let '(batch, rest, acts) := collect n' q' in
          (t :: batch, rest, Get timeout true :: acts)
      end
  end.

Record worker := Worker {
  queue : list tick;
  db : store;
  delay_stats : delay_statistics;
  trace : list action;
  conn_open : bool
}.

(** How one pass of [while not shutdown_event.is_set()] ends. *)
Inductive pass :=
| EmergencyContinue    (* [continue] at the end of the emergency block *)
| EmptyContinue        (* [if not batch: continue] *)
| BatchDone.           (* the end of the loop body *)

(** Spot upserts, then the bulk upsert, then [conn.commit()]. *)
Definition apply_batch (env : directory) (clk : clock)
    (spot_ticks : list spot_tick) (zerodha_ticks : list zerodha_tick)
    (st : store) : store :=
  let st := apply_spot_ticks env (now_spot clk) 0 spot_ticks st in
  let st := apply_zerodha_ticks env (now_bulk clk) zerodha_ticks st in
  log OpCommit st.

Definition batch_calls (spot_ticks : list spot_tick)
    (zerodha_ticks : list zerodha_tick) : list action :=
  map CallUpsertSpot spot_ticks ++ bulk_call zerodha_ticks ++ [ConnCommit].

(** The straddle block that follows the upserts in the normal path only reads
    the table, through a connection of its own, and stores nothing (the two
    symbols it finds are never used); it is left out. *)
Definition normal_pass (env : directory) (trade_symbols : list string)
    (cpu_percent : Q) (clk : clock) (w : worker) : worker * pass :=
  let current_batch_size :=
    get_adaptive_batch_size cpu_percent (Z.of_nat (length (queue w))) in
  let '(batch, rest, gets) :=
    collect (Z.to_nat current_batch_size) (queue w) in
  match batch with
  | [] =>
      (Worker rest (db w) (delay_stats w) (trace w ++ gets) (conn_open w),
       EmptyContinue)
  | _ :: _ =>
      let '(spot_ticks, zerodha_ticks) := classify env trade_symbols batch in
      (Worker rest
              (apply_batch env clk spot_ticks zerodha_ticks (db w))
              (record_delays (now_tick clk) 0 batch (delay_stats w))
              (trace w ++ gets ++ batch_calls spot_ticks zerodha_ticks)
              (conn_open w),
       BatchDone)
  end.

(** [if conn is None or conn.closed: conn = get_db_connection()]. *)
Definition ensure_conn (w : worker) : worker :=
  if conn_open w then w
  else Worker (queue w) (log OpConnect (db w)) (delay_stats w) (trace w) true.

(** One pass of the loop of [database_worker], run by a single consumer
    while the shutdown event is not set. *)
Definition database_worker_pass (env : directory) (trade_symbols : list string)
    (cpu_percent : Q) (clk : clock) (w : worker) : worker * pass :=
  let w := ensure_conn w in
  let queue_size := Z.of_nat (length (queue w)) in
  if decide (2000 < queue_size) then
    let '(emergency_batch, rest) := drain 300 (queue w) in
    let w :=
      Worker rest (db w) (delay_stats w)
             (trace w ++ replicate (length emergency_batch) GetNowait)
             (conn_open w) in
    match emergency_batch with
    | [] => normal_pass env trade_symbols cpu_percent clk w
    | _ :: _ =>
        let '(spot_ticks, zerodha_ticks) :=
          classify env trade_symbols emergency_batch in
        (Worker rest
                (apply_batch env clk spot_ticks zerodha_ticks (db w))
                (delay_stats w)
                (trace w ++ batch_calls spot_ticks zerodha_ticks)
                (conn_open w),
         EmergencyContinue)
    end
  else normal_pass env trade_symbols cpu_percent clk w.

(** ** The feed session: error callback and restart loop *)

Definition MAX_RECONNECTS : Z := 10.

Record supervisor := Supervisor {
  zerodha_connected : bool;
  reconnect_attempts : Z;
  kite_access_token : bool      (* false: the token is None *)
}.

Inductive caller := ErrorHandler | MainLoop.

Inductive supervisor_action :=
| Sleep (seconds : Z)
| RunZerodhaWebsocket (by_ : caller).

(** [run_zerodha_websocket] authenticates again when the token is None. *)
Definition run_zerodha_websocket (s : supervisor) : supervisor :=
  Supervisor (zerodha_connected s) (reconnect_attempts s) true.

(** [zerodha_on_error]: no reconnect for the normal closure codes nor once
    the counter has reached [MAX_RECONNECTS]; else count, wait five seconds,
    drop the token and run the session again from inside the callback. *)
Definition zerodha_on_error (code : Z) (s : supervisor)
    : supervisor * list supervisor_action :=
  let s := Supervisor false (reconnect_attempts s) (kite_access_token s) in
  if decide (code = 1000 ∨ code = 1001) then (s, [])
  else if decide (MAX_RECONNECTS <= reconnect_attempts s) then (s, [])
  else
    let s := Supervisor false (reconnect_attempts s + 1) false in
    (run_zerodha_websocket s, [Sleep 5; RunZerodhaWebsocket ErrorHandler]).

(** What the feed thread sees: an error callback, or the return of
    [run_zerodha_websocket] to the loop of [main] (with the state of the
    shutdown event at that moment). *)
Inductive feed_event :=
| OnError (code : Z)
| SessionEnded (shutdown : bool).

(** [main]: [while not shutdown: run_zerodha_websocket(); if shutdown: break;
    sleep(2)]. *)
Definition main_loop (shutdown : bool) (s : supervisor)
    : supervisor * list supervisor_action :=
  if shutdown then (s, [])
  else (run_zerodha_websocket s, [Sleep 2; RunZerodhaWebsocket MainLoop]).

Definition supervise_step (e : feed_event) (s : supervisor)
    : supervisor * list supervisor_action :=
  match e with
  | OnError code => zerodha_on_error code s
  | SessionEnded shutdown => main_loop shutdown s
  end.

Fixpoint supervise (events : list feed_event) (s : supervisor)
    : supervisor * list supervisor_action :=
  match events with
  | [] => (s, [])
  | e :: events' =>
      let '(s1, acts1) := supervise_step e s in
      let '(s2, acts2) := supervise events' s1 in
      (s2, acts1 ++ acts2)
  end.

Definition supervisor_init : supervisor := Supervisor true 0 true.

Definition is_reconnect (a : supervisor_action) : bool :=
  match a with RunZerodhaWebsocket _ => true | Sleep _ => false end.

Definition is_handler_reconnect (a : supervisor_action) : bool :=
  match a with RunZerodhaWebsocket ErrorHandler => true | _ => false end.

Definition normal_closure (code : Z) : bool :=
  bool_decide (code = 1000 ∨ code = 1001).

(** [zerodha_on_ticks]: every tick of the feed is wrapped and put on the
    queue. *)
Definition zerodha_on_ticks (now : datetime) (ticks : list tick_data)
    (q : list tick) : list tick :=
  q ++ map (λ d, Tick "zerodha" d (Some now)) ticks.

(** ** Vocabulary of the statements *)

(** The derived columns agree with the source columns. *)
Definition derived_ok (r : row) : Prop :=
  zerodha_price r ≠ None ->
  price r = zerodha_price r ∧ timestamp r = zerodha_timestamp r.

(** What the UPDATE of the derived columns does to the row it finds. *)
Definition derive (r : row) : row :=
  match zerodha_price r with
  | Some _ => set_derived r
  | None => r
  end.

(** The assignment list of [upsert_price], by source. *)
Definition upsert_assignment (source : string) (p : option Q) (ts : datetime)
    (tok : option Z) (e : option date) : row -> row :=
  if decide (lower source = "zerodha") then set_zerodha p ts tok e
  else set_common p ts tok e.

(** The symbols named by the statements of a journal. *)
Definition touched (ops : list db_op) : list string :=
  omap (λ op, match op with OpExecute _ s => Some s | _ => None end) ops.

(** The part of the journal that a call has added. *)
Definition added (before after : store) : list db_op :=
  drop (length (journal before)) (journal after).

Inductive sink_call :=
| UpsertPrice (now : datetime) (kite_symbol : string) (price : option Q)
    (trade_symbol : option string) (source : string) (conn : bool)
    (kite_instrument_token : option Z) (exchange_timestamp : option datetime)
| UpsertPriceBulk (now : nat -> datetime) (kite_symbols : list string)
    (prices : list (option Q)) (exchange_timestamps : list (option datetime))
    (source : string) (conn : bool)
| UpsertSpotPrice (now : datetime) (spot_symbol : string) (price : option Q)
    (trade_symbol : string) (source : string) (conn : bool)
    (exchange_timestamp : option datetime).

Definition run_sink (env : directory) (c : sink_call) (st : store) : result :=
  match c with
  | UpsertPrice now sym p tsym src conn tok ets =>
      Returned (upsert_price env now sym p tsym src conn tok ets st)
  | UpsertPriceBulk now syms ps etss src conn =>
      upsert_price_bulk env now syms ps etss src conn st
  | UpsertSpotPrice now sym p tsym src conn ets =>
      Returned (upsert_spot_price env now sym p tsym src conn ets st)
  end.


(** ** Concrete data for the examples *)

Definition env_ex : directory :=
  Directory
    [(11, "NIFTY24DEC24000CE"); (12, "NIFTY24DEC24000PE")]
    [("NIFTY24DEC24000CE", Details (24000 # 1) "CE" 20083 "NIFTY");
     ("NIFTY24DEC24000PE", Details (24000 # 1) "PE" 20083 "NIFTY")]
    {["NIFTY" := Some 256265]}
    {["NIFTY" := 20083]}.

Definition store_empty : store := Store ∅ [].

Definition bulk_call_ex : sink_call :=
  UpsertPriceBulk (λ _, 0) ["NIFTY24DEC24000CE"] [Some (101 # 1)]
    [Some 5000000] "zerodha" true.

Definition clock_ex : clock := Clock (λ _, 9000000) (λ _, 9000000) (λ _, 9000000).

Definition three_ticks (tok : Z) (t1 t2 t3 : datetime) : list tick_data :=
  [TickData (Some tok) (Some 100%Q) (Some t1);
   TickData (Some tok) (Some 101%Q) (Some t2);
   TickData (Some tok) (Some 99%Q) (Some t3)].

Definition worker_ex : worker :=
  Worker (zerodha_on_ticks 0 (three_ticks 11 1000000 2000000 3000000) [])
         store_empty delay_stats_init [] true.

(** The ticks that a pass has taken from the queue, and the actions it has
    added to the trace. *)
Definition popped (w w' : worker) : list tick :=
  take (length (queue w) - length (queue w')) (queue w).

Definition new_actions (w w' : worker) : list action :=
  drop (length (trace w)) (trace w').

Definition is_pop (a : action) : bool :=
  match a with
  | GetNowait | Get _ _ => true
  | _ => false
  end.


(** A queue of [n] copies of one tick of the first contract of [env_ex]. *)
Definition backlog (n : nat) : list tick :=
  replicate n (Tick "zerodha" (TickData (Some 11) (Some 100%Q) (Some 1000000))
                 (Some 1000000)).

Definition worker_backlog (n : nat) : worker :=
  Worker (backlog n) store_empty delay_stats_init [] true.

Definition spot_tick_ex : tick :=
  Tick "zerodha" (TickData (Some 256265) (Some 24010%Q) (Some 1000000))
       (Some 1000000).

Definition contract_tick_ex : tick :=
  Tick "zerodha" (TickData (Some 11) (Some 100%Q) (Some 1000000))
       (Some 1000000).

Definition worker_spot_ex : worker :=
  Worker [spot_tick_ex; contract_tick_ex] store_empty delay_stats_init [] true.


(** The error callbacks of a run that are not normal closures. *)
Definition abnormal (codes : list Z) : list Z :=
  List.filter (λ code, negb (normal_closure code)) codes.

Definition reconnects (acts : list supervisor_action) : list supervisor_action :=
  List.filter is_reconnect acts.

(** The directory after instrument token 11 has passed from an expired
    contract to a new one: the mapping holds the new symbol only, the details
    hold both. *)
Definition env_stale : directory :=
  Directory
    [(11, "NIFTY24DEC24000CE")]
    [("NIFTY24NOV23000CE", Details (23000 # 1) "CE" 20055 "NIFTY");
     ("NIFTY24DEC24000CE", Details (24000 # 1) "CE" 20083 "NIFTY")]
    {["NIFTY" := Some 256265]}
    {["NIFTY" := 20083]}.

(** ** Further functions of the module *)

(** [create_price_table]: an existing table is dropped and the table is
    created again, so it is empty afterwards.  The function works on a
    connection of its own in autocommit mode; the journal records the
    statements on rows only. *)
Definition create_price_table (st : store) : store :=
  Store ∅ (journal st).

(** The start of [main] and of [run_websocket_main]: the table is created
    and [populate_initial_instruments] is called for every trade symbol, with
    a connection of its own; an exception ends the sequence. *)
Fixpoint populate_all (env : directory) (trade_symbols : list string)
    (st : store) : result :=
  match trade_symbols with
  | [] => Returned st
  | trade_symbol :: rest =>
      match populate_initial_instruments env trade_symbol false st with
      | Returned st' => populate_all env rest st'
      | Raised st' => Raised st'
      end
  end.

Definition bootstrap (env : directory) (trade_symbols : list string)
    (st : store) : result :=
  populate_all env trade_symbols (create_price_table st).

(** [get_index_price_and_symbol]: the first of "NIFTY 50" and "SENSEX" that
    has a row with a price; [None] stands for the pair [(None, None)]. *)
Fixpoint first_priced (candidates : list string) (t : gmap string row)
    : option (string * Q) :=
  match candidates with
  | [] => None
  | candidate :: rest =>
      match t !! candidate with
      | Some r =>
          match price r with
          | Some p => Some (candidate, p)
          | None => first_priced rest t
          end
      | None => first_priced rest t
      end
  end.

Definition get_index_price_and_symbol (t : gmap string row)
    : option (string * Q) :=
  first_priced ["NIFTY 50"; "SENSEX"] t.

(** The row that the bootstrap writes for an entry of the details. *)
Definition initial_row (trade_symbol : string) (d : details) (tok : Z)
    (e : date) : row :=
  Row None None (Some trade_symbol) (Some (strike d))
      (Some (option_type_of d)) (Some "Initial") None None (Some tok) (Some e).

(** The columns that the bootstrap never assigns on an existing row. *)
Definition same_prices (r r' : row) : Prop :=
  price r' = price r ∧ timestamp r' = timestamp r
  ∧ zerodha_price r' = zerodha_price r
  ∧ zerodha_timestamp r' = zerodha_timestamp r
  ∧ source r' = source r.

(** The columns that the contract upserts never assign on an existing row. *)
Definition same_labels (r r' : row) : Prop :=
  trade_symbol r' = trade_symbol r ∧ strike_price r' = strike_price r
  ∧ option_type r' = option_type r ∧ source r' = source r.

(** The columns that no upsert of a consumer pass assigns. *)
Definition same_contract (r r' : row) : Prop :=
  strike_price r' = strike_price r ∧ option_type r' = option_type r
  ∧ instrument_token r' = instrument_token r.

(** Every row of [t] is still there in [t'], related by [R]. *)
Definition rows_kept (R : row -> row -> Prop) (t t' : gmap string row) : Prop :=
  ∀ k r, t !! k = Some r -> ∃ r', t' !! k = Some r' ∧ R r r'.

Definition same_strike (r r' : row) : Prop :=
  strike_price r' = strike_price r ∧ option_type r' = option_type r.

(** The last parameter tuple of a bulk call for a symbol. *)
Fixpoint last_entry (s : string)
    (bulk : list (string * option Q * datetime * option date))
    : option (option Q * datetime * option date) :=
  match bulk with
  | [] => None
  | (s0, p, ts, e) :: rest =>
      match last_entry s rest with
      | Some x => Some x
      | None => if decide (s0 = s) then Some (p, ts, e) else None
      end
  end.

(** What [populate_initial_instruments] does to the row of an entry of the
    details. *)
Definition populate_row (env : directory) (trade_symbol : string) (e : date)
    (sym : string) (d : details) (o : option row) : option row :=
  if decide (trade_symbol_of d = trade_symbol) then
    match token_of_symbol (kite_instrument_mapping env) sym with
    | Some tok =>
        if decide (tok = 0) then o
        else
          Some (from_option
                  (set_initial trade_symbol (strike d) (option_type_of d) tok e)
                  (initial_row trade_symbol d tok e) o)
    | None => o
    end
  else o.

Definition two_ticks_call_ex : sink_call :=
  UpsertPriceBulk (λ _, 0) ["NIFTY24DEC24000CE"; "NIFTY24DEC24000CE"]
    [Some 100%Q; Some 101%Q] [Some 1000000; Some 2000000] "zerodha" true.

(** The symbol whose row a tick of the batch is written to, if any. *)
Definition written_symbol (env : directory) (trade_symbols : list string)
    (t : tick) : option string :=
  match resolve env trade_symbols t with
  | Spot s => Some (spot_symbol s)
  | Contract z => Some (kite_symbol z)
  | Dropped => None
  end.

(** The ticks whose delay the normal path measures. *)
Definition measured (t : tick) : bool :=
  bool_decide (tick_source t = "zerodha")
  && bool_decide (is_Some (exchange_timestamp (data t))).

(** [if conn and not conn.closed: conn.close()] at the end of
    [database_worker]. *)
Definition close_worker (w : worker) : worker :=
  if conn_open w
  then Worker (queue w) (log OpClose (db w)) (delay_stats w) (trace w) false
  else w.

(** [database_worker], observed at the head of its loop: every element of
    [heads] is one evaluation of [while not shutdown_event.is_set()], with
    the state of the event and the readings of the pass that follows when
    the event is not set.  The list ends where the observation ends. *)
Fixpoint database_worker (env : directory) (trade_symbols : list string)
    (heads : list (bool * Q * clock)) (w : worker) : worker :=
  match heads with
  | [] => w
  | (shutdown, cpu_percent, clk) :: rest =>
      if shutdown then close_worker w
      else
        database_worker env trade_symbols rest
          (database_worker_pass env trade_symbols cpu_percent clk w).1
  end.

(** The statistics after a sequence of measurements (processing time,
    exchange timestamp), from the initial value of the module. *)
Definition delay_stats_after (ms : list (datetime * datetime))
    : delay_statistics :=
  foldl (λ s m, update_delay_stats m.1 m.2 s) delay_stats_init ms.

(** A stretch of journal without a rollback. *)
Definition quiet (ops : list db_op) : Prop :=
  Forall (λ op, op ≠ OpRollback) ops.

(** ** Subscription *)

(** [if spot_instrument_tokens[trade_symbol]:] the token is there and not 0. *)
Definition truthy_token (tok : option Z) : option Z :=
  match tok with
  | Some n => if decide (n = 0) then None else Some n
  | None => None
  end.

(** [zerodha_on_connect]: the tokens of the mapping, then every spot token
    that is set; [subscribe_ok] tells whether [ws.subscribe] and
    [ws.set_mode] went through.  The spot tokens come in the order of
    [map_to_list], not in the insertion order of the Python dict: only
    membership in the list is meant. *)
Definition zerodha_on_connect (env : directory) (subscribe_ok : bool)
    (s : supervisor) : supervisor * list Z :=
  let instrument_tokens :=
    map fst (kite_instrument_mapping env) ++
    omap (λ kv, truthy_token kv.2) (map_to_list (spot_instrument_tokens env)) in
  (Supervisor subscribe_ok (reconnect_attempts s) (kite_access_token s),
   instrument_tokens).

(** ** Service control *)

(** A reading of [datetime.now(IST)]: the day of the week (Monday is 0) and
    the time of day.  [now.replace(hour=.., minute=.., second=0,
    microsecond=0)] is a datetime of the same date and zone, so comparing it
    with [now] compares the time fields, in order. *)
Record local_time := LocalTime {
  weekday : Z;
  hour : Z;
  minute : Z;
  second : Z;
  microsecond : Z
}.

Definition time_le (a b : local_time) : bool :=
  if decide (hour a < hour b) then true
  else if decide (hour b < hour a) then false
  else if decide (minute a < minute b) then true
  else if decide (minute b < minute a) then false
  else if decide (second a < second b) then true
  else if decide (second b < second a) then false
  else bool_decide (microsecond a <= microsecond b).

Definition replace_time (now : local_time) (h m : Z) : local_time :=
  LocalTime (weekday now) h m 0 0.

(** [_is_market_hours_now] of Kite_WebSocket.py. *)
Definition is_market_hours_now (now : local_time) : bool :=
  if decide (5 <= weekday now) then false
  else
    let start := replace_time now 9 15 in
    let stop := replace_time now 15 31 in
    time_le start now && time_le now stop.

(** [is_market_hours] of start_all.py, with its own constants. *)
Definition MARKET_START_HH_MM : Z * Z := (9, 15).
Definition MARKET_STOP_HH_MM : Z * Z := (15, 31).

Definition is_market_hours (now : local_time) : bool :=
  if decide (5 <= weekday now) then false
  else
    let start :=
      replace_time now MARKET_START_HH_MM.1 MARKET_START_HH_MM.2 in
    let stop := replace_time now MARKET_STOP_HH_MM.1 MARKET_STOP_HH_MM.2 in
    time_le start now && time_le now stop.

(** The globals of the service control. *)
Record service := Service {
  websocket_running : bool;
  shutdown_event : bool;
  websocket_trade_symbols : list string
}.

(** [start_websocket_service]; [trade_symbols] is the list read from the
    configuration (stripped, without empty entries).  The result is the
    returned flag, the new state, and whether a thread running
    [run_websocket_main] has been started. *)
Definition start_websocket_service (trade_symbols : list string)
    (svc : service) : bool * service * bool :=
  if websocket_running svc then (true, svc, false)
  else
    match trade_symbols with
    | [] => (false, svc, false)
    | _ :: _ => (true, Service true (shutdown_event svc) trade_symbols, true)
    end.

(** [stop_websocket_service]: the event is set, and nothing in the module
    clears it. *)
Definition stop_websocket_service (svc : service) : service :=
  if websocket_running svc
  then Service false true (websocket_trade_symbols svc)
  else svc.

(** [run_websocket_main]: the condition of its session loop, and its
    [finally] block. *)
Definition session_loop_enters (svc : service) : bool :=
  websocket_running svc && negb (shutdown_event svc).

Definition run_websocket_main_exit (svc : service) : service :=
  Service false (shutdown_event svc) (websocket_trade_symbols svc).

Inductive service_op :=
| Start (trade_symbols : list string)
| Stop
| ThreadExit.

Definition service_step (svc : service) (op : service_op) : service :=
  match op with
  | Start trade_symbols => (start_websocket_service trade_symbols svc).1.2
  | Stop => stop_websocket_service svc
  | ThreadExit => run_websocket_main_exit svc
  end.

Record status := Status {
  running : bool;
  status_trade_symbols : list string;
  queue_size : Z;
  status_zerodha_connected : bool
}.

(** [get_websocket_status] (the keys [is_running], [available] and
    [message] repeat or decorate the others). *)
Definition get_websocket_status (now : local_time) (svc : service)
    (q : list tick) (s : supervisor) : status :=
  let running := websocket_running svc && is_market_hours_now now in
  Status running
         (if running then websocket_trade_symbols svc else [])
         (Z.of_nat (length q))
         (zerodha_connected s).

(** [_backend_ws_status] of start_all.py: the [running] flag of the status
    that the backend answers, [False] when the request fails. *)
Definition backend_ws_status (reachable : bool) (now : local_time)
    (svc : service) (q : list tick) (s : supervisor) : bool :=
  if reachable then running (get_websocket_status now svc q s) else false.

Inductive controller_action :=
| BackendWsStart
| BackendWsStop.

(** One round of [websocket_controller_loop]: [running] is what
    [_backend_ws_status] returned, [now] the controller's own clock. *)
Definition websocket_controller_round (running : bool) (now : local_time)
    : list controller_action :=
  let in_hours := is_market_hours now in
  (if in_hours && negb running then [BackendWsStart] else [])
  ++ (if negb in_hours && running then [BackendWsStop] else []).

Definition service_ex : service := Service true false ["NIFTY"].

Definition monday_1530 : local_time := LocalTime 0 15 30 59 999999.
Definition monday_1531 : local_time := LocalTime 0 15 31 0 1.

(** Microseconds since midnight. *)
Definition microsecond_of_day (t : local_time) : Z :=
  ((hour t * 60 + minute t) * 60 + second t) * 1000000 + microsecond t.

(** The fields of a datetime are in their ranges. *)
Definition valid_time (t : local_time) : Prop :=
  0 <= weekday t <= 6 ∧ 0 <= hour t <= 23 ∧ 0 <= minute t <= 59
  ∧ 0 <= second t <= 59 ∧ 0 <= microsecond t <= 999999.

(** ** The instrument file *)

(** A line of kite_instruments.csv as pandas reads it; [csv_expiry] is the
    column after [pd.to_datetime(.., errors='coerce')], [None] standing for
    NaT.  Expiries are dates. *)
Record csv_row := CsvRow {
  csv_instrument_token : Z;
  csv_tradingsymbol : string;
  csv_name : string;
  csv_segment : string;
  csv_expiry : option date;
  csv_strike : Q;
  csv_instrument_type : string
}.

Record instrument := Instrument {
  instrument_token_of : Z;
  tradingsymbol : string;
  instrument_strike : Q;
  instrument_type : string;
  instrument_expiry : date;
  instrument_trade_symbol : string
}.

(** [d[k] = v] on a dict kept in insertion order: an existing key keeps its
    place. *)
Fixpoint dict_set {K V} `{EqDecision K} (k : K) (v : V) (d : list (K * V))
    : list (K * V) :=
  match d with
  | [] => [(k, v)]
  | (k', v') :: d' =>
      if decide (k' = k) then (k, v) :: d' else (k', v') :: dict_set k v d'
  end.

(** [df[(df['name'] == name) & (df['segment'] == segment)]] *)
Definition name_segment (name segment : string) (df : list csv_row)
    : list csv_row :=
  filter (λ r, csv_name r = name ∧ csv_segment r = segment) df.

(** [spot_df]: assigned for NIFTY and SENSEX, left as it was (or unbound)
    for any other trade symbol. *)
Definition select_spot (trade_symbol : string) (df : list csv_row)
    (spot_df : option (list csv_row)) : option (list csv_row) :=
  if decide (trade_symbol = "NIFTY")
  then Some (name_segment "NIFTY 50" "INDICES" df)
  else if decide (trade_symbol = "SENSEX")
  then Some (name_segment "SENSEX" "INDICES" df)
  else spot_df.

(** [filtered_df]; [None] is the branch "Unsupported trade_symbol". *)
Definition select_options (trade_symbol : string) (df : list csv_row)
    : option (list csv_row) :=
  if decide (trade_symbol = "NIFTY")
  then Some (name_segment "NIFTY" "NFO-OPT" df)
  else if decide (trade_symbol = "SENSEX")
  then Some (name_segment "SENSEX" "BFO-OPT" df)
  else None.

(** [dropna(subset=['expiry'])]: the rows that have an expiry, with it. *)
Definition with_expiry (rows : list csv_row) : list (csv_row * date) :=
  omap (λ r, (λ e, (r, e)) <$> csv_expiry r) rows.

(** [Series.min()]; [None] is NaT, for an empty series. *)
Definition series_min (l : list date) : option date :=
  match l with
  | [] => None
  | x :: l' => Some (foldl Z.min x l')
  end.

(** [filtered_df[filtered_df['days_to_expiry'] >= 0]['expiry'].min()] *)
Definition nearest_expiry_of (today : date)
    (filtered_df : list (csv_row * date)) : option date :=
  series_min (filter (λ e, today <= e) filtered_df.*2).

Definition instrument_of (trade_symbol : string) (re : csv_row * date)
    : instrument :=
  Instrument (csv_instrument_token re.1) (csv_tradingsymbol re.1)
    (csv_strike re.1) (csv_instrument_type re.1) re.2 trade_symbol.

Definition details_of (trade_symbol : string) (re : csv_row * date)
    : details :=
  Details (csv_strike re.1) (csv_instrument_type re.1) re.2 trade_symbol.

(** The body of [for _, row in nearest_instruments.iterrows()]. *)
Definition add_instrument (trade_symbol : string)
    (acc : directory * list instrument) (re : csv_row * date)
    : directory * list instrument :=
  let env := acc.1 in
  (Directory
     (dict_set (csv_instrument_token re.1) (csv_tradingsymbol re.1)
        (kite_instrument_mapping env))
     (dict_set (csv_tradingsymbol re.1) (details_of trade_symbol re)
        (kite_instrument_details env))
     (spot_instrument_tokens env)
     (nearest_expiry_dates env),
   acc.2 ++ [instrument_of trade_symbol re]).

Record parser := Parser {
  parsed : directory;
  spot_df : option (list csv_row);
  all_instruments : list instrument
}.

(** One round of [for trade_symbol in trade_symbols]; [inr] is the
    UnboundLocalError of [spot_df] for an unsupported first symbol, with the
    globals as they are at that point.  [today] is [datetime.now().date()],
    one reading for all rounds. *)
Definition parse_symbol (df : list csv_row) (today : date)
    (trade_symbol : string) (p : parser) : parser + directory :=
  let env := parsed p in
  match select_spot trade_symbol df (spot_df p) with
  | None => inr env
  | Some sdf =>
      let env :=
        Directory (kite_instrument_mapping env) (kite_instrument_details env)
          (<[trade_symbol := csv_instrument_token <$> head sdf]>
             (spot_instrument_tokens env))
          (nearest_expiry_dates env) in
      let skip := inl (Parser env (Some sdf) (all_instruments p)) in
      match select_options trade_symbol df with
      | None => skip
      | Some filtered_df =>
          let filtered_df := with_expiry filtered_df in
          match filtered_df with
          | [] => skip
          | _ :: _ =>
              match nearest_expiry_of today filtered_df with
              | None => skip
              | Some nearest_expiry =>
                  let env :=
                    Directory (kite_instrument_mapping env)
                      (kite_instrument_details env)
                      (spot_instrument_tokens env)
                      (<[trade_symbol := nearest_expiry]>
                         (nearest_expiry_dates env)) in
                  let nearest_instruments :=
                    filter (λ re, re.2 = nearest_expiry) filtered_df in
                  let acc :=
                    foldl (add_instrument trade_symbol)
                          (env, all_instruments p) nearest_instruments in
                  inl (Parser acc.1 (Some sdf) acc.2)
              end
          end
      end
  end.

Fixpoint parse_symbols (df : list csv_row) (today : date)
    (trade_symbols : list string) (p : parser) : parser + directory :=
  match trade_symbols with
  | [] => inl p
  | trade_symbol :: rest =>
      match parse_symbol df today trade_symbol p with
      | inl p' => parse_symbols df today rest p'
      | inr env => inr env
      end
  end.

(** [parse_kite_instruments_multi]: the instruments it returns and the
    globals it leaves; the [except] branch returns the empty list. *)
Definition parse_kite_instruments_multi (df : list csv_row) (today : date)
    (trade_symbols : list string) (env : directory)
    : list instrument * directory :=
  match parse_symbols df today trade_symbols (Parser env None []) with
  | inl p => (all_instruments p, parsed p)
  | inr env' => ([], env')
  end.

(** [valid_symbols] of [main]. *)
Definition valid_symbols : list string := ["NIFTY"; "SENSEX"].

(** The option contracts of a trade symbol in the file, with their expiry. *)
Definition option_rows (trade_symbol : string) (df : list csv_row)
    : list (csv_row * date) :=
  with_expiry (default [] (select_options trade_symbol df)).

(** The contracts of the nearest expiry that is not before [today]. *)
Definition nearest_contracts (df : list csv_row) (today : date)
    (trade_symbol : string) : list (csv_row * date) :=
  match nearest_expiry_of today (option_rows trade_symbol df) with
  | Some e => filter (λ re, re.2 = e) (option_rows trade_symbol df)
  | None => []
  end.

(** Assignments [d[key x] = value x] for the [x] of a list, in order. *)
Definition dict_update {K V A} `{EqDecision K} (key : A -> K) (value : A -> V)
    (d : list (K * V)) (l : list A) : list (K * V) :=
  foldl (λ d x, dict_set (key x) (value x) d) d l.

(** What one round does when [spot_df] is bound. *)
Definition parse_symbol_result (df : list csv_row) (today : date)
    (ts : string) (sdf : list csv_row) (p : parser) : parser :=
  let l := nearest_contracts df today ts in
  Parser
    (Directory
       (dict_update (λ re, csv_instrument_token re.1)
          (λ re, csv_tradingsymbol re.1)
          (kite_instrument_mapping (parsed p)) l)
       (dict_update (λ re, csv_tradingsymbol re.1) (details_of ts)
          (kite_instrument_details (parsed p)) l)
       (<[ts := csv_instrument_token <$> head sdf]>
          (spot_instrument_tokens (parsed p)))
       (match nearest_expiry_of today (option_rows ts df) with
        | Some e => <[ts := e]> (nearest_expiry_dates (parsed p))
        | None => nearest_expiry_dates (parsed p)
        end))
    (Some sdf)
    (all_instruments p ++ (instrument_of ts <$> l)).

(** The contracts that the loop registers, in order, each with the trade
    symbol of its round. *)
Definition parsed_contracts (df : list csv_row) (today : date)
    (trade_symbols : list string) : list (string * (csv_row * date)) :=
  ts ← trade_symbols; pair ts <$> nearest_contracts df today ts.

(** The start of [main] and of [run_websocket_main] after the download:
    parse, stop without instruments, create the table, populate it for every
    trade symbol. *)
Inductive startup_result :=
  | NoInstruments (env : directory)
  | Bootstrapped (env : directory) (res : result).

Definition startup (df : list csv_row) (today : date)
    (trade_symbols : list string) (env : directory) (st : store)
    : startup_result :=
  let kite_instruments := parse_kite_instruments_multi df today trade_symbols env in
  match kite_instruments.1 with
  | [] => NoInstruments kite_instruments.2
  | _ :: _ =>
      Bootstrapped kite_instruments.2
        (bootstrap kite_instruments.2 trade_symbols st)
  end.

Definition env_empty : directory := Directory [] [] ∅ ∅.

Definition csv_ex : list csv_row :=
  [CsvRow 256265 "NIFTY 50" "NIFTY 50" "INDICES" None 0 "EQ";
   CsvRow 11 "NIFTY24DEC24000CE" "NIFTY" "NFO-OPT" (Some 20083) 24000 "CE";
   CsvRow 12 "NIFTY24DEC24000PE" "NIFTY" "NFO-OPT" (Some 20083) 24000 "PE";
   CsvRow 13 "NIFTY25JAN24000CE" "NIFTY" "NFO-OPT" (Some 20118) 24000 "CE";
   CsvRow 14 "NIFTY24NOV24000CE" "NIFTY" "NFO-OPT" (Some 20055) 24000 "CE";
   CsvRow 265 "SENSEX" "SENSEX" "INDICES" None 0 "EQ";
   CsvRow 21 "SENSEX24NOV80000CE" "SENSEX" "BFO-OPT" (Some 20055) 80000 "CE"].

(** * Properties *)

(** ** The SQL statements on the table *)

Section Table.
Implicit Types (t : gmap string row) (r : row) (s : string).

Lemma lookup_insert_on_conflict s s' ins upd t :
  insert_on_conflict s ins upd t !! s' =
    if decide (s = s') then Some (from_option upd ins (t !! s)) else t !! s'.
Proof.
  unfold insert_on_conflict.
  destruct (t !! s) eqn:E; rewrite lookup_insert; case_decide; subst; done.
Qed.

Lemma lookup_update_derived s s' t :
  update_derived s t !! s' =
    if decide (s = s') then derive <$> t !! s else t !! s'.
Proof.
  unfold update_derived, derive.
  destruct (t !! s) as [r|] eqn:E.
  - destruct (zerodha_price r) eqn:Ez.
    + rewrite lookup_insert. case_decide; subst; simpl; by rewrite ?Ez.
    + case_decide; subst; rewrite ?E; simpl; by rewrite ?Ez.
  - case_decide; subst; by rewrite ?E.
Qed.

Lemma derived_ok_derive r : derived_ok (derive r).
Proof.
  unfold derived_ok, derive.
  destruct (zerodha_price r) eqn:E; simpl; [done | congruence].
Qed.

(** The UPDATE establishes the invariant on its own symbol and keeps it
    on every other one. *)
Lemma update_derived_ok s s' t :
  (s ≠ s' -> ∀ r, t !! s' = Some r -> derived_ok r) ->
  ∀ r, update_derived s t !! s' = Some r -> derived_ok r.
Proof.
  intros Hother r. rewrite lookup_update_derived. case_decide; [|eauto].
  subst. destruct (t !! s'); simpl; [|done].
  intros [= <-]. apply derived_ok_derive.
Qed.
End Table.

Lemma rows_log op st : rows (log op st) = rows st.
Proof. done. Qed.

Lemma rows_open_conn conn st : rows (open_conn conn st) = rows st.
Proof. by destruct conn. Qed.

Lemma rows_close_conn conn st : rows (close_conn conn st) = rows st.
Proof. by destruct conn. Qed.

Create Rewrite HintDb rows.
#[export] Hint Rewrite rows_log rows_open_conn rows_close_conn : rows.

(** Push [rows] through the journal-only operations. *)
Ltac rows_simpl := autorewrite with rows.

Lemma rows_execute_bulk_derived syms st :
  rows (execute_bulk_derived syms st) =
    foldl (λ t s, update_derived s t) (rows st) syms.
Proof.
  unfold execute_bulk_derived. revert st.
  induction syms as [|s syms IH]; intros st; simpl; [done|].
  by rewrite IH.
Qed.

Lemma bulk_derived_keeps_ok syms s (t : gmap string row) :
  (∀ r, t !! s = Some r -> derived_ok r) ->
  ∀ r, foldl (λ t s, update_derived s t) t syms !! s = Some r -> derived_ok r.
Proof.
  revert t. induction syms as [|s0 syms IH]; intros t Ht; simpl; [done|].
  apply IH. apply update_derived_ok. auto.
Qed.

Lemma bulk_derived_ok syms s (t : gmap string row) :
  s ∈ syms ->
  ∀ r, foldl (λ t s, update_derived s t) t syms !! s = Some r -> derived_ok r.
Proof.
  revert t. induction syms as [|s0 syms IH]; intros t Hin; simpl.
  - by apply elem_of_nil in Hin.
  - destruct (decide (s0 = s)) as [->|Hne].
    + apply bulk_derived_keeps_ok. apply update_derived_ok. done.
    + apply IH. apply elem_of_cons in Hin as [?|?]; [congruence|done].
Qed.

(** ** The journal of the sink *)

Lemma added_app st st' ops :
  journal st' = journal st ++ ops -> added st st' = ops.
Proof. unfold added. intros ->. by rewrite drop_app_length. Qed.

Lemma journal_log op st : journal (log op st) = journal st ++ [op].
Proof. done. Qed.

Lemma journal_execute q s f st :
  journal (execute q s f st) = journal st ++ [OpExecute q s].
Proof. done. Qed.

Lemma journal_open_conn conn st :
  journal (open_conn conn st) =
    journal st ++ (if conn then [] else [OpConnect]).
Proof. destruct conn; simpl; by rewrite ?app_nil_r. Qed.

Lemma journal_close_conn conn st :
  journal (close_conn conn st) =
    journal st ++ (if conn then [] else [OpClose]).
Proof. destruct conn; simpl; by rewrite ?app_nil_r. Qed.

Lemma touched_app ops1 ops2 : touched (ops1 ++ ops2) = touched ops1 ++ touched ops2.
Proof. apply omap_app. Qed.

Lemma touched_open (conn : bool) : touched (if conn then [] else [OpConnect]) = [].
Proof. by destruct conn. Qed.

Lemma touched_close (conn : bool) : touched (if conn then [] else [OpClose]) = [].
Proof. by destruct conn. Qed.

Lemma upsert_price_rows env now sym p tsym src conn tok ets st :
  let f :=
    upsert_assignment src p (stamp ets now) tok
      (expiry_or_nearest env
         (expiry <$> dict_get sym (kite_instrument_details env)) tsym) in
  rows (upsert_price env now sym p tsym src conn tok ets st) =
    update_derived sym (insert_on_conflict sym (f null_row) f (rows st)).
Proof.
  unfold upsert_price, upsert_assignment.
  case_decide; rows_simpl; simpl; by rows_simpl.
Qed.

Lemma elem_of_twice (s x : string) : s ∈ [x; x] -> s = x.
Proof.
  intros H. apply elem_of_cons in H as [->|H]; [done|].
  by apply list_elem_of_singleton in H.
Qed.

(** An upsert followed by the UPDATE of the derived columns, applied twice. *)
Lemma upsert_then_derive_twice (f : row -> row) s (t : gmap string row) :
  (∀ y, derive (f (derive (f y))) = derive (f y)) ->
  update_derived s (insert_on_conflict s (f null_row) f
    (update_derived s (insert_on_conflict s (f null_row) f t))) =
  update_derived s (insert_on_conflict s (f null_row) f t).
Proof.
  intros Hf. apply map_eq. intros s'.
  destruct (decide (s = s')) as [<-|Hne].
  - repeat (rewrite ?lookup_update_derived, ?lookup_insert_on_conflict,
              ?decide_True by done).
    destruct (t !! s); simpl; by rewrite Hf.
  - repeat (rewrite ?lookup_update_derived, ?lookup_insert_on_conflict,
              ?decide_False by done).
    done.
Qed.

Lemma upsert_price_touched env now sym p tsym src conn tok ets st :
  touched (added st (upsert_price env now sym p tsym src conn tok ets st)) =
    [sym; sym].
Proof.
  rewrite (added_app _ _
    ((if conn then [] else [OpConnect]) ++
     [OpExecute (if decide (lower src = "zerodha")
                 then UpsertZerodha else UpsertCommon) sym;
      OpExecute UpdateDerived sym; OpCommit] ++
     (if conn then [] else [OpClose]))).
  - by rewrite !touched_app, touched_open, touched_close.
  - unfold upsert_price. rewrite journal_close_conn. simpl.
    case_decide; simpl; by rewrite journal_open_conn, <- !app_assoc.
Qed.

Lemma upsert_spot_price_rows env now sym p tsym src conn ets st :
  rows (upsert_spot_price env now sym p tsym src conn ets st) =
    update_derived sym
      (insert_on_conflict sym
         (set_spot p (stamp ets now) (Some tsym) src
            (nearest_expiry_dates env !! tsym) null_row)
         (set_spot p (stamp ets now) (Some tsym) src
            (nearest_expiry_dates env !! tsym))
         (rows st)).
Proof.
  unfold upsert_spot_price. rows_simpl. simpl. by rows_simpl.
Qed.

Lemma upsert_spot_price_touched env now sym p tsym src conn ets st :
  touched (added st (upsert_spot_price env now sym p tsym src conn ets st)) =
    [sym; sym].
Proof.
  erewrite added_app.
  2:{ unfold upsert_spot_price. rewrite journal_close_conn. simpl.
      rewrite journal_open_conn, <- !app_assoc; reflexivity. }
  rewrite !touched_app, touched_open, touched_close; done.
Qed.

Lemma bulk_data_symbols i syms ps tss es bulk :
  bulk_data i syms ps tss es = Some bulk -> map (λ x, x.1.1.1) bulk = syms.
Proof.
  revert i bulk. induction syms as [|s syms IH]; intros i bulk; simpl.
  - by intros [= <-].
  - destruct (ps !! i); simpl; [|done].
    destruct (tss !! i); simpl; [|done].
    destruct (es !! i); simpl; [|done].
    destruct (bulk_data (S i) syms ps tss es) eqn:E; simpl; [|done].
    intros [= <-]. simpl. f_equal. by eapply IH.
Qed.

Lemma journal_execute_bulk_upserts bulk st :
  journal (execute_bulk_upserts bulk st) =
    journal st ++ map (λ x, OpExecute UpsertZerodhaBulk x.1.1.1) bulk.
Proof.
  unfold execute_bulk_upserts. revert st.
  induction bulk as [|[[[s p] ts] e] bulk IH]; intros st; simpl.
  - by rewrite app_nil_r.
  - rewrite IH. simpl. by rewrite <- app_assoc.
Qed.

Lemma journal_execute_bulk_derived syms st :
  journal (execute_bulk_derived syms st) =
    journal st ++ map (OpExecute UpdateDerived) syms.
Proof.
  unfold execute_bulk_derived. revert st.
  induction syms as [|s syms IH]; intros st; simpl.
  - by rewrite app_nil_r.
  - rewrite IH. simpl. by rewrite <- app_assoc.
Qed.

Lemma touched_executes q (syms : list string) :
  touched (map (OpExecute q) syms) = syms.
Proof. induction syms as [|s syms IH]; simpl; [done|]. by f_equal. Qed.

Lemma touched_bulk_upserts
    (bulk : list (string * option Q * datetime * option date)) :
  touched (map (λ x, OpExecute UpsertZerodhaBulk x.1.1.1) bulk) =
    map (λ x, x.1.1.1) bulk.
Proof. induction bulk as [|x bulk IH]; simpl; [done|]. by f_equal. Qed.

(** What a bulk call that returns has done. *)
Lemma upsert_price_bulk_returned env now syms ps etss src conn st st' :
  upsert_price_bulk env now syms ps etss src conn st = Returned st' ->
  (syms = [] ∧ st' = st)
  ∨ (syms ≠ [] ∧ lower src ≠ "zerodha" ∧ rows st' = rows st
     ∧ touched (added st st') = [])
  ∨ (syms ≠ [] ∧ lower src = "zerodha"
     ∧ touched (added st st') = syms ++ syms
     ∧ ∃ t, rows st' = foldl (λ t s, update_derived s t) t syms).
Proof.
  unfold upsert_price_bulk. destruct syms as [|s syms].
  { intros [= <-]. by left. }
  case_decide as Hsrc.
  - destruct (bulk_data _ _ _ _ _) as [bulk|] eqn:Hbulk; [|done].
    intros [= <-]. right. right. split_and!; [done|done| |].
    + erewrite added_app.
      2:{ rewrite journal_close_conn, journal_log.
          rewrite journal_execute_bulk_derived, journal_execute,
            journal_execute_bulk_upserts,
            journal_open_conn, <- !app_assoc. reflexivity. }
      rewrite !touched_app, touched_open, touched_close.
      rewrite touched_bulk_upserts, touched_executes.
      rewrite (bulk_data_symbols _ _ _ _ _ _ Hbulk). simpl.
      by rewrite app_nil_r.
    + eexists. rewrite rows_close_conn, rows_log.
      rewrite rows_execute_bulk_derived. simpl. reflexivity.
  - intros [= <-]. right. left. split_and!; [done|done| |].
    + by rewrite rows_close_conn, rows_log, rows_open_conn.
    + erewrite added_app.
      2:{ rewrite journal_close_conn. simpl.
          rewrite journal_open_conn, <- !app_assoc. reflexivity. }
      by rewrite !touched_app, touched_open, touched_close.
Qed.

(** ** The persistence sink *)

Example lower_mixed_case : lower "ZeroDha" = "zerodha".
Proof. reflexivity. Qed.

Example strftime_ms_cuts_microseconds : strftime_ms 1234567 = 1234000.
Proof. reflexivity. Qed.

(** The bulk upsert of source zerodha on the empty table: the derived
    columns are filled, the token column is not. *)
Example bulk_call_ex_row :
  rows (store_of (run_sink env_ex bulk_call_ex store_empty))
    !! "NIFTY24DEC24000CE"
  = Some (Row (Some (101 # 1)) (Some 5000000) None None None None
              (Some (101 # 1)) (Some 5000000) None (Some 20083)).
Proof. vm_compute. reflexivity. Qed.

(** C9. After a call of [upsert_price], [upsert_price_bulk] or
    [upsert_spot_price] that returns (and so has committed), every row that
    a statement of the call has named satisfies: if [zerodha_price] is not
    null then [price = zerodha_price] and [timestamp = zerodha_timestamp]. *)
Theorem derived_columns_follow_source env c st st' sym r :
  run_sink env c st = Returned st' ->
  sym ∈ touched (added st st') ->
  rows st' !! sym = Some r ->
  derived_ok r.
Proof.
  destruct c as [now s p tsym src conn tok ets
                |now syms ps etss src conn
                |now s p tsym src conn ets]; simpl.
  - intros [= <-]. rewrite upsert_price_touched.
    intros ->%elem_of_twice. rewrite upsert_price_rows.
    by apply update_derived_ok.
  - intros Hret.
    destruct (upsert_price_bulk_returned _ _ _ _ _ _ _ _ _ Hret)
      as [[-> ->]|[(_ & _ & _ & ->)|(_ & _ & -> & t & ->)]].
    + unfold added. rewrite drop_all. by intros ?%elem_of_nil.
    + by intros ?%elem_of_nil.
    + intros Hin. apply bulk_derived_ok.
      by apply elem_of_app in Hin as [?|?].
  - intros [= <-]. rewrite upsert_spot_price_touched.
    intros ->%elem_of_twice. rewrite upsert_spot_price_rows.
    by apply update_derived_ok.
Qed.

Lemma derived_columns_follow_source_witness :
  let st' := store_of (run_sink env_ex bulk_call_ex store_empty) in
  let r := Row (Some (101 # 1)) (Some 5000000) None None None None
               (Some (101 # 1)) (Some 5000000) None (Some 20083) in
  run_sink env_ex bulk_call_ex store_empty = Returned st'
  ∧ "NIFTY24DEC24000CE" ∈ touched (added store_empty st')
  ∧ rows st' !! "NIFTY24DEC24000CE" = Some r
  ∧ derived_ok r.
Proof.
  intros st' r.
  assert (H1 : run_sink env_ex bulk_call_ex store_empty = Returned st')
    by (vm_compute; reflexivity).
  assert (H2 : "NIFTY24DEC24000CE" ∈ touched (added store_empty st'))
    by (apply (bool_decide_unpack _); vm_compute; exact I).
  assert (H3 : rows st' !! "NIFTY24DEC24000CE" = Some r)
    by (vm_compute; reflexivity).
  split_and!; [exact H1|exact H2|exact H3|].
  exact (derived_columns_follow_source env_ex bulk_call_ex store_empty st'
           "NIFTY24DEC24000CE" r H1 H2 H3).
Defined.

(** C10. [upsert_price_bulk] with an empty symbol list returns at once: the
    table is the one it was given and the journal has no new entry (no
    connection opened, no statement executed, no commit). *)
Theorem upsert_price_bulk_empty env now prices etss src conn st :
  ∃ st',
    upsert_price_bulk env now [] prices etss src conn st = Returned st'
    ∧ rows st' = rows st
    ∧ added st st' = [].
Proof.
  exists st. split_and!; [done|done|].
  unfold added. by rewrite drop_all.
Qed.

(** C6 (as amended). For an envelope that carries an exchange timestamp,
    applying [upsert_price] twice in succession leaves the table as one
    application leaves it, whatever the clock reads at the two calls. *)
Theorem upsert_price_idempotent env now1 now2 sym p tsym src conn tok ts st :
  let once := upsert_price env now1 sym p tsym src conn tok (Some ts) st in
  rows (upsert_price env now2 sym p tsym src conn tok (Some ts) once) =
    rows once.
Proof.
  intros once. subst once. rewrite !upsert_price_rows. simpl.
  apply upsert_then_derive_twice.
  intros y. unfold upsert_assignment.
  case_decide; destruct y as [? ? ? ? ? ? zp ? ? ?]; destruct p, zp; done.
Qed.

Example upsert_price_twice_without_exchange_timestamp :
  let once :=
    upsert_price env_ex 1000 "NIFTY24DEC24000CE" (Some 100%Q) (Some "NIFTY")
      "zerodha" true (Some 11) None store_empty in
  let twice :=
    upsert_price env_ex 2000 "NIFTY24DEC24000CE" (Some 100%Q) (Some "NIFTY")
      "zerodha" true (Some 11) None once in
  timestamp <$> rows once !! "NIFTY24DEC24000CE" = Some (Some 1000)
  ∧ timestamp <$> rows twice !! "NIFTY24DEC24000CE" = Some (Some 2000).
Proof. vm_compute. done. Qed.

(** C6 (counterexample). Without an exchange timestamp the second call
    stores the later reading of the clock: the timestamp of the row moves. *)
Lemma upsert_price_twice_moves_timestamp :
  ¬ (∀ env now1 now2 sym p tsym src conn tok ets st,
       let once := upsert_price env now1 sym p tsym src conn tok ets st in
       let twice := upsert_price env now2 sym p tsym src conn tok ets once in
       price <$> rows twice !! sym = price <$> rows once !! sym
       ∧ timestamp <$> rows twice !! sym = timestamp <$> rows once !! sym).
Proof.
  intros H.
  destruct (H env_ex 1000 2000 "NIFTY24DEC24000CE" (Some (100 # 1))
              (Some "NIFTY") "zerodha" true (Some 11) None store_empty)
    as [_ Ht].
  vm_compute in Ht. discriminate.
Qed.

(** ** The consumer loop *)

Lemma drain_spec cap q : drain cap q = (take cap q, drop cap q).
Proof.
  revert q. induction cap as [|cap IH]; intros [|t q]; simpl; try done.
  by rewrite IH.
Qed.

Lemma collect_spec n q :
  (collect n q).1 = (take n q, drop n q).
Proof.
  revert q. induction n as [|n IH]; intros [|t q]; simpl; try done.
  specialize (IH q). destruct (collect n q) as [[batch rest] acts].
  simpl in *. by injection IH as -> ->.
Qed.

(** Every pop of the normal path is a blocking pop. *)
Lemma collect_gets n q :
  Forall (λ a, ∃ timeout got, a = Get timeout got) (collect n q).2.
Proof.
  revert q. induction n as [|n IH]; intros [|t q]; simpl; try by constructor.
  - repeat constructor. eauto.
  - specialize (IH q). destruct (collect n q) as [[batch rest] acts].
    simpl in *. constructor; eauto.
Qed.


Lemma resolve_contract env trade_symbols tok p ets qe sym :
  tok ≠ 0 ->
  find_spot env trade_symbols tok = None ->
  dict_get tok (kite_instrument_mapping env) = Some sym ->
  sym ≠ "" ->
  resolve env trade_symbols (Tick "zerodha" (TickData (Some tok) (Some p) ets) qe)
  = Contract (ZerodhaTick sym p tok ets).
Proof.
  intros Htok Hspot Hsym Hne. unfold resolve. simpl.
  rewrite decide_False by done. rewrite Hspot, Hsym.
  by rewrite decide_False.
Qed.

Lemma derive_idemp r : derive (derive r) = derive r.
Proof. unfold derive. destruct r as [? ? ? ? ? ? [zp|] ? ? ?]; done. Qed.

Lemma lookup_bulk_derived syms s (t : gmap string row) :
  foldl (λ t s, update_derived s t) t syms !! s =
    if decide (s ∈ syms) then derive <$> t !! s else t !! s.
Proof.
  revert t. induction syms as [|s0 syms IH]; intros t; simpl.
  - done.
  - rewrite IH, lookup_update_derived.
    destruct (decide (s0 = s)) as [->|Hne].
    + rewrite (decide_True (P := s ∈ s :: syms)) by apply list_elem_of_here.
      case_decide; [|done].
      destruct (t !! s); simpl; [|done]. by rewrite derive_idemp.
    + destruct (decide (s ∈ syms)) as [Hin|Hnin].
      * rewrite decide_True; [done|]. by apply list_elem_of_further.
      * rewrite decide_False; [done|].
        intros [?|?]%elem_of_cons; [congruence|done].
Qed.


Lemma upsert_spot_price_lookup env now s p tsym src conn ets st :
  ∃ r,
    rows (upsert_spot_price env now s (Some p) tsym src conn ets st) !! s
      = Some r
    ∧ price r = Some p ∧ timestamp r = Some (stamp ets now)
    ∧ trade_symbol r = Some tsym ∧ source r = Some src.
Proof.
  rewrite upsert_spot_price_rows, lookup_update_derived, decide_True by done.
  rewrite lookup_insert_on_conflict, decide_True by done. simpl.
  eexists. split; [reflexivity|].
  by destruct (rows st !! s).
Qed.

Lemma ensure_conn_queue w : queue (ensure_conn w) = queue w.
Proof. unfold ensure_conn. by destruct (conn_open w). Qed.

Lemma ensure_conn_rows w : rows (db (ensure_conn w)) = rows (db w).
Proof. unfold ensure_conn. by destruct (conn_open w). Qed.

Lemma ensure_conn_delay_stats w : delay_stats (ensure_conn w) = delay_stats w.
Proof. unfold ensure_conn. by destruct (conn_open w). Qed.

Lemma ensure_conn_trace w : trace (ensure_conn w) = trace w.
Proof. unfold ensure_conn. by destruct (conn_open w). Qed.

Lemma get_adaptive_batch_size_bounds cpu d :
  25 <= get_adaptive_batch_size cpu d <= 150.
Proof.
  unfold get_adaptive_batch_size.
  repeat case_decide; try lia.
  destruct (Qlt_le_dec 80 cpu); [lia|].
  destruct (Qlt_le_dec 60 cpu); lia.
Qed.


Lemma pass_normal env tss cpu clk w :
  Z.of_nat (length (queue w)) <= 2000 ->
  database_worker_pass env tss cpu clk w =
    normal_pass env tss cpu clk (ensure_conn w).
Proof.
  intros Hlen. unfold database_worker_pass.
  rewrite ensure_conn_queue. rewrite decide_False by lia. done.
Qed.

Lemma rows_apply_batch env clk sps zs st :
  rows (apply_batch env clk sps zs st) =
    rows (apply_zerodha_ticks env (now_bulk clk) zs
            (apply_spot_ticks env (now_spot clk) 0 sps st)).
Proof. done. Qed.



(** *** The shape of a pass *)

Lemma popped_take n (q : list tick) w w' :
  queue w = q -> queue w' = drop n q -> popped w w' = take n q.
Proof.
  unfold popped. intros -> ->. rewrite length_drop.
  destruct (decide (n <= length q)%nat).
  - f_equal. lia.
  - rewrite !take_ge by lia. done.
Qed.

Lemma new_actions_app w w' acts :
  trace w' = trace w ++ acts -> new_actions w w' = acts.
Proof. unfold new_actions. intros ->. by rewrite drop_app_length. Qed.

Lemma collect_pops n q : Forall (λ a, is_pop a = true) (collect n q).2.
Proof.
  eapply Forall_impl; [apply collect_gets|].
  by intros a (timeout & got & ->).
Qed.

Lemma normal_pass_shape env tss cpu clk w :
  let w' := (normal_pass env tss cpu clk w).1 in
  let n := Z.to_nat (get_adaptive_batch_size cpu (Z.of_nat (length (queue w)))) in
  let batch := take n (queue w) in
  let pops := (collect n (queue w)).2 in
  queue w' = drop n (queue w)
  ∧ match batch with
    | [] =>
        db w' = db w ∧ trace w' = trace w ++ pops
        ∧ delay_stats w' = delay_stats w
    | _ :: _ =>
        db w' = apply_batch env clk (classify env tss batch).1
                  (classify env tss batch).2 (db w)
        ∧ trace w' =
            trace w ++ pops ++
            batch_calls (classify env tss batch).1 (classify env tss batch).2
        ∧ delay_stats w' =
            record_delays (now_tick clk) 0 batch (delay_stats w)
    end.
Proof.
  intros w' n batch pops. subst w' pops. unfold normal_pass. fold n.
  pose proof (collect_spec n (queue w)) as E.
  destruct (collect n (queue w)) as [[b rest] gets]. simpl in E.
  injection E as -> ->. fold batch.
  destruct batch; [done|]. by destruct (classify _ _ _).
Qed.

Lemma emergency_pass_shape env tss cpu clk w :
  2000 < Z.of_nat (length (queue w)) ->
  let r := database_worker_pass env tss cpu clk w in
  let batch := take 300 (queue w) in
  r.2 = EmergencyContinue
  ∧ queue r.1 = drop 300 (queue w)
  ∧ db r.1 = apply_batch env clk (classify env tss batch).1
               (classify env tss batch).2 (db (ensure_conn w))
  ∧ trace r.1 =
      trace w ++ replicate 300 GetNowait ++
      batch_calls (classify env tss batch).1 (classify env tss batch).2
  ∧ delay_stats r.1 = delay_stats w.
Proof.
  intros Hlen r batch. subst r. unfold database_worker_pass.
  rewrite ensure_conn_queue, decide_True by done.
  rewrite drain_spec. fold batch.
  assert (Hb : length batch = 300%nat) by (subst batch; rewrite length_take; lia).
  destruct batch as [|t batch]; [done|].
  destruct (classify env tss (t :: batch)) as [sps zs]. simpl.
  rewrite ensure_conn_trace, ensure_conn_delay_stats.
  split_and!; try done.
  rewrite <- app_assoc. do 2 f_equal.
  simpl in Hb. injection Hb as ->. done.
Qed.

Lemma pass_shape env tss cpu clk w :
  let w' := (database_worker_pass env tss cpu clk w).1 in
  let batch := popped w w' in
  ∃ pops,
    Forall (λ a, is_pop a = true) pops
    ∧ match batch with
      | [] =>
          rows (db w') = rows (db w) ∧ new_actions w w' = pops
          ∧ delay_stats w' = delay_stats w
      | _ :: _ =>
          db w' = apply_batch env clk (classify env tss batch).1
                    (classify env tss batch).2 (db (ensure_conn w))
          ∧ new_actions w w' =
              pops ++
              batch_calls (classify env tss batch).1 (classify env tss batch).2
          ∧ (delay_stats w' = delay_stats w
             ∨ delay_stats w' =
                 record_delays (now_tick clk) 0 batch (delay_stats w))
      end.
Proof.
  intros w' batch.
  destruct (decide (2000 < Z.of_nat (length (queue w)))) as [Hbig|Hsmall].
  - destruct (emergency_pass_shape env tss cpu clk w Hbig)
      as (_ & Hq & Hdb & Htr & Hst).
    fold w' in Hq, Hdb, Htr, Hst.
    assert (Hb : batch = take 300 (queue w))
      by (by apply (popped_take 300 (queue w))).
    assert (Hlen : length batch = 300%nat) by (rewrite Hb, length_take; lia).
    exists (replicate 300 GetNowait). split.
    { apply Forall_forall. by intros a [-> _]%elem_of_replicate. }
    rewrite Hb in *. destruct (take 300 (queue w)); [done|].
    split_and!; [done| |by left].
    apply new_actions_app. by rewrite Htr.
  - subst w' batch. rewrite pass_normal by lia.
    pose proof (normal_pass_shape env tss cpu clk (ensure_conn w)) as H.
    simpl in H. rewrite !ensure_conn_queue in H. destruct H as [Hq H].
    set (n := Z.to_nat (get_adaptive_batch_size cpu
                          (Z.of_nat (length (queue w))))) in *.
    rewrite (popped_take n (queue w)) by done.
    exists (collect n (queue w)).2. split; [apply collect_pops|].
    rewrite ensure_conn_delay_stats, ensure_conn_trace in H.
    destruct (take n (queue w)).
    + destruct H as (-> & Htr & ->). rewrite ensure_conn_rows.
      split_and!; [done| |done]. by apply new_actions_app.
    + destruct H as (-> & Htr & ->).
      split_and!; [done| |by right]. by apply new_actions_app.
Qed.



(** *** Resolution of a batch *)


Lemma classify_contract_from env tss batch z :
  z ∈ (classify env tss batch).2 ->
  ∃ t, t ∈ batch ∧ resolve env tss t = Contract z.
Proof.
  induction batch as [|t0 batch IH]; simpl.
  - by intros ?%elem_of_nil.
  - destruct (classify env tss batch) as [sps zs] eqn:E. simpl in IH.
    destruct (resolve env tss t0) as [s|z0|] eqn:Hres; simpl; intros Hin.
    + destruct (IH Hin) as (t & ? & ?). eauto using list_elem_of_further.
    + apply elem_of_cons in Hin as [->|Hin].
      * eauto using list_elem_of_here.
      * destruct (IH Hin) as (t & ? & ?). eauto using list_elem_of_further.
    + destruct (IH Hin) as (t & ? & ?). eauto using list_elem_of_further.
Qed.


Lemma find_spot_Some env tss tok ts :
  find_spot env tss tok = Some ts -> ts ∈ tss ∧ spot_token env ts = Some tok.
Proof.
  unfold find_spot. intros [Hin Hb]%List.find_some.
  split; [by apply list_elem_of_In|]. by apply bool_decide_eq_true in Hb.
Qed.

Lemma find_spot_tracked env tss tok ts :
  ts ∈ tss -> spot_token env ts = Some tok ->
  ∃ ts', find_spot env tss tok = Some ts'.
Proof.
  intros Hin Htok.
  destruct (find_spot env tss tok) as [ts'|] eqn:E; [eauto|].
  unfold find_spot in E.
  apply list_elem_of_In in Hin.
  apply (List.find_none _ _ E ts) in Hin.
  by apply bool_decide_eq_false in Hin.
Qed.

(** *** The row of a spot symbol *)














(** *** Delay statistics *)












(** ** Adaptive batching *)

Example timeout_tiers :
  map get_adaptive_timeout [200; 201; 500; 501; 1000; 1001; 2500]
  = [3 # 10; 2 # 10; 2 # 10; 1 # 10; 1 # 10; 5 # 100; 5 # 100].
Proof. reflexivity. Qed.

Example batch_size_tiers_low_cpu :
  map (get_adaptive_batch_size 10%Q) [100; 101; 201; 501; 1001; 2001]
  = [50; 35; 50; 75; 100; 150].
Proof. reflexivity. Qed.

Example batch_size_by_cpu :
  map (λ cpu, get_adaptive_batch_size cpu 50) [60%Q; 61%Q; 80%Q; 81%Q]
  = [50; 35; 35; 25].
Proof. reflexivity. Qed.

Lemma get_adaptive_timeout_antitone d1 d2 :
  d1 <= d2 -> (get_adaptive_timeout d2 <= get_adaptive_timeout d1)%Q.
Proof.
  intros Hle. unfold get_adaptive_timeout.
  repeat case_decide; try lia; by unfold Qle.
Qed.

Lemma get_adaptive_batch_size_monotone cpu d1 d2 :
  d1 <= d2 -> 100 < d1 ∨ (60 < cpu)%Q ->
  get_adaptive_batch_size cpu d1 <= get_adaptive_batch_size cpu d2.
Proof.
  intros Hle Hcase. unfold get_adaptive_batch_size.
  repeat case_decide; try lia.
  all: destruct (Qlt_le_dec 80 cpu); try lia.
  all: destruct (Qlt_le_dec 60 cpu) as [?|Hcpu]; try lia.
  all: destruct Hcase as [?|Hlt]; [lia|].
  all: by apply Qlt_not_le in Hlt.
Qed.

(** C3 (as amended). The pop timeout does not grow with the queue depth;
    the target batch size does not shrink with it from depth 101 on, or at
    any depth when the CPU load is above 60 %; depth 1500 gives timeout
    0.05 s and batch size 100, depth 2500 gives timeout 0.05 s and batch
    size 150, and a pass that finds 2500 ticks is an emergency pass. *)
Theorem adaptive_tiers env tss clk w cpu d1 d2 :
  d1 <= d2 ->
  (get_adaptive_timeout d2 <= get_adaptive_timeout d1)%Q
  ∧ (100 < d1 ∨ (60 < cpu)%Q ->
     get_adaptive_batch_size cpu d1 <= get_adaptive_batch_size cpu d2)
  ∧ get_adaptive_timeout 1500 = 5 # 100
  ∧ get_adaptive_batch_size cpu 1500 = 100
  ∧ get_adaptive_timeout 2500 = 5 # 100
  ∧ get_adaptive_batch_size cpu 2500 = 150
  ∧ (length (queue w) = 2500%nat ->
     (database_worker_pass env tss cpu clk w).2 = EmergencyContinue).
Proof.
  intros Hle. split_and!; try done.
  - by apply get_adaptive_timeout_antitone.
  - by apply get_adaptive_batch_size_monotone.
  - intros Hlen.
    apply (emergency_pass_shape env tss cpu clk w). rewrite Hlen. lia.
Qed.

Lemma adaptive_tiers_witness :
  150 <= 1500
  ∧ (get_adaptive_timeout 1500 <= get_adaptive_timeout 150)%Q
  ∧ get_adaptive_batch_size 10%Q 150 <= get_adaptive_batch_size 10%Q 1500
  ∧ (database_worker_pass env_ex ["NIFTY"] 10%Q clock_ex
       (worker_backlog 2500)).2 = EmergencyContinue.
Proof.
  assert (H : 150 <= 1500) by lia.
  assert (H1 : 100 < 150 ∨ (60 < 10)%Q) by (left; lia).
  assert (H2 : length (queue (worker_backlog 2500)) = 2500%nat)
    by (vm_compute; reflexivity).
  destruct (adaptive_tiers env_ex ["NIFTY"] clock_ex (worker_backlog 2500)
              10%Q 150 1500 H) as (Ht & Hb & _ & _ & _ & _ & He).
  split_and!; [exact H|exact Ht|exact (Hb H1)|exact (He H2)].
Defined.

(** C3 (counterexample). At depth 1500 the timeout is 0.05 s, not 0.1 s;
    and with a CPU load of at most 60 % the batch size drops from 50 at
    depth 100 to 35 at depth 101. *)
Lemma adaptive_tiers_as_claimed_fail :
  ¬ (get_adaptive_timeout 1500 == 1 # 10)%Q
  ∧ ¬ (∀ cpu d1 d2, d1 <= d2 ->
         get_adaptive_batch_size cpu d1 <= get_adaptive_batch_size cpu d2).
Proof.
  split.
  - vm_compute. discriminate.
  - intros H. specialize (H 10%Q 100 101). vm_compute in H.
    apply H; [discriminate|reflexivity].
Qed.

(** ** The feed session *)

Lemma zerodha_on_error_spec code s :
  let r := zerodha_on_error code s in
  if normal_closure code || bool_decide (MAX_RECONNECTS <= reconnect_attempts s)
  then r.2 = [] ∧ reconnect_attempts r.1 = reconnect_attempts s
  else r.2 = [Sleep 5; RunZerodhaWebsocket ErrorHandler]
       ∧ reconnect_attempts r.1 = reconnect_attempts s + 1.
Proof.
  unfold zerodha_on_error, normal_closure. simpl.
  destruct (decide (code = 1000 ∨ code = 1001)) as [Hn|Hn].
  - by rewrite bool_decide_eq_true_2.
  - rewrite (bool_decide_eq_false_2 _ Hn). simpl.
    case_decide as Hmax.
    + by rewrite bool_decide_eq_true_2.
    + by rewrite bool_decide_eq_false_2.
Qed.

Lemma supervise_errors codes s :
  0 <= reconnect_attempts s <= MAX_RECONNECTS ->
  let r := supervise (map OnError codes) s in
  Z.of_nat (length (reconnects r.2)) =
    Z.min (MAX_RECONNECTS - reconnect_attempts s)
          (Z.of_nat (length (abnormal codes)))
  ∧ reconnect_attempts r.1 =
      Z.min MAX_RECONNECTS
            (reconnect_attempts s + Z.of_nat (length (abnormal codes)))
  ∧ Forall (λ a, is_handler_reconnect a = true) (reconnects r.2).
Proof.
  revert s. induction codes as [|code codes IH]; intros s Hs; simpl.
  - split_and!; [lia|lia|constructor].
  - pose proof (zerodha_on_error_spec code s) as Hstep. simpl in Hstep.
    destruct (zerodha_on_error code s) as [s1 acts1]. simpl in Hstep.
    unfold abnormal in *. simpl.
    destruct (normal_closure code) eqn:Hn; simpl in *.
    + destruct Hstep as [-> Hs1].
      destruct (IH s1) as (IH1 & IH2 & IH3); [lia|].
      destruct (supervise (map OnError codes) s1) as [s2 acts2].
      simpl in *. rewrite Hs1 in *. done.
    + case_bool_decide as Hmax; simpl in *.
      * destruct Hstep as [-> Hs1].
        destruct (IH s1) as (IH1 & IH2 & IH3); [lia|].
        destruct (supervise (map OnError codes) s1) as [s2 acts2].
        simpl in *. rewrite Hs1 in *. split_and!; [lia|lia|done].
      * destruct Hstep as [-> Hs1].
        destruct (IH s1) as (IH1 & IH2 & IH3); [lia|].
        destruct (supervise (map OnError codes) s1) as [s2 acts2].
        simpl in *. rewrite Hs1 in *.
        split_and!; [lia|lia|by constructor].
Qed.

(** C2 (as amended). Counting from the start of the process, the error
    callback reconnects on each of the first [MAX_RECONNECTS] error codes
    that are not normal closures and on none after them (the counter is
    never reset, so the errors need not be consecutive): once ten such
    errors have been seen, every further callback returns without
    reconnecting and leaves the counter at ten.  The loop of [main] does
    not consult the counter: whenever the session returns and the shutdown
    event is not set, it waits two seconds and runs the session again. *)
Theorem reconnect_budget codes code s0 :
  let r := supervise (map OnError codes) supervisor_init in
  let errors := Z.of_nat (length (abnormal codes)) in
  Z.of_nat (length (reconnects r.2)) = Z.min MAX_RECONNECTS errors
  ∧ Forall (λ a, is_handler_reconnect a = true) (reconnects r.2)
  ∧ reconnect_attempts r.1 = Z.min MAX_RECONNECTS errors
  ∧ (MAX_RECONNECTS <= errors ->
     (zerodha_on_error code r.1).2 = []
     ∧ reconnect_attempts (zerodha_on_error code r.1).1 = MAX_RECONNECTS)
  ∧ (main_loop false s0).2 = [Sleep 2; RunZerodhaWebsocket MainLoop].
Proof.
  intros r errors.
  destruct (supervise_errors codes supervisor_init) as (H1 & H2 & H3);
    [by compute|].
  fold r in H1, H2, H3. fold errors in H1, H2. simpl in H1, H2.
  split_and!; [lia|done|lia| |done].
  intros Hmax.
  pose proof (zerodha_on_error_spec code r.1) as Hstep. simpl in Hstep.
  rewrite (bool_decide_eq_true_2 (MAX_RECONNECTS <= reconnect_attempts r.1))
    in Hstep by lia.
  rewrite orb_true_r in Hstep. destruct Hstep as [-> ->]. split; [done|lia].
Qed.

Lemma reconnect_budget_witness :
  let r := supervise (map OnError (replicate 12 1006)) supervisor_init in
  MAX_RECONNECTS <= Z.of_nat (length (abnormal (replicate 12 1006)))
  ∧ (zerodha_on_error 1006 r.1).2 = []
  ∧ reconnect_attempts (zerodha_on_error 1006 r.1).1 = MAX_RECONNECTS.
Proof.
  intros r.
  assert (H : MAX_RECONNECTS <= Z.of_nat (length (abnormal (replicate 12 1006))))
    by (vm_compute; discriminate).
  split; [exact H|].
  exact (proj1 (proj2 (proj2 (proj2
    (reconnect_budget (replicate 12 1006) 1006 supervisor_init)))) H).
Defined.

(** Ten abnormal errors use the budget up; the eleventh callback does
    nothing, and the end of the session makes [main] start it again. *)
Example after_ten_errors :
  let s := (supervise (map OnError (replicate 10 1006)) supervisor_init).1 in
  reconnect_attempts s = 10
  ∧ (supervise [OnError 1006; SessionEnded false] s).2
    = [Sleep 2; RunZerodhaWebsocket MainLoop].
Proof. vm_compute. done. Qed.

(** C2 (counterexample). With the retry budget used up, the end of the
    session still makes [main] run the session again. *)
Lemma main_loop_restarts_after_budget :
  ¬ (∀ events s,
       MAX_RECONNECTS <= reconnect_attempts s ->
       reconnects (supervise events s).2 = []).
Proof.
  intros H.
  specialize (H [OnError 1006; SessionEnded false]
                (supervise (map OnError (replicate 10 1006)) supervisor_init).1).
  vm_compute in H. discriminate H. discriminate.
Qed.

(** ** The bootstrap of the table *)

Lemma populate_one_other env ts e st entry s :
  s ≠ entry.1 -> rows (populate_one env ts e st entry) !! s = rows st !! s.
Proof.
  intros Hne. unfold populate_one.
  case_decide; [|done].
  destruct (token_of_symbol _ _); [|done].
  case_decide; [done|]. simpl.
  rewrite lookup_insert_on_conflict. by rewrite decide_False.
Qed.

Lemma populate_fold_other env ts e l st s :
  s ∉ l.*1 -> rows (foldl (populate_one env ts e) st l) !! s = rows st !! s.
Proof.
  revert st. induction l as [|entry l IH]; intros st Hnin; simpl; [done|].
  apply not_elem_of_cons in Hnin as [Hne Hnin].
  rewrite IH by done. by apply populate_one_other.
Qed.





Example populate_env_stale :
  let st' := store_of (populate_initial_instruments env_stale "NIFTY" true
                         store_empty) in
  journal st' = [OpExecute InsertInitial "NIFTY24DEC24000CE"; OpCommit]
  ∧ rows st' !! "NIFTY24NOV23000CE" = None.
Proof. vm_compute. done. Qed.


(** * Further properties *)

(** ** The sink: frame, rows kept, short lists *)

Lemma rows_execute_bulk_upserts_other bulk s st :
  s ∉ map (λ x, x.1.1.1) bulk ->
  rows (execute_bulk_upserts bulk st) !! s = rows st !! s.
Proof.
  unfold execute_bulk_upserts. revert st.
  induction bulk as [|[[[s0 p] ts] e] bulk IH]; intros st Hnin; simpl; [done|].
  simpl in Hnin. apply not_elem_of_cons in Hnin as [Hne Hnin].
  rewrite IH by done. simpl.
  rewrite lookup_insert_on_conflict. by rewrite decide_False.
Qed.

Lemma lookup_bulk_derived_other syms s (t : gmap string row) :
  s ∉ syms -> foldl (λ t s, update_derived s t) t syms !! s = t !! s.
Proof. intros Hnin. rewrite lookup_bulk_derived. by rewrite decide_False. Qed.

Lemma not_elem_of_twice (s x : string) : s ∉ [x; x] -> s ≠ x.
Proof. intros Hnin ->. apply Hnin, list_elem_of_here. Qed.

(** What a bulk call has done, whether it returned or raised. *)
Lemma upsert_price_bulk_cases env now syms ps etss src conn st :
  let res := upsert_price_bulk env now syms ps etss src conn st in
  (∃ st', res = Raised st' ∧ rows st' = rows st
          ∧ touched (added st st') = []
          ∧ syms ≠ [] ∧ lower src = "zerodha"
          ∧ bulk_data 0 syms ps
              (imap (λ i ets, stamp ets (now i)) etss)
              (map (bulk_expiry env) syms) = None)
  ∨ (∃ st', res = Returned st' ∧ rows st' = rows st
            ∧ touched (added st st') = []
            ∧ (syms = [] ∨ lower src ≠ "zerodha"))
  ∨ (∃ st' bulk, res = Returned st'
       ∧ syms ≠ [] ∧ lower src = "zerodha"
       ∧ bulk_data 0 syms ps
           (imap (λ i ets, stamp ets (now i)) etss)
           (map (bulk_expiry env) syms) = Some bulk
       ∧ touched (added st st') = syms ++ syms
       ∧ rows st' =
           foldl (λ t s, update_derived s t)
                 (rows (execute_bulk_upserts bulk (open_conn conn st))) syms).
Proof.
  intros res. subst res. unfold upsert_price_bulk.
  destruct syms as [|s syms].
  { right. left. exists st. split_and!; try done.
    - unfold added. by rewrite drop_all.
    - by left. }
  case_decide as Hsrc.
  - destruct (bulk_data _ _ _ _ _) as [bulk|] eqn:Hbulk.
    + right. right. eexists _, bulk. split_and!; try done.
      * erewrite added_app.
        2:{ rewrite journal_close_conn, journal_log.
            rewrite (journal_execute_bulk_derived (s :: syms)),
              journal_execute_bulk_upserts, journal_open_conn, <- !app_assoc.
            reflexivity. }
        rewrite !touched_app, touched_open, touched_close.
        rewrite touched_bulk_upserts, touched_executes.
        rewrite (bulk_data_symbols _ _ _ _ _ _ Hbulk). simpl.
        by rewrite app_nil_r.
      * rows_simpl. by rewrite (rows_execute_bulk_derived (s :: syms)).
    + left. eexists. split_and!; try done.
      * by rows_simpl.
      * erewrite added_app.
        2:{ rewrite journal_close_conn, journal_log, journal_open_conn,
              <- !app_assoc. reflexivity. }
        by rewrite !touched_app, touched_open, touched_close.
  - right. left. eexists. split_and!; try done.
    + by rows_simpl.
    + erewrite added_app.
      2:{ rewrite journal_close_conn, journal_log, journal_open_conn,
            <- !app_assoc. reflexivity. }
      by rewrite !touched_app, touched_open, touched_close.
    + by right.
Qed.

(** X1. A call of the sink changes no row but those of the symbols that its
    statements name, whether it returns or raises. *)
Theorem sink_frame env c st sym :
  sym ∉ touched (added st (store_of (run_sink env c st))) ->
  rows (store_of (run_sink env c st)) !! sym = rows st !! sym.
Proof.
  destruct c as [now s p tsym src conn tok ets
                |now syms ps etss src conn
                |now s p tsym src conn ets]; simpl.
  - rewrite upsert_price_touched. intros Hne%not_elem_of_twice.
    rewrite upsert_price_rows. simpl.
    rewrite lookup_update_derived, decide_False by done.
    by rewrite lookup_insert_on_conflict, decide_False.
  - destruct (upsert_price_bulk_cases env now syms ps etss src conn st)
      as [(st' & -> & Hrows & _)|[(st' & -> & Hrows & _)
         |(st' & bulk & -> & _ & _ & Hbulk & Ht & Hrows)]]; simpl.
    + by rewrite Hrows.
    + by rewrite Hrows.
    + rewrite Ht, Hrows.
      intros Hnin. apply not_elem_of_app in Hnin as [Hnin _].
      rewrite lookup_bulk_derived_other by done.
      rewrite rows_execute_bulk_upserts_other; [by rows_simpl|].
      by rewrite (bulk_data_symbols _ _ _ _ _ _ Hbulk).
  - rewrite upsert_spot_price_touched. intros Hne%not_elem_of_twice.
    rewrite upsert_spot_price_rows.
    rewrite lookup_update_derived, decide_False by done.
    by rewrite lookup_insert_on_conflict, decide_False.
Qed.

Lemma sink_frame_witness :
  ("NIFTY24DEC24000PE"
     ∉ touched (added store_empty
                  (store_of (run_sink env_ex bulk_call_ex store_empty))))
  ∧ rows (store_of (run_sink env_ex bulk_call_ex store_empty))
      !! "NIFTY24DEC24000PE"
    = rows store_empty !! "NIFTY24DEC24000PE".
Proof.
  assert (H : "NIFTY24DEC24000PE"
                ∉ touched (added store_empty
                     (store_of (run_sink env_ex bulk_call_ex store_empty))))
    by (apply (bool_decide_unpack _); vm_compute; exact I).
  split; [exact H|].
  exact (sink_frame env_ex bulk_call_ex store_empty "NIFTY24DEC24000PE" H).
Defined.

(** *** Rows that are kept *)

Section Kept.
Context (R : row -> row -> Prop).
Hypothesis R_refl : ∀ r, R r r.
Hypothesis R_trans : ∀ r1 r2 r3, R r1 r2 -> R r2 r3 -> R r1 r3.

Lemma rows_kept_refl (t : gmap string row) : rows_kept R t t.
Proof. intros k r Hr. eauto. Qed.

Lemma rows_kept_trans (t1 t2 t3 : gmap string row) :
  rows_kept R t1 t2 -> rows_kept R t2 t3 -> rows_kept R t1 t3.
Proof.
  intros H12 H23 k r Hr.
  destruct (H12 k r Hr) as (r2 & Hr2 & HR2).
  destruct (H23 k r2 Hr2) as (r3 & Hr3 & HR3). eauto.
Qed.

Lemma rows_kept_insert_on_conflict s ins upd (t : gmap string row) :
  (∀ r, R r (upd r)) -> rows_kept R t (insert_on_conflict s ins upd t).
Proof.
  intros Hupd k r Hr. rewrite lookup_insert_on_conflict.
  case_decide; [|eauto]. subst k. rewrite Hr. simpl. eauto.
Qed.

Lemma rows_kept_update_derived s (t : gmap string row) :
  (∀ r, R r (set_derived r)) -> rows_kept R t (update_derived s t).
Proof.
  intros Hder k r Hr. rewrite lookup_update_derived.
  case_decide; [|eauto]. subst k. rewrite Hr. simpl.
  eexists. split; [done|]. unfold derive. destruct (zerodha_price r); auto.
Qed.

Lemma rows_kept_bulk_derived syms (t : gmap string row) :
  (∀ r, R r (set_derived r)) ->
  rows_kept R t (foldl (λ t s, update_derived s t) t syms).
Proof.
  intros Hder. revert t.
  induction syms as [|s syms IH]; intros t; simpl; [apply rows_kept_refl|].
  eapply rows_kept_trans; [|apply IH]. by apply rows_kept_update_derived.
Qed.

Lemma rows_kept_bulk_upserts bulk st :
  (∀ p ts e r, R r (set_zerodha_bulk p ts e r)) ->
  rows_kept R (rows st) (rows (execute_bulk_upserts bulk st)).
Proof.
  intros Hupd. unfold execute_bulk_upserts. revert st.
  induction bulk as [|[[[s p] ts] e] bulk IH]; intros st; simpl;
    [apply rows_kept_refl|].
  eapply rows_kept_trans; [|apply IH]. simpl.
  apply rows_kept_insert_on_conflict. auto.
Qed.

Lemma rows_kept_upsert_price_bulk env now syms ps etss src conn st :
  (∀ r, R r (set_derived r)) ->
  (∀ p ts e r, R r (set_zerodha_bulk p ts e r)) ->
  rows_kept R (rows st)
    (rows (store_of (upsert_price_bulk env now syms ps etss src conn st))).
Proof.
  intros Hder Hupd.
  destruct (upsert_price_bulk_cases env now syms ps etss src conn st)
    as [(st' & -> & Hrows & _)|[(st' & -> & Hrows & _)
       |(st' & bulk & -> & _ & _ & _ & _ & Hrows)]]; simpl; rewrite Hrows;
    try apply rows_kept_refl.
  eapply rows_kept_trans; [|by apply rows_kept_bulk_derived].
  rewrite <- (rows_open_conn conn st). by apply rows_kept_bulk_upserts.
Qed.

Lemma rows_kept_upsert_spot_price env now s p tsym src conn ets st :
  (∀ r, R r (set_derived r)) ->
  (∀ p ts tsym src e r, R r (set_spot p ts tsym src e r)) ->
  rows_kept R (rows st)
    (rows (upsert_spot_price env now s p tsym src conn ets st)).
Proof.
  intros Hder Hupd. rewrite upsert_spot_price_rows.
  eapply rows_kept_trans; [|by apply rows_kept_update_derived].
  apply rows_kept_insert_on_conflict. auto.
Qed.

Lemma rows_kept_upsert_price env now s p tsym src conn tok ets st :
  (∀ r, R r (set_derived r)) ->
  (∀ p ts tok e r, R r (set_zerodha p ts tok e r)) ->
  (∀ p ts tok e r, R r (set_common p ts tok e r)) ->
  rows_kept R (rows st)
    (rows (upsert_price env now s p tsym src conn tok ets st)).
Proof.
  intros Hder Hz Hc. rewrite upsert_price_rows. simpl.
  eapply rows_kept_trans; [|by apply rows_kept_update_derived].
  apply rows_kept_insert_on_conflict. unfold upsert_assignment.
  case_decide; auto.
Qed.

Lemma rows_kept_populate env ts conn st :
  (∀ tsym k ot tok e r, R r (set_initial tsym k ot tok e r)) ->
  rows_kept R (rows st)
    (rows (store_of (populate_initial_instruments env ts conn st))).
Proof.
  intros Hupd. unfold populate_initial_instruments.
  destruct (nearest_expiry_dates env !! ts) as [e|]; simpl.
  2:{ rows_simpl. apply rows_kept_refl. }
  rows_simpl. rewrite <- (rows_open_conn conn st).
  generalize (open_conn conn st) as st0.
  induction (kite_instrument_details env) as [|entry l IH]; intros st0; simpl;
    [apply rows_kept_refl|].
  eapply rows_kept_trans; [|apply IH].
  unfold populate_one. case_decide; [|apply rows_kept_refl].
  destruct (token_of_symbol _ _); [|apply rows_kept_refl].
  case_decide; [apply rows_kept_refl|]. simpl.
  apply rows_kept_insert_on_conflict. auto.
Qed.

End Kept.

Lemma same_strike_refl r : same_strike r r.
Proof. done. Qed.

Lemma same_strike_trans r1 r2 r3 :
  same_strike r1 r2 -> same_strike r2 r3 -> same_strike r1 r3.
Proof. unfold same_strike. intros (? & ?) (? & ?). split; congruence. Qed.

Lemma same_labels_refl r : same_labels r r.
Proof. done. Qed.

Lemma same_labels_trans r1 r2 r3 :
  same_labels r1 r2 -> same_labels r2 r3 -> same_labels r1 r3.
Proof.
  unfold same_labels. intros (? & ? & ? & ?) (? & ? & ? & ?).
  split_and!; congruence.
Qed.

Lemma same_contract_refl r : same_contract r r.
Proof. done. Qed.

Lemma same_contract_trans r1 r2 r3 :
  same_contract r1 r2 -> same_contract r2 r3 -> same_contract r1 r3.
Proof.
  unfold same_contract. intros (? & ? & ?) (? & ? & ?). split_and!; congruence.
Qed.

Lemma same_prices_refl r : same_prices r r.
Proof. done. Qed.

Lemma same_prices_trans r1 r2 r3 :
  same_prices r1 r2 -> same_prices r2 r3 -> same_prices r1 r3.
Proof.
  unfold same_prices. intros (? & ? & ? & ? & ?) (? & ? & ? & ? & ?).
  split_and!; congruence.
Qed.

(** The side conditions of the [rows_kept] lemmas: the relation is a
    preorder and the assignment lists do not name its columns. *)
Ltac kept_side :=
  first [exact same_strike_refl | exact same_strike_trans
        |exact same_labels_refl | exact same_labels_trans
        |exact same_contract_refl | exact same_contract_trans
        |exact same_prices_refl | exact same_prices_trans
        |by (intros; hnf; simpl; split_and!)].

(** X2. No call of the sink deletes a row or changes its [strike_price] or
    [option_type]; [upsert_price] and [upsert_price_bulk] leave
    [trade_symbol] and [source] as they are as well, and [upsert_price_bulk]
    and [upsert_spot_price] leave [instrument_token] as it is. *)
Theorem sink_keeps_rows env c st :
  let t' := rows (store_of (run_sink env c st)) in
  rows_kept same_strike (rows st) t'
  ∧ match c with
    | UpsertSpotPrice _ _ _ _ _ _ _ => True
    | _ => rows_kept same_labels (rows st) t'
    end
  ∧ match c with
    | UpsertPrice _ _ _ _ _ _ _ _ => True
    | _ => rows_kept same_contract (rows st) t'
    end.
Proof.
  destruct c as [now s p tsym src conn tok ets
                |now syms ps etss src conn
                |now s p tsym src conn ets]; simpl; split_and!; try done.
  all: first [apply rows_kept_upsert_price
             |apply rows_kept_upsert_price_bulk
             |apply rows_kept_upsert_spot_price].
  all: kept_side.
Qed.

(** *** Lists that are too short *)

Lemma bulk_data_is_Some i syms (ps : list (option Q)) (tss : list datetime)
    (es : list (option date)) :
  is_Some (bulk_data i syms ps tss es) <->
  syms = [] ∨ ((i + length syms <= length ps)%nat
               ∧ (i + length syms <= length tss)%nat
               ∧ (i + length syms <= length es)%nat).
Proof.
  revert i. induction syms as [|s syms IH]; intros i; simpl.
  - split; [by left|eauto].
  - specialize (IH (S i)).
    destruct (ps !! i) as [p|] eqn:Hp; simpl.
    2:{ apply lookup_ge_None in Hp. split; [by intros [? ?]|].
        intros [?|(? & ? & ?)]; [done|lia]. }
    destruct (tss !! i) as [ts|] eqn:Hts; simpl.
    2:{ apply lookup_ge_None in Hts. split; [by intros [? ?]|].
        intros [?|(? & ? & ?)]; [done|lia]. }
    destruct (es !! i) as [e|] eqn:He; simpl.
    2:{ apply lookup_ge_None in He. split; [by intros [? ?]|].
        intros [?|(? & ? & ?)]; [done|lia]. }
    apply lookup_lt_Some in Hp, Hts, He.
    destruct (bulk_data (S i) syms ps tss es) as [tl|]; simpl.
    + split; [|eauto]. intros _. right.
      destruct IH as [[->|(? & ? & ?)] _]; [eauto|simpl; lia|lia].
    + split; [by intros [? ?]|].
      intros [?|(? & ? & ?)]; [done|].
      destruct IH as [_ IH]. destruct IH as [? ?]; [|done].
      right. lia.
Qed.

(** X3. For a non-empty symbol list and source zerodha, [upsert_price_bulk]
    raises (IndexError) exactly when [prices] or [exchange_timestamps] is
    shorter than [kite_symbols]; it then leaves every row as it was,
    executes no statement and does not commit, but rolls back. *)
Theorem upsert_price_bulk_short_lists env now syms ps etss src conn st :
  syms ≠ [] ->
  lower src = "zerodha" ->
  let res := upsert_price_bulk env now syms ps etss src conn st in
  ((length ps < length syms)%nat ∨ (length etss < length syms)%nat <->
   ∃ st', res = Raised st')
  ∧ (∀ st', res = Raised st' ->
       rows st' = rows st
       ∧ touched (added st st') = []
       ∧ (OpCommit ∉ added st st')
       ∧ OpRollback ∈ added st st').
Proof.
  intros Hne Hsrc res. subst res. unfold upsert_price_bulk.
  destruct syms as [|s syms]; [done|]. rewrite decide_True by done.
  pose proof (bulk_data_is_Some 0 (s :: syms) ps
                (imap (λ i ets, stamp ets (now i)) etss)
                (map (bulk_expiry env) (s :: syms))) as Hsome.
  rewrite length_imap, length_map in Hsome.
  destruct (bulk_data _ _ _ _ _) as [bulk|].
  - split.
    + split; [|by intros (? & ?)].
      destruct Hsome as [[?|(? & ? & _)] _]; [eauto|done|lia].
    + by intros st'.
  - split.
    + split; [eauto|]. intros _.
      destruct (decide (length ps < length (s :: syms))%nat); [by left|].
      destruct (decide (length etss < length (s :: syms))%nat); [by right|].
      destruct Hsome as [_ Hsome]. destruct Hsome as [? ?]; [|done].
      right. simpl in *. lia.
    + intros st' [= <-]. rows_simpl. split; [done|].
      erewrite added_app.
      2:{ rewrite journal_close_conn, journal_log, journal_open_conn,
            <- !app_assoc. reflexivity. }
      rewrite !touched_app, touched_open, touched_close.
      split_and!; [done| |].
      * destruct conn; simpl; intros H;
          repeat (apply elem_of_cons in H as [H|H]; [done|]);
          by apply elem_of_nil in H.
      * destruct conn; simpl; eauto using list_elem_of_here,
          list_elem_of_further.
Qed.

Lemma upsert_price_bulk_short_lists_witness :
  let res := upsert_price_bulk env_ex (λ _, 0)
               ["NIFTY24DEC24000CE"; "NIFTY24DEC24000PE"] [Some 100%Q]
               [None; None] "zerodha" true store_empty in
  ["NIFTY24DEC24000CE"; "NIFTY24DEC24000PE"] ≠ []
  ∧ lower "zerodha" = "zerodha"
  ∧ res = Raised (store_of res)
  ∧ rows (store_of res) = rows store_empty
  ∧ OpRollback ∈ added store_empty (store_of res).
Proof.
  intros res.
  assert (H1 : ["NIFTY24DEC24000CE"; "NIFTY24DEC24000PE"] ≠ []) by done.
  assert (H2 : lower "zerodha" = "zerodha") by reflexivity.
  assert (H3 : res = Raised (store_of res)) by (vm_compute; reflexivity).
  destruct (upsert_price_bulk_short_lists env_ex (λ _, 0)
              ["NIFTY24DEC24000CE"; "NIFTY24DEC24000PE"] [Some 100%Q]
              [None; None] "zerodha" true store_empty H1 H2) as [_ H].
  destruct (H (store_of res) H3) as (Hrows & _ & _ & Hrb).
  split_and!; [exact H1|exact H2|exact H3|exact Hrows|exact Hrb].
Defined.

(** *** The last entry for a symbol wins *)

Lemma set_zerodha_bulk_absorb p ts e p' ts' e' r :
  set_zerodha_bulk p ts e (set_zerodha_bulk p' ts' e' r)
  = set_zerodha_bulk p ts e r.
Proof. done. Qed.

Lemma rows_execute_bulk_upserts_lookup bulk s st :
  rows (execute_bulk_upserts bulk st) !! s =
    match last_entry s bulk with
    | Some (p, ts, e) =>
        Some (set_zerodha_bulk p ts e (default null_row (rows st !! s)))
    | None => rows st !! s
    end.
Proof.
  unfold execute_bulk_upserts. revert st.
  induction bulk as [|[[[s0 p0] ts0] e0] bulk IH]; intros st; simpl; [done|].
  rewrite IH. simpl. rewrite lookup_insert_on_conflict.
  destruct (last_entry s bulk) as [[[p ts] e]|].
  - case_decide; [|done]. subst s0.
    by destruct (rows st !! s).
  - case_decide; [|done]. subst s0.
    by destruct (rows st !! s).
Qed.

Lemma bulk_data_lookup i syms ps tss es bulk j s :
  bulk_data i syms ps tss es = Some bulk ->
  syms !! j = Some s ->
  ∃ p ts e,
    ps !! (i + j)%nat = Some p ∧ tss !! (i + j)%nat = Some ts
    ∧ es !! (i + j)%nat = Some e ∧ bulk !! j = Some (s, p, ts, e).
Proof.
  revert i bulk j. induction syms as [|s0 syms IH]; intros i bulk j; simpl;
    [done|].
  destruct (ps !! i) as [p|] eqn:Hp; simpl; [|done].
  destruct (tss !! i) as [ts|] eqn:Hts; simpl; [|done].
  destruct (es !! i) as [e|] eqn:He; simpl; [|done].
  destruct (bulk_data (S i) syms ps tss es) as [tl|] eqn:Htl; simpl; [|done].
  intros [= <-]. destruct j as [|j]; simpl.
  - intros [= <-]. rewrite Nat.add_0_r. eauto 10.
  - intros Hj. destruct (IH (S i) tl j Htl Hj) as (p' & ts' & e' & H).
    replace (i + S j)%nat with (S i + j)%nat by lia. eauto 10.
Qed.

Lemma last_entry_Some_in
    (l : list (string * option Q * datetime * option date)) s :
  is_Some (last_entry s l) -> ∃ j y, l !! j = Some y ∧ y.1.1.1 = s.
Proof.
  induction l as [|[[[s1 p1] ts1] e1] l IHl]; simpl; [by intros [? ?]|].
  destruct (last_entry s l) eqn:E.
  - intros _. destruct IHl as (j & y & ? & ?); [eauto|].
    exists (S j), y. done.
  - case_decide; [|by intros [? ?]]. intros _. exists 0%nat. eexists. done.
Qed.

Lemma last_entry_lookup
    (bulk : list (string * option Q * datetime * option date)) i s p ts e :
  bulk !! i = Some (s, p, ts, e) ->
  (∀ j x, (i < j)%nat -> bulk !! j = Some x -> x.1.1.1 ≠ s) ->
  last_entry s bulk = Some (p, ts, e).
Proof.
  revert i. induction bulk as [|[[[s0 p0] ts0] e0] bulk IH]; intros i; [done|].
  destruct i as [|i]; simpl.
  - intros [= -> -> -> ->] Hlater.
    destruct (last_entry s bulk) as [x|] eqn:Hx.
    + exfalso. destruct (last_entry_Some_in bulk s) as (j & y & Hj & Hy);
        [by rewrite Hx|].
      apply (Hlater (S j) y); [lia|done|done].
    + by rewrite decide_True.
  - intros Hi Hlater. rewrite (IH i Hi); [done|].
    intros j x Hj Hx. apply (Hlater (S j) x); [lia|done].
Qed.

(** The row of a symbol after a bulk call, from its last entry. *)
Lemma upsert_price_bulk_row env now syms ps etss src conn st st' i sym p ets :
  upsert_price_bulk env now syms ps etss src conn st = Returned st' ->
  lower src = "zerodha" ->
  syms !! i = Some sym ->
  (∀ j, (i < j)%nat -> syms !! j ≠ Some sym) ->
  ps !! i = Some p ->
  etss !! i = Some ets ->
  rows st' !! sym =
    Some (derive (set_zerodha_bulk p (stamp ets (now i)) (bulk_expiry env sym)
                    (default null_row (rows st !! sym)))).
Proof.
  intros Hret Hsrc Hi Hlast Hp Hets.
  destruct (upsert_price_bulk_cases env now syms ps etss src conn st)
    as [(st1 & H1 & _)|[(st1 & H1 & _ & _ & [->|Hns])
       |(st1 & bulk & H1 & _ & _ & Hbulk & _ & Hrows)]].
  - congruence.
  - done.
  - done.
  - assert (st1 = st') as -> by congruence. clear H1.
    destruct (bulk_data_lookup _ _ _ _ _ _ _ _ Hbulk Hi)
      as (p' & ts' & e' & Hp' & Hts' & He' & Hb).
    simpl in Hp', Hts', He'.
    rewrite Hp in Hp'. injection Hp' as <-.
    rewrite list_lookup_imap, Hets in Hts'. injection Hts' as <-.
    rewrite list_lookup_fmap, Hi in He'. injection He' as <-.
    assert (Hle : last_entry sym bulk =
                  Some (p, stamp ets (now i), bulk_expiry env sym)).
    { apply (last_entry_lookup bulk i); [done|].
      intros j [[[s1 p1] ts1] e1] Hj Hx Heq. simpl in Heq. subst s1.
      apply (Hlast j Hj).
      pose proof (bulk_data_symbols _ _ _ _ _ _ Hbulk) as Hsyms.
      rewrite <- Hsyms, list_lookup_fmap, Hx. done. }
    rewrite Hrows, lookup_bulk_derived.
    rewrite decide_True by (by eapply list_elem_of_lookup_2).
    rewrite rows_execute_bulk_upserts_lookup, Hle. simpl.
    by rows_simpl.
Qed.

(** X4. In a bulk call of source zerodha that returns, the last entry for a
    symbol decides its row: [zerodha_price], [zerodha_timestamp] and
    [expiry_date] are those of that entry, and when its price is not null
    [price] and [timestamp] are too. *)
Theorem bulk_last_write_wins env now syms ps etss src conn st st' i sym p ets :
  upsert_price_bulk env now syms ps etss src conn st = Returned st' ->
  lower src = "zerodha" ->
  syms !! i = Some sym ->
  (∀ j, (i < j)%nat -> syms !! j ≠ Some sym) ->
  ps !! i = Some p ->
  etss !! i = Some ets ->
  ∃ r,
    rows st' !! sym = Some r
    ∧ zerodha_price r = p
    ∧ zerodha_timestamp r = Some (stamp ets (now i))
    ∧ expiry_date r = bulk_expiry env sym
    ∧ (p ≠ None -> price r = p ∧ timestamp r = Some (stamp ets (now i))).
Proof.
  intros Hret Hsrc Hi Hlast Hp Hets.
  rewrite (upsert_price_bulk_row env now syms ps etss src conn st st' i sym p
             ets) by done.
  eexists. split; [reflexivity|].
  unfold derive. simpl. destruct p; simpl; split_and!; try done.
Qed.

Lemma bulk_last_write_wins_witness :
  let st' := store_of (run_sink env_ex two_ticks_call_ex store_empty) in
  upsert_price_bulk env_ex (λ _, 0)
    ["NIFTY24DEC24000CE"; "NIFTY24DEC24000CE"] [Some 100%Q; Some 101%Q]
    [Some 1000000; Some 2000000] "zerodha" true store_empty = Returned st'
  ∧ lower "zerodha" = "zerodha"
  ∧ ∃ r, rows st' !! "NIFTY24DEC24000CE" = Some r
         ∧ zerodha_price r = Some 101%Q
         ∧ zerodha_timestamp r = Some (stamp (Some 2000000) 0)
         ∧ expiry_date r = bulk_expiry env_ex "NIFTY24DEC24000CE"
         ∧ (Some 101%Q ≠ None ->
            price r = Some 101%Q
            ∧ timestamp r = Some (stamp (Some 2000000) 0)).
Proof.
  intros st'.
  assert (H1 : upsert_price_bulk env_ex (λ _, 0)
                 ["NIFTY24DEC24000CE"; "NIFTY24DEC24000CE"]
                 [Some 100%Q; Some 101%Q] [Some 1000000; Some 2000000]
                 "zerodha" true store_empty = Returned st')
    by (vm_compute; reflexivity).
  assert (H2 : lower "zerodha" = "zerodha") by reflexivity.
  split_and!; [exact H1|exact H2|].
  apply (bulk_last_write_wins env_ex (λ _, 0)
           ["NIFTY24DEC24000CE"; "NIFTY24DEC24000CE"] [Some 100%Q; Some 101%Q]
           [Some 1000000; Some 2000000] "zerodha" true store_empty st' 1%nat
           "NIFTY24DEC24000CE" (Some 101%Q) (Some 2000000) H1 H2);
    try reflexivity.
  intros j Hj. destruct j as [|[|j]]; [lia|lia|done].
Defined.

(** ** The bootstrap of the table, continued *)

Lemma dict_get_NoDup {V} (l : list (string * V)) k v :
  NoDup l.*1 -> (k, v) ∈ l -> dict_get k l = Some v.
Proof.
  induction l as [|[k0 v0] l IH]; simpl; intros Hnd Hin.
  - by apply elem_of_nil in Hin.
  - apply NoDup_cons in Hnd as [Hk Hnd].
    apply elem_of_cons in Hin as [[= <- <-]|Hin].
    + by rewrite decide_True.
    + rewrite decide_False; [by apply IH|].
      intros ->. apply Hk. apply list_elem_of_fmap. by exists (k, v).
Qed.

Lemma populate_one_lookup env ts e st sym d :
  rows (populate_one env ts e st (sym, d)) !! sym =
    populate_row env ts e sym d (rows st !! sym).
Proof.
  unfold populate_one, populate_row. simpl.
  case_decide; [|done].
  destruct (token_of_symbol _ _) as [tok|]; [|done].
  case_decide; [done|]. simpl.
  rewrite lookup_insert_on_conflict, decide_True by done. done.
Qed.

Lemma populate_fold_lookup env ts e l st sym d :
  NoDup l.*1 -> (sym, d) ∈ l ->
  rows (foldl (populate_one env ts e) st l) !! sym =
    populate_row env ts e sym d (rows st !! sym).
Proof.
  revert st. induction l as [|[k d0] l IH]; intros st Hnd Hin.
  - by apply elem_of_nil in Hin.
  - simpl in Hnd. apply NoDup_cons in Hnd as [Hk Hnd]. simpl.
    apply elem_of_cons in Hin as [[= <- <-]|Hin].
    + rewrite populate_fold_other by done. apply populate_one_lookup.
    + rewrite IH by done. f_equal. apply populate_one_other. simpl.
      intros ->. apply Hk. apply list_elem_of_fmap. by exists (k, d).
Qed.

Lemma populate_lookup env ts conn st st' sym d :
  populate_initial_instruments env ts conn st = Returned st' ->
  NoDup (kite_instrument_details env).*1 ->
  (sym, d) ∈ kite_instrument_details env ->
  ∃ e, nearest_expiry_dates env !! ts = Some e
       ∧ rows st' !! sym = populate_row env ts e sym d (rows st !! sym).
Proof.
  unfold populate_initial_instruments. intros Hret Hnd Hin.
  destruct (nearest_expiry_dates env !! ts) as [e|]; [|done].
  injection Hret as <-. exists e. split; [done|]. rows_simpl.
  rewrite (populate_fold_lookup env ts e _ _ sym d) by done.
  by rows_simpl.
Qed.

(** X5. Re-running [populate_initial_instruments] in the middle of a
    session costs no price: on any table, returning or raising, it keeps
    every row and leaves its [price], [timestamp], [zerodha_price],
    [zerodha_timestamp] and [source] as they are. *)
Theorem populate_keeps_prices env ts conn st :
  rows_kept same_prices (rows st)
    (rows (store_of (populate_initial_instruments env ts conn st))).
Proof. apply rows_kept_populate; kept_side. Qed.

(** X6. [populate_initial_instruments] raises (KeyError) exactly when the
    trade symbol has no nearest expiry; it then has executed nothing, has
    not committed, and every row is as it was. *)
Theorem populate_unknown_trade_symbol env ts conn st :
  let res := populate_initial_instruments env ts conn st in
  (nearest_expiry_dates env !! ts = None <-> ∃ st', res = Raised st')
  ∧ (∀ st', res = Raised st' ->
       rows st' = rows st
       ∧ touched (added st st') = []
       ∧ (OpCommit ∉ added st st')).
Proof.
  intros res. subst res. unfold populate_initial_instruments.
  destruct (nearest_expiry_dates env !! ts) as [e|].
  - split; [|done]. split; [done|]. by intros (? & ?).
  - split; [split; eauto|].
    intros st' [= <-]. rows_simpl. split; [done|].
    erewrite added_app.
    2:{ rewrite journal_close_conn, journal_log, journal_open_conn,
          <- !app_assoc. reflexivity. }
    rewrite !touched_app, touched_open, touched_close. split; [done|].
    destruct conn; simpl; intros H;
      repeat (apply elem_of_cons in H as [H|H]; [done|]);
      by apply elem_of_nil in H.
Qed.

Lemma populate_unknown_trade_symbol_witness :
  let res := populate_initial_instruments env_ex "SENSEX" false store_empty in
  res = Raised (store_of res)
  ∧ rows (store_of res) = rows store_empty
  ∧ touched (added store_empty (store_of res)) = []
  ∧ (OpCommit ∉ added store_empty (store_of res)).
Proof.
  intros res.
  assert (H : res = Raised (store_of res)) by (vm_compute; reflexivity).
  split; [exact H|].
  exact (proj2 (populate_unknown_trade_symbol env_ex "SENSEX" false
                  store_empty) (store_of res) H).
Defined.

Lemma populate_row_initial env ts e sym d tok o :
  trade_symbol_of d = ts ->
  token_of_symbol (kite_instrument_mapping env) sym = Some tok ->
  tok ≠ 0 ->
  o = None ∨ o = Some (initial_row ts d tok e) ->
  populate_row env ts e sym d o = Some (initial_row ts d tok e).
Proof.
  intros Hts Htok Hnz Ho. unfold populate_row.
  rewrite decide_True by done. rewrite Htok, decide_False by done.
  by destruct Ho as [-> | ->].
Qed.

Lemma populate_row_other env ts e sym d o :
  trade_symbol_of d ≠ ts -> populate_row env ts e sym d o = o.
Proof. intros Hne. unfold populate_row. by rewrite decide_False. Qed.

Lemma populate_all_row env tss st st' sym d tok :
  NoDup (kite_instrument_details env).*1 ->
  (sym, d) ∈ kite_instrument_details env ->
  token_of_symbol (kite_instrument_mapping env) sym = Some tok ->
  tok ≠ 0 ->
  populate_all env tss st = Returned st' ->
  (∀ e, nearest_expiry_dates env !! trade_symbol_of d = Some e ->
        rows st !! sym = None
        ∨ rows st !! sym = Some (initial_row (trade_symbol_of d) d tok e)) ->
  trade_symbol_of d ∈ tss
  ∨ (∃ e, nearest_expiry_dates env !! trade_symbol_of d = Some e
          ∧ rows st !! sym = Some (initial_row (trade_symbol_of d) d tok e)) ->
  ∃ e, nearest_expiry_dates env !! trade_symbol_of d = Some e
       ∧ rows st' !! sym = Some (initial_row (trade_symbol_of d) d tok e).
Proof.
  intros Hnd Hin Htok Hnz. revert st.
  induction tss as [|ts tss IH]; intros st Hret Hinv Hcase; simpl in Hret.
  - injection Hret as <-. destruct Hcase as [Hts|?]; [|done].
    by apply elem_of_nil in Hts.
  - destruct (populate_initial_instruments env ts false st) as [st1|st1]
      eqn:Hpop; [|done].
    destruct (populate_lookup env ts false st st1 sym d Hpop Hnd Hin)
      as (e & He & Hrow).
    destruct (decide (trade_symbol_of d = ts)) as [Heq|Hne].
    + subst ts.
      assert (Hst1 : rows st1 !! sym =
                     Some (initial_row (trade_symbol_of d) d tok e)).
      { rewrite Hrow. by apply populate_row_initial; [..|apply Hinv]. }
      apply (IH st1 Hret).
      * intros e' He'. right. congruence.
      * right. eauto.
    + rewrite populate_row_other in Hrow by done.
      apply (IH st1 Hret).
      * intros e' He'. rewrite Hrow. by apply Hinv.
      * destruct Hcase as [Hts|(e' & He' & Hr)].
        -- left. apply elem_of_cons in Hts as [?|?]; [done|done].
        -- right. exists e'. by rewrite Hrow.
Qed.



(** X8. Bootstrap, then ticks: when the bootstrap has returned and a bulk
    call of source zerodha on its table returns, the row of a contract of
    the directory whose last entry in the call has price [q] carries the
    labels and the token of the bootstrap (source still "Initial"), the
    price and timestamp of that entry in both pairs of columns, and the
    expiry of the contract itself. *)
Theorem bootstrap_then_ticks env tss st st1 sym d tok
    now syms ps etss src conn st2 i q ets :
  bootstrap env tss st = Returned st1 ->
  NoDup (kite_instrument_details env).*1 ->
  (sym, d) ∈ kite_instrument_details env ->
  trade_symbol_of d ∈ tss ->
  token_of_symbol (kite_instrument_mapping env) sym = Some tok ->
  tok ≠ 0 ->
  upsert_price_bulk env now syms ps etss src conn st1 = Returned st2 ->
  lower src = "zerodha" ->
  syms !! i = Some sym ->
  (∀ j, (i < j)%nat -> syms !! j ≠ Some sym) ->
  ps !! i = Some (Some q) ->
  etss !! i = Some ets ->
  rows st2 !! sym =
    Some (Row (Some q) (Some (stamp ets (now i)))
              (Some (trade_symbol_of d)) (Some (strike d))
              (Some (option_type_of d)) (Some "Initial")
              (Some q) (Some (stamp ets (now i))) (Some tok)
              (Some (expiry d))).
Proof.
  intros Hboot Hnd Hin Hts Htok Hnz Hbulk Hsrc Hi Hlast Hp Hets.
  destruct (populate_all_row env tss (create_price_table st) st1 sym d tok)
    as (e & He & Hrow); try done.
  { intros e _. left. apply lookup_empty. }
  { by left. }
  rewrite (upsert_price_bulk_row env now syms ps etss src conn st1 st2 i sym
             (Some q) ets) by done.
  rewrite Hrow. simpl. unfold bulk_expiry.
  by rewrite (dict_get_NoDup _ sym d Hnd Hin).
Qed.

Lemma bootstrap_then_ticks_witness :
  let st1 := store_of (bootstrap env_ex ["NIFTY"] store_empty) in
  let st2 := store_of (run_sink env_ex two_ticks_call_ex st1) in
  let d := Details (24000 # 1) "CE" 20083 "NIFTY" in
  bootstrap env_ex ["NIFTY"] store_empty = Returned st1
  ∧ NoDup (kite_instrument_details env_ex).*1
  ∧ upsert_price_bulk env_ex (λ _, 0)
      ["NIFTY24DEC24000CE"; "NIFTY24DEC24000CE"] [Some 100%Q; Some 101%Q]
      [Some 1000000; Some 2000000] "zerodha" true st1 = Returned st2
  ∧ rows st2 !! "NIFTY24DEC24000CE" =
      Some (Row (Some 101%Q) (Some (stamp (Some 2000000) 0))
                (Some (trade_symbol_of d)) (Some (strike d))
                (Some (option_type_of d)) (Some "Initial")
                (Some 101%Q) (Some (stamp (Some 2000000) 0)) (Some 11)
                (Some (expiry d))).
Proof.
  intros st1 st2 d.
  assert (H1 : bootstrap env_ex ["NIFTY"] store_empty = Returned st1)
    by (vm_compute; reflexivity).
  assert (H2 : NoDup (kite_instrument_details env_ex).*1)
    by (apply (bool_decide_unpack _); vm_compute; exact I).
  assert (H3 : upsert_price_bulk env_ex (λ _, 0)
                 ["NIFTY24DEC24000CE"; "NIFTY24DEC24000CE"]
                 [Some 100%Q; Some 101%Q] [Some 1000000; Some 2000000]
                 "zerodha" true st1 = Returned st2)
    by (vm_compute; reflexivity).
  split_and!; [exact H1|exact H2|exact H3|].
  apply (bootstrap_then_ticks env_ex ["NIFTY"] store_empty st1
           "NIFTY24DEC24000CE" d 11 (λ _, 0)
           ["NIFTY24DEC24000CE"; "NIFTY24DEC24000CE"] [Some 100%Q; Some 101%Q]
           [Some 1000000; Some 2000000] "zerodha" true st2 1%nat 101%Q
           (Some 2000000) H1 H2); try reflexivity; try exact H3.
  - apply list_elem_of_here.
  - apply list_elem_of_here.
  - lia.
  - intros j Hj. destruct j as [|[|j]]; [lia|lia|done].
Defined.

(** ** Reading the index price back *)

(** X9. [get_index_price_and_symbol] after a spot upsert: the price of a
    NIFTY tick is what it returns, for "NIFTY 50"; the price of a tick of
    another trade symbol, stored under "SENSEX", is returned only when
    "NIFTY 50" has no priced row, otherwise the NIFTY 50 price is. *)
Theorem index_price_after_spot_upsert env now ts p src conn ets st :
  let st' := upsert_spot_price env now (spot_symbol_of ts) (Some p) ts src
               conn ets st in
  get_index_price_and_symbol (rows st') =
    if decide (ts = "NIFTY") then Some ("NIFTY 50", p)
    else
      match first_priced ["NIFTY 50"] (rows st) with
      | Some x => Some x
      | None => Some ("SENSEX", p)
      end.
Proof.
  intros st'. subst st'. unfold get_index_price_and_symbol, spot_symbol_of.
  case_decide as Hts.
  - destruct (upsert_spot_price_lookup env now "NIFTY 50" p ts src conn ets st)
      as (r & Hr & Hp & _).
    simpl. by rewrite Hr, Hp.
  - destruct (upsert_spot_price_lookup env now "SENSEX" p ts src conn ets st)
      as (r & Hr & Hp & _).
    simpl. rewrite Hr, Hp.
    rewrite upsert_spot_price_rows.
    rewrite lookup_update_derived, decide_False by done.
    rewrite lookup_insert_on_conflict, decide_False by done.
    destruct (rows st !! "NIFTY 50") as [r0|]; [|done].
    by destruct (price r0).
Qed.

(** ** The consumer loop, continued *)

(** The number of ticks that a pass asks for. *)
Lemma pass_takes env tss cpu clk w :
  let w' := (database_worker_pass env tss cpu clk w).1 in
  ∃ n : nat,
    popped w w' = take n (queue w)
    ∧ queue w' = drop n (queue w)
    ∧ (25 <= n <= 300)%nat
    ∧ (Z.of_nat (length (queue w)) <= 2000 -> (n <= 150)%nat).
Proof.
  intros w'.
  destruct (decide (2000 < Z.of_nat (length (queue w)))) as [Hbig|Hsmall].
  - destruct (emergency_pass_shape env tss cpu clk w Hbig) as (_ & Hq & _).
    exists 300%nat. split_and!; [|done|lia|lia|lia].
    by apply (popped_take 300 (queue w)).
  - subst w'. rewrite pass_normal by lia.
    destruct (normal_pass_shape env tss cpu clk (ensure_conn w)) as [Hq _].
    rewrite ensure_conn_queue in Hq.
    pose proof (get_adaptive_batch_size_bounds cpu
                  (Z.of_nat (length (queue w)))) as Hb.
    eexists. split_and!; [|exact Hq|lia|lia|lia].
    apply (popped_take _ (queue w)); [done|exact Hq].
Qed.

(** X10. A pass takes a prefix of the queue and leaves the rest in order:
    no tick is lost, duplicated or overtaken.  It takes at most 300 ticks
    (at most 150 when it finds no more than 2000), and at least 25, or the
    whole queue when that is shorter. *)
Theorem pass_takes_prefix env tss cpu clk w :
  let w' := (database_worker_pass env tss cpu clk w).1 in
  queue w = popped w w' ++ queue w'
  ∧ (length (popped w w') <= 300)%nat
  ∧ (Nat.min 25 (length (queue w)) <= length (popped w w'))%nat
  ∧ (Z.of_nat (length (queue w)) <= 2000 ->
     (length (popped w w') <= 150)%nat).
Proof.
  intros w'. subst w'.
  destruct (pass_takes env tss cpu clk w) as (n & Hp & Hq & Hn & Hsmall).
  rewrite Hp, Hq, take_drop, length_take.
  split_and!; [done|lia|lia|]. intros H. specialize (Hsmall H). lia.
Qed.

Lemma pass_takes_prefix_witness :
  let w := worker_backlog 40 in
  let w' := (database_worker_pass env_ex ["NIFTY"] 90%Q clock_ex w).1 in
  Z.of_nat (length (queue w)) <= 2000
  ∧ (length (popped w w') <= 150)%nat
  ∧ length (popped w w') = 25%nat.
Proof.
  intros w w'.
  assert (H : Z.of_nat (length (queue w)) <= 2000) by (vm_compute; discriminate).
  split_and!; [exact H| |vm_compute; reflexivity].
  exact (proj2 (proj2 (proj2
    (pass_takes_prefix env_ex ["NIFTY"] 90%Q clock_ex w))) H).
Defined.

Lemma database_worker_drains env tss heads w :
  Forall (λ h, h.1.1 = false) heads ->
  let w' := database_worker env tss heads w in
  (∃ taken, queue w = taken ++ queue w')
  ∧ (length (queue w') <= length (queue w) - 25 * length heads)%nat.
Proof.
  revert w. induction heads as [|[[shutdown cpu] clk] heads IH];
    intros w Hheads; simpl.
  - split; [by exists []|lia].
  - apply Forall_cons in Hheads as [Hh Hheads]. simpl in Hh. subst shutdown.
    destruct (pass_takes env tss cpu clk w) as (n & Hp & Hq & Hn & _).
    destruct (IH (database_worker_pass env tss cpu clk w).1 Hheads)
      as ((taken & Htaken) & Hlen).
    rewrite Hq in Htaken, Hlen. rewrite length_drop in Hlen. split.
    + exists (take n (queue w) ++ taken).
      rewrite <- app_assoc, <- Htaken. by rewrite take_drop.
    + lia.
Qed.

(** X11. Without a producer, a consumer that is not shut down empties the
    queue: after [k] passes at most [length - 25 k] ticks are left, they are
    a suffix of the queue it started with, and so the queue is empty after
    [length / 25] passes, rounded up. *)
Theorem database_worker_empties_queue env tss heads w :
  Forall (λ h, h.1.1 = false) heads ->
  let w' := database_worker env tss heads w in
  (∃ taken, queue w = taken ++ queue w')
  ∧ (length (queue w') <= length (queue w) - 25 * length heads)%nat
  ∧ ((length (queue w) <= 25 * length heads)%nat -> queue w' = []).
Proof.
  intros Hheads w'.
  destruct (database_worker_drains env tss heads w Hheads) as [Hsuffix Hlen].
  fold w' in Hsuffix, Hlen. split_and!; [done|done|].
  intros Hk. apply length_zero_iff_nil. lia.
Qed.

Lemma database_worker_empties_queue_witness :
  let heads := [(false, 90%Q, clock_ex); (false, 10%Q, clock_ex)] in
  let w' := database_worker env_ex ["NIFTY"] heads (worker_backlog 40) in
  Forall (λ h : bool * Q * clock, h.1.1 = false) heads
  ∧ (length (queue (worker_backlog 40)) <= 25 * length heads)%nat
  ∧ queue w' = [].
Proof.
  intros heads w'.
  assert (H1 : Forall (λ h : bool * Q * clock, h.1.1 = false) heads)
    by (repeat constructor).
  assert (H2 : (length (queue (worker_backlog 40)) <= 25 * length heads)%nat)
    by (vm_compute; lia).
  split_and!; [exact H1|exact H2|].
  exact (proj2 (proj2
    (database_worker_empties_queue env_ex ["NIFTY"] heads (worker_backlog 40)
       H1)) H2).
Defined.

(** What a pass leaves in the store and in the statistics. *)
Lemma pass_db env tss cpu clk w :
  let w' := (database_worker_pass env tss cpu clk w).1 in
  let batch := popped w w' in
  db w' =
    match batch with
    | [] => db (ensure_conn w)
    | _ :: _ =>
        apply_batch env clk (classify env tss batch).1
          (classify env tss batch).2 (db (ensure_conn w))
    end
  ∧ delay_stats w' =
      if decide (2000 < Z.of_nat (length (queue w))) then delay_stats w
      else record_delays (now_tick clk) 0 batch (delay_stats w).
Proof.
  intros w' batch. subst w' batch.
  destruct (decide (2000 < Z.of_nat (length (queue w)))) as [Hbig|Hsmall].
  - destruct (emergency_pass_shape env tss cpu clk w Hbig)
      as (_ & Hq & Hdb & _ & Hst).
    rewrite (popped_take 300 (queue w)) by done.
    assert (Hlen : length (take 300 (queue w)) = 300%nat)
      by (rewrite length_take; lia).
    destruct (take 300 (queue w)); [done|]. done.
  - rewrite pass_normal by lia.
    pose proof (normal_pass_shape env tss cpu clk (ensure_conn w)) as H.
    simpl in H. rewrite !ensure_conn_queue in H. destruct H as [Hq H].
    rewrite (popped_take _ (queue w) w _ eq_refl Hq).
    rewrite ensure_conn_delay_stats in H.
    destruct (take _ (queue w)).
    + by destruct H as (-> & _ & ->).
    + by destruct H as (-> & _ & ->).
Qed.

Lemma classify_spot_from env tss batch s :
  s ∈ (classify env tss batch).1 ->
  ∃ t, t ∈ batch ∧ resolve env tss t = Spot s.
Proof.
  induction batch as [|t0 batch IH]; simpl.
  - by intros ?%elem_of_nil.
  - destruct (classify env tss batch) as [sps zs] eqn:E. simpl in IH.
    destruct (resolve env tss t0) as [s0|z0|] eqn:Hres; simpl; intros Hin.
    + apply elem_of_cons in Hin as [->|Hin].
      * eauto using list_elem_of_here.
      * destruct (IH Hin) as (t & ? & ?). eauto using list_elem_of_further.
    + destruct (IH Hin) as (t & ? & ?). eauto using list_elem_of_further.
    + destruct (IH Hin) as (t & ? & ?). eauto using list_elem_of_further.
Qed.

Lemma classify_contract_in env tss batch t z :
  t ∈ batch -> resolve env tss t = Contract z ->
  z ∈ (classify env tss batch).2.
Proof.
  intros Hin Hres. induction batch as [|t0 batch IH]; simpl.
  - by apply elem_of_nil in Hin.
  - destruct (classify env tss batch) as [sps zs] eqn:E. simpl in IH.
    apply elem_of_cons in Hin as [<-|Hin].
    + rewrite Hres. simpl. apply list_elem_of_here.
    + destruct (resolve env tss t0); simpl; auto using list_elem_of_further.
Qed.

Lemma rows_apply_spot_ticks_other env now i sps sym st :
  sym ∉ map spot_symbol sps ->
  rows (apply_spot_ticks env now i sps st) !! sym = rows st !! sym.
Proof.
  revert i st.
  induction sps as [|s sps IH]; intros i st Hnin; cbn [apply_spot_ticks];
    [done|].
  simpl in Hnin. apply not_elem_of_cons in Hnin as [Hne Hnin].
  rewrite IH by done. rewrite upsert_spot_price_rows.
  rewrite lookup_update_derived, decide_False by done.
  by rewrite lookup_insert_on_conflict, decide_False.
Qed.

Lemma rows_upsert_price_bulk_other env now syms ps etss src conn st sym :
  sym ∉ syms ->
  rows (store_of (upsert_price_bulk env now syms ps etss src conn st)) !! sym
  = rows st !! sym.
Proof.
  intros Hnin.
  destruct (upsert_price_bulk_cases env now syms ps etss src conn st)
    as [(st' & -> & Hrows & _)|[(st' & -> & Hrows & _)
       |(st' & bulk & -> & _ & _ & Hbulk & _ & Hrows)]]; simpl;
    rewrite Hrows; [done|done|].
  rewrite lookup_bulk_derived_other by done.
  rewrite rows_execute_bulk_upserts_other; [by rows_simpl|].
  by rewrite (bulk_data_symbols _ _ _ _ _ _ Hbulk).
Qed.

Lemma rows_apply_zerodha_ticks_other env now zs sym st :
  sym ∉ map kite_symbol zs ->
  rows (apply_zerodha_ticks env now zs st) !! sym = rows st !! sym.
Proof.
  intros Hnin. unfold apply_zerodha_ticks. destruct zs as [|z zs]; [done|].
  pose proof (rows_upsert_price_bulk_other env now
    (map kite_symbol (z :: zs))
    (map (λ z, Some (zerodha_tick_price z)) (z :: zs))
    (map zerodha_tick_timestamp (z :: zs)) "zerodha" true st sym Hnin) as H.
  by destruct (upsert_price_bulk _ _ _ _ _ _ _ _).
Qed.

(** X12. A pass changes the row of a symbol only if a tick of its batch
    resolves to that symbol.  Ticks that are dropped (no token or token 0,
    no price, a token that is neither a spot token nor in the mapping, a
    source other than zerodha) create and change no row. *)
Theorem pass_frame env tss cpu clk w sym :
  let w' := (database_worker_pass env tss cpu clk w).1 in
  (∀ t, t ∈ popped w w' -> written_symbol env tss t ≠ Some sym) ->
  rows (db w') !! sym = rows (db w) !! sym.
Proof.
  intros w' Hnot. destruct (pass_db env tss cpu clk w) as [Hdb _].
  fold w' in Hdb. rewrite Hdb.
  destruct (popped w w') as [|t0 batch] eqn:Hb; [by rewrite ensure_conn_rows|].
  rewrite rows_apply_batch.
  rewrite rows_apply_zerodha_ticks_other.
  - rewrite rows_apply_spot_ticks_other; [by rewrite ensure_conn_rows|].
    intros (s & -> & Hs)%list_elem_of_fmap.
    destruct (classify_spot_from env tss _ _ Hs) as (t & Ht & Hres).
    apply (Hnot t Ht). unfold written_symbol. by rewrite Hres.
  - intros (z & -> & Hz)%list_elem_of_fmap.
    destruct (classify_contract_from env tss _ _ Hz) as (t & Ht & Hres).
    apply (Hnot t Ht). unfold written_symbol. by rewrite Hres.
Qed.

Lemma pass_frame_witness :
  let w := worker_spot_ex in
  let w' := (database_worker_pass env_ex ["NIFTY"] 10%Q clock_ex w).1 in
  (∀ t, t ∈ popped w w' ->
        written_symbol env_ex ["NIFTY"] t ≠ Some "NIFTY24DEC24000PE")
  ∧ rows (db w') !! "NIFTY24DEC24000PE" = rows (db w) !! "NIFTY24DEC24000PE".
Proof.
  intros w w'.
  assert (H : ∀ t, t ∈ popped w w' ->
                written_symbol env_ex ["NIFTY"] t ≠ Some "NIFTY24DEC24000PE").
  { replace (popped w w') with [spot_tick_ex; contract_tick_ex]
      by (vm_compute; reflexivity).
    intros t [->|[->|Ht%elem_of_nil]%elem_of_cons]%elem_of_cons;
      [vm_compute; discriminate|vm_compute; discriminate|done]. }
  split; [exact H|].
  exact (pass_frame env_ex ["NIFTY"] 10%Q clock_ex w "NIFTY24DEC24000PE" H).
Defined.

(** *** A pass never rolls back *)

Lemma quiet_app ops1 ops2 : quiet ops1 -> quiet ops2 -> quiet (ops1 ++ ops2).
Proof. apply Forall_app_2. Qed.

Lemma quiet_executes q (syms : list string) : quiet (map (OpExecute q) syms).
Proof. apply Forall_fmap, Forall_forall. done. Qed.

Lemma quiet_bulk_upserts
    (bulk : list (string * option Q * datetime * option date)) :
  quiet (map (λ x, OpExecute UpsertZerodhaBulk x.1.1.1) bulk).
Proof. apply Forall_fmap, Forall_forall. done. Qed.

Lemma journal_upsert_spot_price env now s p tsym src ets st :
  ∃ ops,
    journal (upsert_spot_price env now s p tsym src true ets st)
      = journal st ++ ops ∧ quiet ops.
Proof.
  exists [OpExecute UpsertSpot s; OpExecute UpdateDerived s; OpCommit].
  split; [|by repeat constructor].
  unfold upsert_spot_price. simpl. by rewrite <- !app_assoc.
Qed.

Lemma journal_apply_spot_ticks env now i sps st :
  ∃ ops,
    journal (apply_spot_ticks env now i sps st) = journal st ++ ops
    ∧ quiet ops.
Proof.
  revert i st.
  induction sps as [|s sps IH]; intros i st; cbn [apply_spot_ticks].
  - exists []. split; [by rewrite app_nil_r|constructor].
  - destruct (journal_upsert_spot_price env (now i) (spot_symbol s)
                (Some (spot_price s)) (spot_trade_symbol s) "zerodha"
                (spot_exchange_timestamp s) st) as (ops1 & H1 & Hq1).
    destruct (IH (S i) (upsert_spot_price env (now i) (spot_symbol s)
                          (Some (spot_price s)) (spot_trade_symbol s)
                          "zerodha" true (spot_exchange_timestamp s) st))
      as (ops2 & H2 & Hq2).
    exists (ops1 ++ ops2). split; [|by apply quiet_app].
    by rewrite H2, H1, <- app_assoc.
Qed.

(** With lists of one length the bulk call returns. *)
Lemma upsert_price_bulk_equal_lengths env now syms ps etss st :
  length ps = length syms -> length etss = length syms ->
  ∃ st' ops,
    upsert_price_bulk env now syms ps etss "zerodha" true st = Returned st'
    ∧ journal st' = journal st ++ ops ∧ quiet ops.
Proof.
  intros Hps Hetss. unfold upsert_price_bulk.
  destruct syms as [|s syms].
  { exists st, []. split_and!; [done|by rewrite app_nil_r|constructor]. }
  rewrite decide_True by done.
  pose proof (bulk_data_is_Some 0 (s :: syms) ps
                (imap (λ i ets, stamp ets (now i)) etss)
                (map (bulk_expiry env) (s :: syms))) as [_ Hsome].
  destruct Hsome as [bulk Hbulk].
  { right. rewrite length_imap, length_map. lia. }
  rewrite Hbulk. eexists _, _. split; [reflexivity|]. split.
  - cbn [close_conn open_conn]. rewrite journal_log.
    rewrite (journal_execute_bulk_derived (s :: syms)).
    rewrite journal_execute_bulk_upserts, <- !app_assoc. reflexivity.
  - apply quiet_app; [apply quiet_bulk_upserts|].
    apply quiet_app; [apply quiet_executes|]. by repeat constructor.
Qed.

(** The lists that a pass hands to [upsert_price_bulk] have one length, so
    the call returns. *)
Lemma journal_apply_zerodha_ticks env now zs st :
  ∃ ops,
    journal (apply_zerodha_ticks env now zs st) = journal st ++ ops
    ∧ quiet ops.
Proof.
  unfold apply_zerodha_ticks. destruct zs as [|z zs].
  { exists []. split; [by rewrite app_nil_r|constructor]. }
  destruct (upsert_price_bulk_equal_lengths env now
              (map kite_symbol (z :: zs))
              (map (λ z, Some (zerodha_tick_price z)) (z :: zs))
              (map zerodha_tick_timestamp (z :: zs)) st)
    as (st' & ops & -> & Hj & Hq); [by rewrite !length_map..|].
  eauto.
Qed.

(** X13. A pass never rolls back: the three lists that it hands to
    [upsert_price_bulk] have the same length, so the call does not raise
    IndexError, and no other step of the pass rolls back (SQL statements
    are taken to succeed). *)
Theorem pass_never_rolls_back env tss cpu clk w :
  OpRollback ∉ added (db w) (db (database_worker_pass env tss cpu clk w).1).
Proof.
  destruct (pass_db env tss cpu clk w) as [Hdb _]. rewrite Hdb. clear Hdb.
  assert (Hconn : ∃ ops, journal (db (ensure_conn w)) = journal (db w) ++ ops
                         ∧ quiet ops).
  { unfold ensure_conn. destruct (conn_open w).
    - exists []. split; [by rewrite app_nil_r|constructor].
    - exists [OpConnect]. split; [done|by repeat constructor]. }
  destruct Hconn as (ops0 & H0 & Hq0).
  assert (Hall : ∃ ops,
            journal (match popped w (database_worker_pass env tss cpu clk w).1
                     with
                     | [] => db (ensure_conn w)
                     | _ :: _ =>
                         apply_batch env clk
                           (classify env tss
                              (popped w
                                 (database_worker_pass env tss cpu clk w).1)).1
                           (classify env tss
                              (popped w
                                 (database_worker_pass env tss cpu clk w).1)).2
                           (db (ensure_conn w))
                     end) = journal (db w) ++ ops ∧ quiet ops).
  { destruct (popped w _) as [|t0 batch]; [eauto|].
    generalize (classify env tss (t0 :: batch)). intros [sps zs].
    cbn [fst snd]. unfold apply_batch. rewrite journal_log.
    destruct (journal_apply_spot_ticks env (now_spot clk) 0 sps
                (db (ensure_conn w))) as (ops1 & H1 & Hq1).
    destruct (journal_apply_zerodha_ticks env (now_bulk clk) zs
                (apply_spot_ticks env (now_spot clk) 0 sps
                   (db (ensure_conn w)))) as (ops2 & H2 & Hq2).
    exists (ops0 ++ ops1 ++ ops2 ++ [OpCommit]). split.
    - rewrite H2, H1, H0, <- !app_assoc. done.
    - repeat apply quiet_app; try done. by repeat constructor. }
  destruct Hall as (ops & Hj & Hq).
  rewrite (added_app _ _ ops Hj).
  intros Hin. by apply (proj1 (Forall_forall _ _) Hq) in Hin.
Qed.

(** *** What the statistics count *)

Lemma count_record_delays now i batch s :
  count (record_delays now i batch s) =
    count s + Z.of_nat (length (List.filter measured batch)).
Proof.
  revert i s. induction batch as [|t batch IH]; intros i s; simpl; [lia|].
  rewrite IH. unfold measured at 2.
  case_decide as Hsrc.
  - rewrite bool_decide_eq_true_2 by done. simpl.
    destruct (exchange_timestamp (data t)) as [ts|] eqn:Hts.
    + rewrite bool_decide_eq_true_2 by eauto. simpl. lia.
    + rewrite bool_decide_eq_false_2 by (by intros [? ?]). lia.
  - rewrite bool_decide_eq_false_2 by done. simpl. lia.
Qed.

(** X14. The statistics count the ticks of the normal path only: a pass
    that finds at most 2000 ticks adds to [count] the number of ticks of its
    batch that have source zerodha and an exchange timestamp (whether they
    are dropped afterwards or not); an emergency pass leaves the statistics
    as they are. *)
Theorem pass_delay_count env tss cpu clk w :
  let w' := (database_worker_pass env tss cpu clk w).1 in
  if decide (2000 < Z.of_nat (length (queue w)))
  then delay_stats w' = delay_stats w
  else count (delay_stats w') =
         count (delay_stats w)
         + Z.of_nat (length (List.filter measured (popped w w'))).
Proof.
  intros w'. destruct (pass_db env tss cpu clk w) as [_ Hst].
  fold w' in Hst. rewrite Hst.
  case_decide; [done|]. apply count_record_delays.
Qed.

(** *** The mean delay lies between the minimum and the maximum *)



Lemma delay_stats_after_snoc ms m :
  delay_stats_after (ms ++ [m]) =
    update_delay_stats m.1 m.2 (delay_stats_after ms).
Proof. unfold delay_stats_after. by rewrite foldl_app. Qed.





(** The measurements that the normal path takes from a batch, and the
    statistics as a function of all measurements so far. *)
Lemma record_delays_after now i batch ms :
  ∃ ms', record_delays now i batch (delay_stats_after ms)
         = delay_stats_after (ms ++ ms')
         ∧ length ms' = length (List.filter measured batch).
Proof.
  revert i ms. induction batch as [|t batch IH]; intros i ms; simpl.
  - exists []. by rewrite app_nil_r.
  - unfold measured at 1. case_decide as Hsrc.
    + rewrite bool_decide_eq_true_2 by done. simpl.
      destruct (exchange_timestamp (data t)) as [ts|] eqn:Hts.
      * rewrite bool_decide_eq_true_2 by eauto.
        destruct (IH (S i) (ms ++ [(now i, ts)])) as (ms' & Heq & Hlen).
        rewrite delay_stats_after_snoc in Heq. simpl in Heq.
        exists ((now i, ts) :: ms'). rewrite Heq, <- app_assoc. simpl.
        by rewrite Hlen.
      * rewrite bool_decide_eq_false_2 by (by intros [? ?]).
        apply IH.
    + rewrite bool_decide_eq_false_2 by done. simpl. apply IH.
Qed.

(** *** Contract ticks *)

Lemma last_occurrence (l : list string) s :
  s ∈ l -> ∃ i, l !! i = Some s ∧ ∀ j, (i < j)%nat -> l !! j ≠ Some s.
Proof.
  induction l as [|x l IH]; intros Hin; [by apply elem_of_nil in Hin|].
  destruct (decide (s ∈ l)) as [Hl|Hl].
  - destruct (IH Hl) as (i & Hi & Hlast). exists (S i). split; [done|].
    intros [|j] Hj; [lia|]. simpl. apply Hlast. lia.
  - apply elem_of_cons in Hin as [->|?]; [|done].
    exists 0%nat. split; [done|].
    intros [|j] Hj; [lia|]. simpl. intros Hj'.
    apply Hl. by eapply list_elem_of_lookup_2.
Qed.

Lemma rows_apply_zerodha_ticks_priced env now zs z st :
  z ∈ zs ->
  ∃ r, rows (apply_zerodha_ticks env now zs st) !! kite_symbol z = Some r
       ∧ is_Some (zerodha_price r)
       ∧ price r = zerodha_price r ∧ timestamp r = zerodha_timestamp r.
Proof.
  intros Hz. unfold apply_zerodha_ticks.
  destruct zs as [|z0 zs]; [by apply elem_of_nil in Hz|].
  destruct (upsert_price_bulk_equal_lengths env now
              (map kite_symbol (z0 :: zs))
              (map (λ z, Some (zerodha_tick_price z)) (z0 :: zs))
              (map zerodha_tick_timestamp (z0 :: zs)) st)
    as (st' & ops & Hret & _); [by rewrite !length_map..|].
  rewrite Hret.
  destruct (last_occurrence (map kite_symbol (z0 :: zs)) (kite_symbol z))
    as (i & Hi & Hlast).
  { apply list_elem_of_fmap. eauto. }
  assert (Hlen : (i < length (z0 :: zs))%nat).
  { apply lookup_lt_Some in Hi. by rewrite length_map in Hi. }
  destruct (lookup_lt_is_Some_2 (z0 :: zs) i Hlen) as [zi Hzi].
  rewrite (upsert_price_bulk_row env now _ _ _ "zerodha" true st st' i
             (kite_symbol z) (Some (zerodha_tick_price zi))
             (zerodha_tick_timestamp zi) Hret); try done.
  - eexists. split; [reflexivity|]. simpl. eauto.
  - by rewrite list_lookup_fmap, Hzi.
  - by rewrite list_lookup_fmap, Hzi.
Qed.

(** X16. A tick of the batch that passes validation, whose token is not a
    tracked spot token and maps to a non-empty symbol, is written by the
    bulk call of the pass: the call is in the trace with an entry for the
    tick, no spot call of the pass has that token, and after the pass the
    row of the symbol has a price, equal to its [zerodha_price], with the
    matching timestamp. *)
Theorem contract_envelope_takes_bulk_path env tss cpu clk w t tok ltp sym :
  let w' := (database_worker_pass env tss cpu clk w).1 in
  t ∈ popped w w' ->
  tick_source t = "zerodha" ->
  tick_instrument_token (data t) = Some tok ->
  tok ≠ 0 ->
  last_price (data t) = Some ltp ->
  find_spot env tss tok = None ->
  dict_get tok (kite_instrument_mapping env) = Some sym ->
  sym ≠ "" ->
  (∃ zs,
     CallUpsertBulk zs ∈ new_actions w w'
     ∧ ZerodhaTick sym ltp tok (exchange_timestamp (data t)) ∈ zs)
  ∧ (∀ s, CallUpsertSpot s ∈ new_actions w w' ->
          spot_token env (spot_trade_symbol s) ≠ Some tok)
  ∧ ∃ r, rows (db w') !! sym = Some r
         ∧ is_Some (price r)
         ∧ price r = zerodha_price r ∧ timestamp r = zerodha_timestamp r.
Proof.
  intros w' Hin Hsrc Htok Hnz Hltp Hspot Hsym Hne.
  assert (Hres : resolve env tss t =
                 Contract (ZerodhaTick sym ltp tok
                             (exchange_timestamp (data t)))).
  { destruct t as [src [tk lp ets] qe]. simpl in *. subst.
    by apply resolve_contract. }
  destruct (pass_shape env tss cpu clk w) as (pops & Hpops & Hshape).
  fold w' in Hshape.
  destruct (popped w w') as [|t0 batch] eqn:Hb; [by apply elem_of_nil in Hin|].
  destruct Hshape as (Hdb & Hacts & _).
  pose proof (classify_contract_in env tss _ _ _ Hin Hres) as Hz.
  split_and!.
  - exists (classify env tss (t0 :: batch)).2. split; [|done].
    rewrite Hacts. apply elem_of_app. right. apply elem_of_app. right.
    apply elem_of_app. left. unfold bulk_call.
    destruct (classify env tss (t0 :: batch)).2;
      [by apply elem_of_nil in Hz|apply list_elem_of_here].
  - intros s. rewrite Hacts.
    intros [Hp|[Hc|[Hc|Hc]%elem_of_app]%elem_of_app]%elem_of_app.
    + by apply (proj1 (Forall_forall _ _) Hpops) in Hp.
    + apply list_elem_of_fmap in Hc as (s' & [= <-] & Hs).
      destruct (classify_spot_from env tss _ _ Hs) as (t' & _ & Hres').
      intros Hst. unfold resolve in Hres'.
      case_decide; [|done].
      destruct (tick_instrument_token (data t')) as [tok'|]; [|done].
      destruct (last_price (data t')) as [ltp'|]; [|done].
      case_decide; [done|].
      destruct (find_spot env tss tok') as [ts'|] eqn:Hfind; [|].
      * injection Hres' as <-. simpl in Hst.
        destruct (find_spot_Some _ _ _ _ Hfind) as [_ Htok'].
        rewrite Htok' in Hst. injection Hst as ->. by rewrite Hfind in Hspot.
      * destruct (dict_get tok' _); [|done]. by case_decide.
    + unfold bulk_call in Hc.
      destruct (classify env tss (t0 :: batch)).2;
        [by apply elem_of_nil in Hc|by apply list_elem_of_singleton in Hc].
    + by apply list_elem_of_singleton in Hc.
  - rewrite Hdb, rows_apply_batch.
    destruct (rows_apply_zerodha_ticks_priced env (now_bulk clk) _ _
                (apply_spot_ticks env (now_spot clk) 0
                   (classify env tss (t0 :: batch)).1 (db (ensure_conn w)))
                Hz) as (r & Hr & Hzp & Hp & Hts).
    simpl in Hr. exists r. split_and!; try done. by rewrite Hp.
Qed.

Lemma contract_envelope_takes_bulk_path_witness :
  let w := worker_spot_ex in
  let w' := (database_worker_pass env_ex ["NIFTY"] 10%Q clock_ex w).1 in
  contract_tick_ex ∈ popped w w'
  ∧ find_spot env_ex ["NIFTY"] 11 = None
  ∧ dict_get 11 (kite_instrument_mapping env_ex) = Some "NIFTY24DEC24000CE"
  ∧ ∃ r, rows (db w') !! "NIFTY24DEC24000CE" = Some r
         ∧ is_Some (price r)
         ∧ price r = zerodha_price r ∧ timestamp r = zerodha_timestamp r.
Proof.
  intros w w'.
  assert (H1 : contract_tick_ex ∈ popped w w').
  { replace (popped w w') with [spot_tick_ex; contract_tick_ex]
      by (vm_compute; reflexivity).
    apply list_elem_of_further, list_elem_of_here. }
  assert (H2 : find_spot env_ex ["NIFTY"] 11 = None)
    by (vm_compute; reflexivity).
  assert (H3 : dict_get 11 (kite_instrument_mapping env_ex)
               = Some "NIFTY24DEC24000CE") by (vm_compute; reflexivity).
  split_and!; [exact H1|exact H2|exact H3|].
  apply (contract_envelope_takes_bulk_path env_ex ["NIFTY"] 10%Q clock_ex w
           contract_tick_ex 11 100%Q "NIFTY24DEC24000CE" H1);
    [reflexivity|reflexivity|lia|reflexivity|exact H2|exact H3|discriminate].
Defined.

(** *** Rows through a pass *)

Lemma rows_kept_apply_spot_ticks (R : row -> row -> Prop) env now i sps st :
  (∀ r, R r r) -> (∀ r1 r2 r3, R r1 r2 -> R r2 r3 -> R r1 r3) ->
  (∀ r, R r (set_derived r)) ->
  (∀ p ts tsym src e r, R r (set_spot p ts tsym src e r)) ->
  rows_kept R (rows st) (rows (apply_spot_ticks env now i sps st)).
Proof.
  intros Hrefl Htrans Hder Hupd. revert i st.
  induction sps as [|s sps IH]; intros i st; cbn [apply_spot_ticks].
  - by apply rows_kept_refl.
  - eapply rows_kept_trans; [done| |apply IH].
    by apply rows_kept_upsert_spot_price.
Qed.

Lemma rows_kept_apply_zerodha_ticks (R : row -> row -> Prop) env now zs st :
  (∀ r, R r r) -> (∀ r1 r2 r3, R r1 r2 -> R r2 r3 -> R r1 r3) ->
  (∀ r, R r (set_derived r)) ->
  (∀ p ts e r, R r (set_zerodha_bulk p ts e r)) ->
  rows_kept R (rows st) (rows (apply_zerodha_ticks env now zs st)).
Proof.
  intros Hrefl Htrans Hder Hupd. unfold apply_zerodha_ticks.
  destruct zs as [|z zs]; [by apply rows_kept_refl|].
  pose proof (rows_kept_upsert_price_bulk R Hrefl Htrans env now
    (map kite_symbol (z :: zs))
    (map (λ z, Some (zerodha_tick_price z)) (z :: zs))
    (map zerodha_tick_timestamp (z :: zs)) "zerodha" true st Hder Hupd) as H.
  by destruct (upsert_price_bulk _ _ _ _ _ _ _ _).
Qed.

(** X17. A pass keeps every row of the table and never changes its
    [strike_price], [option_type] or [instrument_token]: what the bootstrap
    wrote about a contract survives every tick. *)
Theorem pass_keeps_contract_columns env tss cpu clk w :
  rows_kept same_contract (rows (db w))
    (rows (db (database_worker_pass env tss cpu clk w).1)).
Proof.
  destruct (pass_db env tss cpu clk w) as [Hdb _]. rewrite Hdb. clear Hdb.
  destruct (popped w _) as [|t0 batch].
  { rewrite ensure_conn_rows. apply rows_kept_refl. kept_side. }
  rewrite rows_apply_batch, <- (ensure_conn_rows w).
  eapply rows_kept_trans; [kept_side| |].
  - apply rows_kept_apply_spot_ticks; kept_side.
  - apply rows_kept_apply_zerodha_ticks; kept_side.
Qed.

(** ** Subscription and resolution *)

Lemma dict_get_in_keys {V} (k : Z) (d : list (Z * V)) v :
  dict_get k d = Some v -> k ∈ map fst d.
Proof.
  induction d as [|[k0 v0] d IH]; simpl; [done|].
  case_decide as Hk.
  - intros _. subst. apply list_elem_of_here.
  - intros H. apply list_elem_of_further. by apply IH.
Qed.

Lemma dict_get_of_key {V} (k : Z) (d : list (Z * V)) :
  k ∈ map fst d -> is_Some (dict_get k d).
Proof.
  induction d as [|[k0 v0] d IH]; simpl.
  - by intros ?%elem_of_nil.
  - intros Hin. case_decide; [eauto|].
    apply elem_of_cons in Hin as [?|?]; [congruence|by apply IH].
Qed.

Lemma spot_token_subscribed env ts tok (ok : bool) s :
  spot_token env ts = Some tok -> tok ≠ 0 ->
  tok ∈ (zerodha_on_connect env ok s).2.
Proof.
  intros Htok Hnz. simpl. apply elem_of_app. right.
  apply list_elem_of_omap. exists (ts, Some tok). split.
  - apply elem_of_map_to_list. unfold spot_token in Htok.
    by destruct (spot_instrument_tokens env !! ts) as [[?|]|]; simplify_eq.
  - simpl. by rewrite decide_False.
Qed.

(** X18. The subscription of [zerodha_on_connect] and the resolution of the
    consumer fit: a tick that the consumer writes has a subscribed token,
    and a validated tick with a subscribed, non-zero token is written,
    provided the symbols of the mapping are not empty and the consumer
    tracks every trade symbol that has this token as its spot token. *)
Theorem subscription_fits_resolution env tss ok s t tok ltp :
  tick_source t = "zerodha" ->
  tick_instrument_token (data t) = Some tok ->
  last_price (data t) = Some ltp ->
  let instrument_tokens := (zerodha_on_connect env ok s).2 in
  (written_symbol env tss t ≠ None -> tok ∈ instrument_tokens)
  ∧ (tok ∈ instrument_tokens ->
     tok ≠ 0 ->
     (∀ sym, dict_get tok (kite_instrument_mapping env) = Some sym ->
             sym ≠ "") ->
     (∀ ts, spot_token env ts = Some tok -> ts ∈ tss) ->
     written_symbol env tss t ≠ None).
Proof.
  intros Hsrc Htok Hltp toks. subst toks.
  destruct t as [src [tk lp ets] qe]. simpl in Hsrc, Htok, Hltp. subst.
  unfold written_symbol, resolve. simpl. split.
  - case_decide as Hnz; [done|].
    destruct (find_spot env tss tok) as [ts|] eqn:Hspot.
    + intros _. apply find_spot_Some in Hspot as [_ Hspot].
      by apply (spot_token_subscribed env ts tok ok s).
    + destruct (dict_get tok (kite_instrument_mapping env)) as [sym|] eqn:Hsym;
        [|done].
      intros _. apply elem_of_app. left. by eapply dict_get_in_keys.
  - intros Hin Hnz Hsyms Htracked. rewrite decide_False by done.
    destruct (find_spot env tss tok) as [ts|] eqn:Hspot; [done|].
    apply elem_of_app in Hin as [Hin|Hin].
    + destruct (dict_get_of_key tok _ Hin) as [sym Hsym]. rewrite Hsym.
      rewrite decide_False by (by apply Hsyms). done.
    + apply list_elem_of_omap in Hin as ([ts otok] & Hin & Htruthy).
      apply elem_of_map_to_list in Hin. simpl in Htruthy.
      destruct otok as [n|]; [|done]. simpl in Htruthy.
      case_decide; [done|]. injection Htruthy as ->.
      assert (Hst : spot_token env ts = Some tok)
        by (unfold spot_token; by rewrite Hin).
      destruct (find_spot_tracked env tss tok ts (Htracked ts Hst) Hst)
        as (ts' & Hts'). congruence.
Qed.

Lemma subscription_fits_resolution_witness :
  let toks := (zerodha_on_connect env_ex true supervisor_init).2 in
  tick_source spot_tick_ex = "zerodha"
  ∧ 256265 ∈ toks
  ∧ written_symbol env_ex ["NIFTY"] spot_tick_ex ≠ None.
Proof.
  intros toks.
  assert (H1 : tick_source spot_tick_ex = "zerodha") by reflexivity.
  assert (H2 : 256265 ∈ toks)
    by (apply (bool_decide_unpack _); vm_compute; exact I).
  split_and!; [exact H1|exact H2|].
  destruct (subscription_fits_resolution env_ex ["NIFTY"] true supervisor_init
              spot_tick_ex 256265 24010%Q H1 eq_refl eq_refl) as [_ H].
  apply H; [exact H2|lia| |].
  - intros sym Hsym. vm_compute in Hsym. discriminate.
  - intros ts Hts. unfold spot_token in Hts.
    cbn [env_ex spot_instrument_tokens] in Hts.
    destruct (decide (ts = "NIFTY")) as [->|Hne]; [apply list_elem_of_here|].
    by rewrite lookup_singleton_ne in Hts.
Defined.

(** ** Service control *)

Lemma shutdown_event_step svc op :
  shutdown_event svc = true -> shutdown_event (service_step svc op) = true.
Proof.
  intros H. destruct op as [ts| |]; simpl.
  - unfold start_websocket_service.
    destruct (websocket_running svc); [done|]. by destruct ts.
  - unfold stop_websocket_service. by destruct (websocket_running svc).
  - done.
Qed.

Lemma shutdown_event_steps svc ops :
  shutdown_event svc = true ->
  shutdown_event (foldl service_step svc ops) = true.
Proof.
  revert svc. induction ops as [|op ops IH]; intros svc H; simpl; [done|].
  by apply IH, shutdown_event_step.
Qed.

(** X19. A stop is final.  Once [stop_websocket_service] has stopped a
    running service, [shutdown_event] stays set through every later start,
    stop and thread exit: a later [start_websocket_service] still reports
    success for a non-empty symbol list, but the session loop of its thread
    is not entered, and a consumer that tests the event leaves its loop
    without a pass. *)
Theorem stop_is_final svc ops trade_symbols env tss cpu clk rest w :
  websocket_running svc = true ->
  let svc' := foldl service_step (stop_websocket_service svc) ops in
  let started := start_websocket_service trade_symbols svc' in
  shutdown_event svc' = true
  ∧ session_loop_enters svc' = false
  ∧ session_loop_enters started.1.2 = false
  ∧ (trade_symbols ≠ [] -> started.1.1 = true)
  ∧ database_worker env tss ((shutdown_event started.1.2, cpu, clk) :: rest) w
    = close_worker w.
Proof.
  intros Hrun svc' started.
  assert (Hset : shutdown_event svc' = true).
  { apply shutdown_event_steps. unfold stop_websocket_service.
    by rewrite Hrun. }
  assert (Hset' : shutdown_event started.1.2 = true)
    by apply (shutdown_event_step svc' (Start trade_symbols) Hset).
  split_and!.
  - done.
  - unfold session_loop_enters. rewrite Hset. apply andb_false_r.
  - unfold session_loop_enters. rewrite Hset'. apply andb_false_r.
  - intros Hne. subst started. unfold start_websocket_service.
    destruct (websocket_running svc'); [done|]. by destruct trade_symbols.
  - simpl. by rewrite Hset'.
Qed.

Lemma stop_is_final_witness :
  let svc' := foldl service_step (stop_websocket_service service_ex)
                [ThreadExit] in
  let started := start_websocket_service ["NIFTY"] svc' in
  websocket_running service_ex = true
  ∧ ["NIFTY"] ≠ []
  ∧ started.1.1 = true
  ∧ websocket_running started.1.2 = true
  ∧ session_loop_enters started.1.2 = false.
Proof.
  intros svc' started.
  assert (H1 : websocket_running service_ex = true) by reflexivity.
  assert (H2 : ["NIFTY"] ≠ []) by done.
  destruct (stop_is_final service_ex [ThreadExit] ["NIFTY"] env_ex ["NIFTY"]
              10%Q clock_ex [] worker_ex H1) as (_ & _ & H3 & H4 & _).
  split_and!; [exact H1|exact H2|exact (H4 H2)|reflexivity|exact H3].
Defined.

Lemma is_market_hours_same now : is_market_hours now = is_market_hours_now now.
Proof. done. Qed.

(** X20. The controller of start_all.py stops the service only across the
    closing bell: a round sends the stop exactly when the backend answered,
    the service was running, the backend's clock was inside market hours
    and the controller's own clock is outside.  With one reading of the
    clock for both, no round ever sends it, because the status reports
    [running] only inside market hours. *)
Theorem controller_stop reachable t1 t2 svc q s :
  let round t := websocket_controller_round
                   (backend_ws_status reachable t svc q s) t2 in
  (BackendWsStop ∈ round t1 <->
     reachable = true ∧ websocket_running svc = true
     ∧ is_market_hours_now t1 = true ∧ is_market_hours t2 = false)
  ∧ (BackendWsStop ∉ round t2)
  ∧ (BackendWsStart ∈ round t1 -> is_market_hours t2 = true).
Proof.
  intros round. subst round.
  unfold websocket_controller_round, backend_ws_status. simpl.
  rewrite <- (is_market_hours_same t1), <- (is_market_hours_same t2).
  split_and!.
  - destruct reachable, (websocket_running svc), (is_market_hours t1),
      (is_market_hours t2); simpl; split;
      try (intros H; repeat (apply elem_of_cons in H as [H|H]; [done|]);
           by apply elem_of_nil in H);
      try (by intros (? & ? & ? & ?));
      try (intros _; eauto using list_elem_of_here, list_elem_of_further).
    all: intros _; split_and!; done.
  - destruct reachable, (websocket_running svc), (is_market_hours t2); simpl;
      intros H; repeat (apply elem_of_cons in H as [H|H]; [done|]);
      by apply elem_of_nil in H.
  - destruct reachable, (websocket_running svc), (is_market_hours t1),
      (is_market_hours t2); simpl; try done;
      intros H; repeat (apply elem_of_cons in H as [H|H]; [done|]);
      by apply elem_of_nil in H.
Qed.

Lemma controller_stop_witness :
  is_market_hours_now monday_1530 = true
  ∧ is_market_hours monday_1531 = false
  ∧ BackendWsStop
      ∈ websocket_controller_round
          (backend_ws_status true monday_1530 service_ex [] supervisor_init)
          monday_1531.
Proof.
  assert (H1 : is_market_hours_now monday_1530 = true) by reflexivity.
  assert (H2 : is_market_hours monday_1531 = false) by reflexivity.
  split_and!; [exact H1|exact H2|].
  apply (proj1 (controller_stop true monday_1530 monday_1531 service_ex []
                  supervisor_init)).
  split_and!; [reflexivity|reflexivity|exact H1|exact H2].
Defined.

Lemma time_le_spec a b :
  0 <= minute a <= 59 -> 0 <= second a <= 59 -> 0 <= microsecond a <= 999999 ->
  0 <= minute b <= 59 -> 0 <= second b <= 59 -> 0 <= microsecond b <= 999999 ->
  time_le a b = true <-> microsecond_of_day a <= microsecond_of_day b.
Proof.
  intros. unfold time_le, microsecond_of_day.
  repeat case_decide; rewrite ?bool_decide_eq_true;
    (split; [try done; intros; nia|try done; intros; nia]).
Qed.

(** X21. Market hours, in microseconds of the day: for a datetime with
    fields in range, [_is_market_hours_now] holds exactly from Monday to
    Friday between 09:15:00.000000 and 15:31:00.000000, both included. *)
Theorem market_hours_bounds t :
  valid_time t ->
  is_market_hours_now t = true <->
  weekday t <= 4
  ∧ 33300000000 <= microsecond_of_day t <= 55860000000.
Proof.
  intros (Hw & Hh & Hm & Hs & Hu). unfold is_market_hours_now.
  case_decide as Hwd; [split; [done|lia]|].
  rewrite andb_true_iff.
  rewrite !time_le_spec; simpl; try lia.
  unfold microsecond_of_day. simpl. lia.
Qed.

Lemma market_hours_bounds_witness :
  valid_time monday_1530
  ∧ weekday monday_1530 <= 4
  ∧ 33300000000 <= microsecond_of_day monday_1530 <= 55860000000.
Proof.
  assert (H : valid_time monday_1530) by (unfold valid_time; simpl; lia).
  split; [exact H|].
  exact (proj1 (market_hours_bounds monday_1530 H) eq_refl).
Defined.

(** ** The instrument file *)

(** *** Dicts in insertion order *)

Lemma dict_set_elem {K V} `{EqDecision K} (k : K) (v : V) d kv :
  kv ∈ dict_set k v d -> kv = (k, v) ∨ kv ∈ d.
Proof.
  induction d as [|[k0 v0] d IH]; simpl.
  - intros ->%list_elem_of_singleton. by left.
  - case_decide.
    + intros [->|?]%elem_of_cons; [by left|].
      right. by apply list_elem_of_further.
    + intros [->|Hin]%elem_of_cons; [right; apply list_elem_of_here|].
      destruct (IH Hin) as [?|?]; [by left|].
      right. by apply list_elem_of_further.
Qed.

Lemma dict_set_keys {K V} `{EqDecision K} (k : K) (v : V) d k' :
  k' ∈ (dict_set k v d).*1 <-> k' = k ∨ k' ∈ d.*1.
Proof.
  induction d as [|[k0 v0] d IH]; simpl.
  - rewrite list_elem_of_singleton, elem_of_nil. tauto.
  - case_decide; subst; simpl; rewrite ?elem_of_cons, ?IH; tauto.
Qed.

Lemma dict_set_NoDup {K V} `{EqDecision K} (k : K) (v : V) d :
  NoDup d.*1 -> NoDup (dict_set k v d).*1.
Proof.
  induction d as [|[k0 v0] d IH]; simpl.
  - intros _. apply NoDup_singleton.
  - intros [Hk Hnd]%NoDup_cons. case_decide; subst; simpl.
    + by apply NoDup_cons.
    + apply NoDup_cons. split; [|by apply IH].
      rewrite dict_set_keys. intros [?|?]; [congruence|done].
Qed.

Lemma dict_update_snoc {K V A} `{EqDecision K} (key : A -> K)
    (value : A -> V) d l x :
  dict_update key value d (l ++ [x])
  = dict_set (key x) (value x) (dict_update key value d l).
Proof. unfold dict_update. by rewrite foldl_app. Qed.

Lemma dict_update_app {K V A} `{EqDecision K} (key : A -> K)
    (value : A -> V) d l1 l2 :
  dict_update key value d (l1 ++ l2)
  = dict_update key value (dict_update key value d l1) l2.
Proof. unfold dict_update. by rewrite foldl_app. Qed.

Lemma dict_update_elem {K V A} `{EqDecision K} (key : A -> K)
    (value : A -> V) d l kv :
  kv ∈ dict_update key value d l ->
  kv ∈ d ∨ ∃ x, x ∈ l ∧ kv = (key x, value x).
Proof.
  induction l as [|x l IH] using rev_ind; [by left|].
  rewrite dict_update_snoc. intros [->|Hin]%dict_set_elem.
  - right. exists x. split; [|done]. apply elem_of_app. right.
    apply list_elem_of_here.
  - destruct (IH Hin) as [?|(y & Hy & ->)]; [by left|].
    right. exists y. split; [|done]. apply elem_of_app. by left.
Qed.

Lemma dict_update_keys {K V A} `{EqDecision K} (key : A -> K)
    (value : A -> V) d l k :
  k ∈ (dict_update key value d l).*1 <-> k ∈ d.*1 ∨ ∃ x, x ∈ l ∧ k = key x.
Proof.
  induction l as [|x l IH] using rev_ind.
  - simpl. split; [by left|]. intros [?|(x & Hx & _)]; [done|].
    by apply elem_of_nil in Hx.
  - rewrite dict_update_snoc, dict_set_keys, IH. split.
    + intros [->|[?|(y & Hy & ->)]].
      * right. exists x. split; [|done]. apply elem_of_app. right.
        apply list_elem_of_here.
      * by left.
      * right. exists y. split; [|done]. apply elem_of_app. by left.
    + intros [?|(y & Hy & ->)]; [by right; left|].
      apply elem_of_app in Hy as [Hy|Hy%list_elem_of_singleton].
      * right. right. by exists y.
      * left. by subst.
Qed.

Lemma dict_update_NoDup {K V A} `{EqDecision K} (key : A -> K)
    (value : A -> V) d l :
  NoDup d.*1 -> NoDup (dict_update key value d l).*1.
Proof.
  intros Hnd. induction l as [|x l IH] using rev_ind; [done|].
  rewrite dict_update_snoc. by apply dict_set_NoDup.
Qed.

Lemma NoDup_fmap_eq {A B} (f : A -> B) (l : list A) x y :
  NoDup (f <$> l) -> x ∈ l -> y ∈ l -> f x = f y -> x = y.
Proof.
  induction l as [|z l IH]; simpl; [by intros _ ?%elem_of_nil|].
  intros [Hz Hnd]%NoDup_cons [->|Hx]%elem_of_cons [->|Hy]%elem_of_cons Heq;
    [done| | |by apply IH].
  - destruct Hz. rewrite Heq. apply list_elem_of_fmap. by exists y.
  - destruct Hz. rewrite <- Heq. apply list_elem_of_fmap. by exists x.
Qed.

Lemma token_of_symbol_unique mapping sym tok :
  (tok, sym) ∈ mapping ->
  (∀ tok', (tok', sym) ∈ mapping -> tok' = tok) ->
  token_of_symbol mapping sym = Some tok.
Proof.
  unfold token_of_symbol. induction mapping as [|[t s] m IH]; simpl.
  - by intros ?%elem_of_nil.
  - intros Hin Huniq. case_bool_decide as Hs; simpl in *.
    + subst s. f_equal. apply Huniq, list_elem_of_here.
    + apply IH.
      * apply elem_of_cons in Hin as [[= -> ->]|?]; [done|done].
      * intros tok' Hin'. by apply Huniq, list_elem_of_further.
Qed.

(** *** Selecting the contracts *)

Lemma select_options_valid ts df f :
  select_options ts df = Some f -> ts ∈ valid_symbols.
Proof.
  unfold select_options, valid_symbols. repeat case_decide; subst; try done.
  - intros _. apply list_elem_of_here.
  - intros _. apply list_elem_of_further, list_elem_of_here.
Qed.

Lemma select_options_unsupported ts df :
  ts ∉ valid_symbols -> select_options ts df = None.
Proof.
  intros Hts. destruct (select_options ts df) as [f|] eqn:Hf; [|done].
  by apply select_options_valid in Hf.
Qed.

Lemma select_spot_valid ts df o :
  ts ∈ valid_symbols -> is_Some (select_spot ts df o).
Proof.
  unfold valid_symbols, select_spot.
  intros [->|[->|[]%elem_of_nil]%elem_of_cons]%elem_of_cons;
    repeat case_decide; try done; eauto.
Qed.


Lemma select_spot_unsupported ts df o :
  ts ∉ valid_symbols -> select_spot ts df o = o.
Proof.
  unfold valid_symbols, select_spot. intros Hts.
  repeat case_decide; subst; try done; destruct Hts.
  - apply list_elem_of_here.
  - apply list_elem_of_further, list_elem_of_here.
Qed.

Lemma option_rows_elem ts df r e :
  (r, e) ∈ option_rows ts df ->
  r ∈ df ∧ csv_name r = ts ∧ csv_expiry r = Some e ∧ ts ∈ valid_symbols.
Proof.
  unfold option_rows, with_expiry. intros (r' & Hin & Hr)%list_elem_of_omap.
  destruct (csv_expiry r') as [e'|] eqn:He; [|done].
  injection Hr as <- <-.
  destruct (select_options ts df) as [f|] eqn:Hf;
    [|by apply elem_of_nil in Hin].
  split_and!; [| |done|by eapply select_options_valid].
  - revert Hf. unfold select_options, name_segment.
    repeat case_decide; intros [= <-]; try done;
      by apply list_elem_of_filter in Hin as [_ ?].
  - revert Hf. unfold select_options, name_segment.
    repeat case_decide; intros [= <-]; try done; subst;
      by apply list_elem_of_filter in Hin as [[? _] _].
Qed.

Lemma foldl_min_spec (l : list Z) x :
  foldl Z.min x l ∈ x :: l ∧ ∀ y, y ∈ x :: l -> foldl Z.min x l <= y.
Proof.
  revert x. induction l as [|z l IH]; intros x; simpl.
  - split; [apply list_elem_of_here|].
    intros y ->%list_elem_of_singleton. lia.
  - destruct (IH (Z.min x z)) as [Hin Hle]. split.
    + apply elem_of_cons in Hin as [Heq|Hin].
      * rewrite Heq. destruct (Z.min_spec x z) as [[_ ->]|[_ ->]].
        -- apply list_elem_of_here.
        -- apply list_elem_of_further, list_elem_of_here.
      * by do 2 apply list_elem_of_further.
    + intros y [->|[->|Hy]%elem_of_cons]%elem_of_cons.
      * specialize (Hle (Z.min x z) (list_elem_of_here _ _)). lia.
      * specialize (Hle (Z.min x z) (list_elem_of_here _ _)). lia.
      * by apply Hle, list_elem_of_further.
Qed.

Lemma series_min_spec l m :
  series_min l = Some m -> m ∈ l ∧ ∀ y, y ∈ l -> m <= y.
Proof.
  destruct l as [|x l]; simpl; [done|]. intros [= <-]. apply foldl_min_spec.
Qed.

Lemma series_min_None l : series_min l = None <-> l = [].
Proof. by destruct l. Qed.

Lemma nearest_expiry_of_spec today fd e :
  nearest_expiry_of today fd = Some e ->
  today <= e ∧ (∃ r, (r, e) ∈ fd)
  ∧ ∀ r x, (r, x) ∈ fd -> today <= x -> e <= x.
Proof.
  unfold nearest_expiry_of. intros [Hin Hle]%series_min_spec.
  apply list_elem_of_filter in Hin as [Htoday Hin].
  apply list_elem_of_fmap in Hin as ([r e'] & -> & Hin). simpl in *.
  split_and!; [done|by exists r|].
  intros r' x Hx Hxt. apply Hle, list_elem_of_filter. split; [done|].
  apply list_elem_of_fmap. by exists (r', x).
Qed.

Lemma nearest_expiry_of_None today fd :
  nearest_expiry_of today fd = None <-> ∀ r x, (r, x) ∈ fd -> x < today.
Proof.
  unfold nearest_expiry_of. rewrite series_min_None. split.
  - intros Hnil r x Hin. destruct (decide (today <= x)) as [Hle|]; [|lia].
    exfalso. eapply (filter_nil_not_elem_of _ _ x Hnil Hle).
    apply list_elem_of_fmap. by exists (r, x).
  - intros Hall.
    destruct (filter (λ e, today <= e) fd.*2) as [|x l] eqn:Hf; [done|].
    assert (Hx : x ∈ filter (λ e, today <= e) fd.*2)
      by (rewrite Hf; apply list_elem_of_here).
    apply list_elem_of_filter in Hx as [Hle Hx].
    apply list_elem_of_fmap in Hx as ([r e] & -> & Hin).
    specialize (Hall r e Hin). simpl in Hle. lia.
Qed.

Lemma nearest_contracts_elem df today ts r e :
  (r, e) ∈ nearest_contracts df today ts <->
  (r, e) ∈ option_rows ts df
  ∧ nearest_expiry_of today (option_rows ts df) = Some e.
Proof.
  unfold nearest_contracts.
  destruct (nearest_expiry_of today (option_rows ts df)) as [m|].
  - rewrite list_elem_of_filter. simpl. split.
    + by intros [-> ?].
    + by intros [? [= ->]].
  - rewrite elem_of_nil. by split; [|intros [_ ?]].
Qed.

Lemma nearest_contracts_nonempty df today ts :
  nearest_contracts df today ts ≠ []
  <-> is_Some (nearest_expiry_of today (option_rows ts df)).
Proof.
  split.
  - unfold nearest_contracts. by destruct (nearest_expiry_of _ _); eauto.
  - intros [e He] Hnil.
    destruct (nearest_expiry_of_spec _ _ _ He) as (_ & (r & Hr) & _).
    assert (Hin : (r, e) ∈ nearest_contracts df today ts)
      by by apply nearest_contracts_elem.
    rewrite Hnil in Hin. by apply elem_of_nil in Hin.
Qed.

(** *** One trade symbol, and the loop *)

Lemma add_instruments_spec ts env out l :
  foldl (add_instrument ts) (env, out) l
  = (Directory
       (dict_update (λ re, csv_instrument_token re.1)
          (λ re, csv_tradingsymbol re.1) (kite_instrument_mapping env) l)
       (dict_update (λ re, csv_tradingsymbol re.1) (details_of ts)
          (kite_instrument_details env) l)
       (spot_instrument_tokens env) (nearest_expiry_dates env),
     out ++ (instrument_of ts <$> l)).
Proof.
  revert env out. induction l as [|re l IH]; intros env out; simpl.
  - rewrite app_nil_r. by destruct env.
  - unfold add_instrument at 2. rewrite IH. simpl.
    by rewrite <- app_assoc.
Qed.

Lemma parse_symbol_spec df today ts p :
  parse_symbol df today ts p
  = match select_spot ts df (spot_df p) with
    | Some sdf => inl (parse_symbol_result df today ts sdf p)
    | None => inr (parsed p)
    end.
Proof.
  unfold parse_symbol, parse_symbol_result, nearest_contracts, option_rows.
  destruct (select_spot ts df (spot_df p)) as [sdf|]; [|done].
  destruct (select_options ts df) as [f|]; simpl.
  - destruct (with_expiry f) as [|re fd] eqn:Hfd.
    + simpl. by rewrite app_nil_r.
    + destruct (nearest_expiry_of today (re :: fd)) as [e|].
      * by rewrite add_instruments_spec.
      * simpl. by rewrite app_nil_r.
  - by rewrite app_nil_r.
Qed.

Lemma dict_update_fmap {K V A B} `{EqDecision K} (f : B -> A)
    (key : A -> K) (value : A -> V) d (l : list B) :
  dict_update key value d (f <$> l)
  = dict_update (λ x, key (f x)) (λ x, value (f x)) d l.
Proof.
  unfold dict_update. revert d. induction l as [|x l IH]; intros d; simpl;
    [done|apply IH].
Qed.

Lemma parsed_contracts_elem df today tss ts re :
  (ts, re) ∈ parsed_contracts df today tss
  <-> ts ∈ tss ∧ re ∈ nearest_contracts df today ts.
Proof.
  unfold parsed_contracts. rewrite list_elem_of_bind. split.
  - intros (ts' & Hin & Hts). apply list_elem_of_fmap in Hin as (re' & [= -> ->] & ?).
    done.
  - intros [Hts Hin]. exists ts. split; [|done].
    apply list_elem_of_fmap. by exists re.
Qed.

Lemma select_spot_bound ts df sdf : is_Some (select_spot ts df (Some sdf)).
Proof. unfold select_spot. repeat case_decide; eauto. Qed.

Lemma parse_symbols_bound df today tss p :
  is_Some (spot_df p) -> ∃ p', parse_symbols df today tss p = inl p'.
Proof.
  revert p. induction tss as [|ts tss IH]; intros p [sdf Hp]; simpl; [eauto|].
  rewrite parse_symbol_spec, Hp.
  destruct (select_spot_bound ts df sdf) as [sdf' ->]. apply IH. simpl. eauto.
Qed.

Lemma parse_symbols_head_valid df today s rest p :
  s ∈ valid_symbols -> ∃ p', parse_symbols df today (s :: rest) p = inl p'.
Proof.
  intros Hs. simpl. rewrite parse_symbol_spec.
  destruct (select_spot_valid s df (spot_df p) Hs) as [sdf ->].
  apply parse_symbols_bound. simpl. eauto.
Qed.


Lemma parse_symbols_spec df today tss p p' :
  parse_symbols df today tss p = inl p' ->
  all_instruments p'
  = all_instruments p
    ++ ((λ x, instrument_of x.1 x.2) <$> parsed_contracts df today tss)
  ∧ kite_instrument_mapping (parsed p')
    = dict_update (λ x, csv_instrument_token x.2.1)
        (λ x, csv_tradingsymbol x.2.1)
        (kite_instrument_mapping (parsed p)) (parsed_contracts df today tss)
  ∧ kite_instrument_details (parsed p')
    = dict_update (λ x, csv_tradingsymbol x.2.1) (λ x, details_of x.1 x.2)
        (kite_instrument_details (parsed p)) (parsed_contracts df today tss)
  ∧ ∀ ts, nearest_expiry_dates (parsed p') !! ts
          = match nearest_expiry_of today (option_rows ts df) with
            | Some e =>
                if decide (ts ∈ tss) then Some e
                else nearest_expiry_dates (parsed p) !! ts
            | None => nearest_expiry_dates (parsed p) !! ts
            end.
Proof.
  revert p. induction tss as [|ts tss IH]; intros p; simpl.
  - intros [= <-]. rewrite app_nil_r. split_and!; try done.
    intros ts. destruct (nearest_expiry_of _ _); [|done].
    done.
  - rewrite parse_symbol_spec.
    destruct (select_spot ts df (spot_df p)) as [sdf|]; [|done].
    intros Hrest. destruct (IH _ Hrest) as (Hout & Hmap & Hdet & Hnear).
    unfold parsed_contracts in *. simpl in *.
    rewrite Hout, Hmap, Hdet, fmap_app, !dict_update_app, <- app_assoc,
      <- list_fmap_compose, !dict_update_fmap.
    split_and!; try done.
    intros ts'. rewrite Hnear.
    destruct (nearest_expiry_of today (option_rows ts' df)) as [e'|] eqn:He'.
    + destruct (decide (ts' = ts)) as [->|Hne].
      * rewrite He', lookup_insert_eq.
        rewrite (decide_True (P := ts ∈ ts :: tss));
          [|apply list_elem_of_here].
        by case_decide.
      * assert (Hlook :
          match nearest_expiry_of today (option_rows ts df) with
          | Some e => <[ts:=e]> (nearest_expiry_dates (parsed p))
          | None => nearest_expiry_dates (parsed p)
          end !! ts' = nearest_expiry_dates (parsed p) !! ts').
        { destruct (nearest_expiry_of today (option_rows ts df)); [|done].
          by rewrite lookup_insert_ne. }
        rewrite Hlook. repeat case_decide; try done.
        -- destruct H0. by apply list_elem_of_further.
        -- apply elem_of_cons in H0 as [?|?]; done.
    + destruct (decide (ts' = ts)) as [->|Hne].
      * by rewrite He'.
      * destruct (nearest_expiry_of today (option_rows ts df)); [|done].
        by rewrite lookup_insert_ne.
Qed.

Lemma nearest_expiry_of_iff today fd e :
  nearest_expiry_of today fd = Some e
  <-> today <= e ∧ (∃ r, (r, e) ∈ fd)
      ∧ ∀ r x, (r, x) ∈ fd -> today <= x -> e <= x.
Proof.
  split; [apply nearest_expiry_of_spec|].
  intros (Hle & (r & Hr) & Hmin).
  destruct (nearest_expiry_of today fd) as [m|] eqn:Hm.
  - destruct (nearest_expiry_of_spec _ _ _ Hm) as (Hm1 & (r' & Hr') & Hm2).
    f_equal. specialize (Hm2 r e Hr Hle). specialize (Hmin r' m Hr' Hm1). lia.
  - specialize (proj1 (nearest_expiry_of_None today fd) Hm r e Hr). lia.
Qed.

Lemma parse_instruments_elem df today tss p p' i :
  parse_symbols df today tss p = inl p' ->
  i ∈ all_instruments p'
  <-> i ∈ all_instruments p
      ∨ ∃ ts re, ts ∈ tss ∧ re ∈ nearest_contracts df today ts
                 ∧ i = instrument_of ts re.
Proof.
  intros (-> & _)%parse_symbols_spec.
  rewrite elem_of_app, list_elem_of_fmap. split.
  - intros [?|([ts re] & -> & Hin)]; [by left|].
    apply parsed_contracts_elem in Hin as [? ?]. right. by exists ts, re.
  - intros [?|(ts & re & Hts & Hre & ->)]; [by left|].
    right. exists (ts, re). split; [done|]. by apply parsed_contracts_elem.
Qed.

Lemma parse_multi_inl df today tss env p' :
  parse_symbols df today tss (Parser env None []) = inl p' ->
  parse_kite_instruments_multi df today tss env
  = (all_instruments p', parsed p').
Proof. unfold parse_kite_instruments_multi. by intros ->. Qed.

Lemma parse_multi_elem df today tss env i :
  i ∈ (parse_kite_instruments_multi df today tss env).1 ->
  ∃ p' ts re,
    parse_symbols df today tss (Parser env None []) = inl p'
    ∧ ts ∈ tss ∧ re ∈ nearest_contracts df today ts ∧ i = instrument_of ts re.
Proof.
  unfold parse_kite_instruments_multi.
  destruct (parse_symbols df today tss (Parser env None [])) as [p'|env']
    eqn:Hp; simpl; [|by intros ?%elem_of_nil].
  intros Hi. apply (parse_instruments_elem _ _ _ _ _ _ Hp) in Hi
    as [Hi|(ts & re & ? & ? & ?)]; [by apply elem_of_nil in Hi|].
  by exists p', ts, re.
Qed.

(** X22. With a supported first trade symbol, the instruments that
    [parse_kite_instruments_multi] returns are exactly the option rows of the
    listed trade symbols whose expiry is the earliest one, of that trade
    symbol, that is not before today. *)
Theorem parse_returns_nearest_contracts df today s rest env i :
  s ∈ valid_symbols ->
  i ∈ (parse_kite_instruments_multi df today (s :: rest) env).1
  <-> ∃ ts r e,
        ts ∈ s :: rest ∧ (r, e) ∈ option_rows ts df ∧ today <= e
        ∧ (∀ r' x, (r', x) ∈ option_rows ts df -> today <= x -> e <= x)
        ∧ i = instrument_of ts (r, e).
Proof.
  intros Hs.
  destruct (parse_symbols_head_valid df today s rest (Parser env None []) Hs)
    as [p' Hp].
  rewrite (parse_multi_inl _ _ _ _ _ Hp). simpl.
  rewrite (parse_instruments_elem _ _ _ _ _ i Hp). simpl. split.
  - intros [Hi|(ts & [r e] & Hts & Hre & ->)]; [by apply elem_of_nil in Hi|].
    apply nearest_contracts_elem in Hre as [Hin Hnear].
    apply nearest_expiry_of_spec in Hnear as (? & _ & ?).
    by exists ts, r, e.
  - intros (ts & r & e & Hts & Hin & Hle & Hmin & ->). right.
    exists ts, (r, e). split_and!; [done| |done].
    apply nearest_contracts_elem. split; [done|].
    apply nearest_expiry_of_iff. split_and!; [done|by exists r|done].
Qed.

Lemma parse_returns_nearest_contracts_witness :
  let r := CsvRow 12 "NIFTY24DEC24000PE" "NIFTY" "NFO-OPT" (Some 20083)
             24000 "PE" in
  "NIFTY" ∈ valid_symbols
  ∧ instrument_of "NIFTY" (r, 20083)
    ∈ (parse_kite_instruments_multi csv_ex 20070 ["NIFTY"; "SENSEX"]
         env_empty).1.
Proof.
  intros r.
  assert (H : "NIFTY" ∈ valid_symbols) by apply list_elem_of_here.
  split; [exact H|].
  apply (proj2 (parse_returns_nearest_contracts csv_ex 20070 "NIFTY"
                  ["SENSEX"] env_empty _ H)).
  exists "NIFTY", r, 20083. split_and!; [apply list_elem_of_here| |lia| |done].
  - vm_compute. apply list_elem_of_further, list_elem_of_here.
  - intros r' x Hin Hx.
    let l := eval vm_compute in (option_rows "NIFTY" csv_ex) in
    change (option_rows "NIFTY" csv_ex) with l in Hin.
    repeat (apply elem_of_cons in Hin as [[= -> ->]|Hin]; [lia|]).
    by apply elem_of_nil in Hin.
Defined.

(** X23. Every instrument that [parse_kite_instruments_multi] returns has
    the expiry that the call leaves in [nearest_expiry_dates] for its trade
    symbol, and that expiry is not before today; for a trade symbol without
    an option row expiring today or later, the call leaves
    [nearest_expiry_dates] as it was: missing, or the value of an earlier
    call. *)
Theorem parse_records_nearest_expiry df today tss env :
  let res := parse_kite_instruments_multi df today tss env in
  (∀ i, i ∈ res.1 ->
     nearest_expiry_dates res.2 !! instrument_trade_symbol i
     = Some (instrument_expiry i)
     ∧ today <= instrument_expiry i)
  ∧ (∀ ts, (∀ r x, (r, x) ∈ option_rows ts df -> x < today) ->
       nearest_expiry_dates res.2 !! ts = nearest_expiry_dates env !! ts).
Proof.
  intros res. subst res. split.
  - intros i Hi. destruct (parse_multi_elem _ _ _ _ _ Hi)
      as (p' & ts & [r e] & Hp & Hts & Hre & ->).
    rewrite (parse_multi_inl _ _ _ _ _ Hp). simpl.
    destruct (parse_symbols_spec _ _ _ _ _ Hp) as (_ & _ & _ & Hnear).
    apply nearest_contracts_elem in Hre as [Hin He].
    rewrite Hnear, He, decide_True by done. split; [done|].
    by apply nearest_expiry_of_spec in He as (? & _).
  - intros ts Hnone. apply nearest_expiry_of_None in Hnone.
    unfold parse_kite_instruments_multi.
    destruct (parse_symbols df today tss (Parser env None [])) as [p'|env']
      eqn:Hp; simpl.
    + destruct (parse_symbols_spec _ _ _ _ _ Hp) as (_ & _ & _ & Hnear).
      by rewrite Hnear, Hnone.
    + destruct tss as [|ts0 tss]; [done|]. simpl in Hp.
      rewrite parse_symbol_spec in Hp. simpl in Hp.
      destruct (select_spot ts0 df None) as [sdf|]; [|by injection Hp as <-].
      destruct (parse_symbols_bound df today tss
                  (parse_symbol_result df today ts0 sdf (Parser env None []))
                  (mk_is_Some _ _ eq_refl)) as [p' Hp'].
      congruence.
Qed.

Lemma parse_records_nearest_expiry_witness :
  let res :=
    parse_kite_instruments_multi csv_ex 20070 ["NIFTY"; "SENSEX"] env_empty in
  let i := Instrument 12 "NIFTY24DEC24000PE" 24000 "PE" 20083 "NIFTY" in
  i ∈ res.1
  ∧ (nearest_expiry_dates res.2 !! "NIFTY" = Some 20083 ∧ 20070 <= 20083)
  ∧ (∀ r x, (r, x) ∈ option_rows "SENSEX" csv_ex -> x < 20070)
  ∧ nearest_expiry_dates res.2 !! "SENSEX"
    = nearest_expiry_dates env_empty !! "SENSEX".
Proof.
  intros res i.
  assert (Hi : i ∈ res.1)
    by (vm_compute; apply list_elem_of_further, list_elem_of_here).
  assert (Hold : ∀ r x, (r, x) ∈ option_rows "SENSEX" csv_ex -> x < 20070).
  { intros r x Hin.
    let l := eval vm_compute in (option_rows "SENSEX" csv_ex) in
    change (option_rows "SENSEX" csv_ex) with l in Hin.
    apply list_elem_of_singleton in Hin as [= -> ->]. lia. }
  destruct (parse_records_nearest_expiry csv_ex 20070 ["NIFTY"; "SENSEX"]
              env_empty) as [H1 H2].
  split; [exact Hi|]. split; [exact (H1 i Hi)|].
  split; [exact Hold|exact (H2 "SENSEX" Hold)].
Defined.

(** X24. An unsupported trade symbol at the head of the list makes
    [parse_kite_instruments_multi] return no instrument at all, also for the
    supported symbols after it, and leaves the globals as they were. *)
Theorem parse_unsupported_first df today ts rest env :
  ts ∉ valid_symbols ->
  parse_kite_instruments_multi df today (ts :: rest) env = ([], env).
Proof.
  intros Hts. unfold parse_kite_instruments_multi. simpl.
  rewrite parse_symbol_spec. simpl.
  by rewrite select_spot_unsupported.
Qed.

Lemma parse_unsupported_first_witness :
  ("BANKNIFTY" ∉ valid_symbols)
  ∧ parse_kite_instruments_multi csv_ex 20070 ["BANKNIFTY"; "NIFTY"] env_empty
    = ([], env_empty).
Proof.
  assert (H : "BANKNIFTY" ∉ valid_symbols).
  { unfold valid_symbols. intros Hin.
    repeat (apply elem_of_cons in Hin as [Hin|Hin]; [discriminate|]).
    by apply elem_of_nil in Hin. }
  split; [exact H|].
  exact (parse_unsupported_first csv_ex 20070 "BANKNIFTY" ["NIFTY"] env_empty
           H).
Defined.






(** *** The directory that the parse leaves *)

Lemma dict_get_elem_NoDup {K V} `{EqDecision K} (d : list (K * V)) k v :
  NoDup d.*1 -> (k, v) ∈ d -> dict_get k d = Some v.
Proof.
  induction d as [|[k0 v0] d IH]; simpl; intros Hnd Hin.
  - by apply elem_of_nil in Hin.
  - apply NoDup_cons in Hnd as [Hk Hnd].
    apply elem_of_cons in Hin as [[= <- <-]|Hin].
    + by rewrite decide_True.
    + rewrite decide_False; [by apply IH|].
      intros ->. apply Hk, list_elem_of_fmap. by exists (k, v).
Qed.

Lemma parse_directory df today tss env p' ts r e :
  NoDup (csv_instrument_token <$> df) ->
  NoDup (csv_tradingsymbol <$> df) ->
  kite_instrument_mapping env = [] ->
  kite_instrument_details env = [] ->
  parse_symbols df today tss (Parser env None []) = inl p' ->
  ts ∈ tss -> (r, e) ∈ nearest_contracts df today ts ->
  dict_get (csv_instrument_token r) (kite_instrument_mapping (parsed p'))
  = Some (csv_tradingsymbol r)
  ∧ token_of_symbol (kite_instrument_mapping (parsed p')) (csv_tradingsymbol r)
    = Some (csv_instrument_token r)
  ∧ (csv_tradingsymbol r, details_of ts (r, e))
    ∈ kite_instrument_details (parsed p')
  ∧ NoDup (kite_instrument_details (parsed p')).*1.
Proof.
  intros Htoks Hsyms Hm0 Hd0 Hp Hts Hre.
  destruct (parse_symbols_spec _ _ _ _ _ Hp) as (_ & Hmap & Hdet & _).
  simpl in Hmap, Hdet. rewrite Hm0 in Hmap. rewrite Hd0 in Hdet.
  assert (Hc : (ts, (r, e)) ∈ parsed_contracts df today tss)
    by by apply parsed_contracts_elem.
  assert (Hrow : ∀ ts' r' e', (ts', (r', e')) ∈ parsed_contracts df today tss ->
            r' ∈ df ∧ csv_name r' = ts' ∧ csv_expiry r' = Some e').
  { intros ts' r' e' [_ Hin]%parsed_contracts_elem.
    apply nearest_contracts_elem in Hin as [Hin _].
    by apply option_rows_elem in Hin as (? & ? & ? & _). }
  destruct (Hrow _ _ _ Hc) as (Hr & Hname & Hexp).
  assert (Hentry : (csv_instrument_token r, csv_tradingsymbol r)
                   ∈ kite_instrument_mapping (parsed p')).
  { assert (Hkey : csv_instrument_token r
                   ∈ (kite_instrument_mapping (parsed p')).*1).
    { rewrite Hmap. apply dict_update_keys. right. by exists (ts, (r, e)). }
    apply list_elem_of_fmap in Hkey as ([k v] & Hk & Hkv). simpl in Hk.
    subst k. rewrite Hmap in Hkv.
    destruct (dict_update_elem _ _ _ _ _ Hkv)
      as [Hnil|([ts' [r' e']] & Hin' & [= Htok ->])];
      [by apply elem_of_nil in Hnil|].
    simpl in *. destruct (Hrow _ _ _ Hin') as (Hr' & _).
    rewrite <- (NoDup_fmap_eq csv_instrument_token df r r' Htoks Hr Hr' Htok)
      in Hkv.
    by rewrite Hmap. }
  assert (Hndm : NoDup (kite_instrument_mapping (parsed p')).*1).
  { rewrite Hmap. apply dict_update_NoDup. simpl. apply NoDup_nil_2. }
  assert (Hndd : NoDup (kite_instrument_details (parsed p')).*1).
  { rewrite Hdet. apply dict_update_NoDup. simpl. apply NoDup_nil_2. }
  split_and!; [by apply dict_get_elem_NoDup| | |done].
  - apply token_of_symbol_unique; [done|].
    intros tok' Hin'. rewrite Hmap in Hin'.
    destruct (dict_update_elem _ _ _ _ _ Hin')
      as [Hnil|([ts' [r' e']] & Hc' & [= -> Hsym])];
      [by apply elem_of_nil in Hnil|].
    simpl in *. destruct (Hrow _ _ _ Hc') as (Hr' & _).
    by rewrite (NoDup_fmap_eq csv_tradingsymbol df r r' Hsyms Hr Hr' Hsym).
  - assert (Hkey : csv_tradingsymbol r
                   ∈ (kite_instrument_details (parsed p')).*1).
    { rewrite Hdet. apply dict_update_keys. right. by exists (ts, (r, e)). }
    apply list_elem_of_fmap in Hkey as ([k v] & Hk & Hkv). simpl in Hk.
    subst k. assert (Hkv' := Hkv). rewrite Hdet in Hkv'.
    destruct (dict_update_elem _ _ _ _ _ Hkv')
      as [Hnil|([ts' [r' e']] & Hc' & [= Hsym ->])];
      [by apply elem_of_nil in Hnil|].
    simpl in *. destruct (Hrow _ _ _ Hc') as (Hr' & Hname' & Hexp').
    pose proof (NoDup_fmap_eq csv_tradingsymbol df r r' Hsyms Hr Hr' Hsym)
      as <-.
    assert (ts' = ts) as -> by congruence.
    assert (e' = e) as -> by congruence.
    done.
Qed.

(** X26. For a file whose instrument tokens and trading symbols are
    pairwise different, and with the mapping and the details empty before,
    the globals that [parse_kite_instruments_multi] leaves agree with the
    instruments it returns: the mapping takes the token of each to its
    trading symbol, the search of [populate_initial_instruments] for the
    token of that symbol finds it, and the details of the symbol hold the
    strike, type, expiry and trade symbol of the instrument. *)
Theorem parse_directory_consistent df today tss env i :
  NoDup (csv_instrument_token <$> df) ->
  NoDup (csv_tradingsymbol <$> df) ->
  kite_instrument_mapping env = [] ->
  kite_instrument_details env = [] ->
  let res := parse_kite_instruments_multi df today tss env in
  i ∈ res.1 ->
  dict_get (instrument_token_of i) (kite_instrument_mapping res.2)
  = Some (tradingsymbol i)
  ∧ token_of_symbol (kite_instrument_mapping res.2) (tradingsymbol i)
    = Some (instrument_token_of i)
  ∧ dict_get (tradingsymbol i) (kite_instrument_details res.2)
    = Some (Details (instrument_strike i) (instrument_type i)
              (instrument_expiry i) (instrument_trade_symbol i)).
Proof.
  intros Htoks Hsyms Hm0 Hd0 res Hi. subst res.
  destruct (parse_multi_elem _ _ _ _ _ Hi)
    as (p' & ts & [r e] & Hp & Hts & Hre & ->).
  rewrite (parse_multi_inl _ _ _ _ _ Hp). simpl.
  destruct (parse_directory _ _ _ _ _ _ _ _ Htoks Hsyms Hm0 Hd0 Hp Hts Hre)
    as (Hget & Htok & Hdet & Hnd).
  split_and!; [done|done|].
  by apply dict_get_elem_NoDup.
Qed.

Lemma csv_ex_tokens : NoDup (csv_instrument_token <$> csv_ex).
Proof. apply (bool_decide_unpack _). vm_compute. exact I. Qed.

Lemma csv_ex_symbols : NoDup (csv_tradingsymbol <$> csv_ex).
Proof. apply (bool_decide_unpack _). vm_compute. exact I. Qed.

Lemma parse_directory_consistent_witness :
  let res :=
    parse_kite_instruments_multi csv_ex 20070 ["NIFTY"; "SENSEX"] env_empty in
  let i := Instrument 12 "NIFTY24DEC24000PE" 24000 "PE" 20083 "NIFTY" in
  i ∈ res.1
  ∧ dict_get 12 (kite_instrument_mapping res.2) = Some "NIFTY24DEC24000PE"
  ∧ token_of_symbol (kite_instrument_mapping res.2) "NIFTY24DEC24000PE"
    = Some 12
  ∧ dict_get "NIFTY24DEC24000PE" (kite_instrument_details res.2)
    = Some (Details 24000 "PE" 20083 "NIFTY").
Proof.
  intros res i.
  assert (Hi : i ∈ res.1)
    by (vm_compute; apply list_elem_of_further, list_elem_of_here).
  split; [exact Hi|].
  exact (parse_directory_consistent csv_ex 20070 ["NIFTY"; "SENSEX"] env_empty
           i csv_ex_tokens csv_ex_symbols eq_refl eq_refl Hi).
Defined.

(** *** From the file to the table *)

Lemma populate_all_raises env tss st :
  (∃ st', populate_all env tss st = Raised st')
  <-> ∃ ts, ts ∈ tss ∧ nearest_expiry_dates env !! ts = None.
Proof.
  revert st. induction tss as [|ts tss IH]; intros st; simpl.
  - split; [by intros (? & ?)|]. by intros (? & ?%elem_of_nil & _).
  - unfold populate_initial_instruments.
    destruct (nearest_expiry_dates env !! ts) as [e|] eqn:He.
    + rewrite IH. split.
      * intros (ts' & ? & ?). exists ts'. split; [|done].
        by apply list_elem_of_further.
      * intros (ts' & [->|?]%elem_of_cons & ?); [congruence|].
        by exists ts'.
    + split; [|eauto]. intros _. exists ts. split; [|done].
      apply list_elem_of_here.
Qed.

(** X27. The start of [main] and [run_websocket_main], from the file to the
    table: for a file whose tokens and trading symbols are pairwise
    different, and with the mapping and the details empty before, when the
    bootstrap returns, every instrument that the parse returned with a
    non-zero token has its row, with the trade symbol, strike, type, token
    and expiry of the instrument, source "Initial" and no price. *)
Theorem startup_rows df today tss env st env' st' i :
  NoDup (csv_instrument_token <$> df) ->
  NoDup (csv_tradingsymbol <$> df) ->
  kite_instrument_mapping env = [] ->
  kite_instrument_details env = [] ->
  startup df today tss env st = Bootstrapped env' (Returned st') ->
  i ∈ (parse_kite_instruments_multi df today tss env).1 ->
  instrument_token_of i ≠ 0 ->
  rows st' !! tradingsymbol i
  = Some (Row None None (Some (instrument_trade_symbol i))
            (Some (instrument_strike i)) (Some (instrument_type i))
            (Some "Initial") None None (Some (instrument_token_of i))
            (Some (instrument_expiry i))).
Proof.
  intros Htoks Hsyms Hm0 Hd0 Hstart Hi Hnz.
  destruct (parse_multi_elem _ _ _ _ _ Hi)
    as (p' & ts & [r e] & Hp & Hts & Hre & ->).
  unfold startup in Hstart.
  rewrite (parse_multi_inl _ _ _ _ _ Hp) in Hstart. simpl in Hstart, Hnz |- *.
  destruct (all_instruments p'); [done|]. injection Hstart as <- Hboot.
  destruct (parse_directory _ _ _ _ _ _ _ _ Htoks Hsyms Hm0 Hd0 Hp Hts Hre)
    as (_ & Htok & Hdet & Hnd).
  destruct (populate_all_row (parsed p') tss (create_price_table st) st'
              (csv_tradingsymbol r) (details_of ts (r, e))
              (csv_instrument_token r) Hnd Hdet Htok Hnz Hboot)
    as (e0 & He0 & Hrow).
  - intros e1 _. left. apply lookup_empty.
  - by left.
  - destruct (parse_symbols_spec _ _ _ _ _ Hp) as (_ & _ & _ & Hnear).
    apply nearest_contracts_elem in Hre as [_ He].
    simpl in He0. rewrite Hnear, He, decide_True in He0 by done.
    injection He0 as <-. exact Hrow.
Qed.

Lemma startup_rows_witness :
  let st' := store_of (bootstrap
               (parse_kite_instruments_multi csv_ex 20070 ["NIFTY"]
                  env_empty).2 ["NIFTY"] store_empty) in
  let i := Instrument 12 "NIFTY24DEC24000PE" 24000 "PE" 20083 "NIFTY" in
  i ∈ (parse_kite_instruments_multi csv_ex 20070 ["NIFTY"] env_empty).1
  ∧ rows st' !! "NIFTY24DEC24000PE"
    = Some (Row None None (Some "NIFTY") (Some 24000%Q) (Some "PE")
              (Some "Initial") None None (Some 12) (Some 20083)).
Proof.
  intros st' i.
  assert (Hi : i ∈ (parse_kite_instruments_multi csv_ex 20070 ["NIFTY"]
                      env_empty).1)
    by (vm_compute; apply list_elem_of_further, list_elem_of_here).
  split; [exact Hi|].
  apply (startup_rows csv_ex 20070 ["NIFTY"] env_empty store_empty
           (parse_kite_instruments_multi csv_ex 20070 ["NIFTY"] env_empty).2
           st' i csv_ex_tokens csv_ex_symbols eq_refl eq_refl);
    [vm_compute; reflexivity|exact Hi|simpl; lia].
Defined.

(** X28. The start fails with the KeyError of
    [populate_initial_instruments] exactly when, [nearest_expiry_dates] being
    empty before and the first trade symbol supported, one listed trade
    symbol has no option row expiring today or later while another has
    one. *)
Theorem startup_key_error df today s rest env st :
  s ∈ valid_symbols ->
  nearest_expiry_dates env = ∅ ->
  (∃ env' st',
     startup df today (s :: rest) env st = Bootstrapped env' (Raised st'))
  <-> (∃ ts, ts ∈ s :: rest
             ∧ ∀ r x, (r, x) ∈ option_rows ts df -> x < today)
      ∧ (∃ ts r x, ts ∈ s :: rest ∧ (r, x) ∈ option_rows ts df ∧ today <= x).
Proof.
  intros Hs Hn0.
  destruct (parse_symbols_head_valid df today s rest (Parser env None []) Hs)
    as [p' Hp].
  unfold startup. rewrite (parse_multi_inl _ _ _ _ _ Hp). simpl fst.
  simpl snd.
  destruct (parse_symbols_spec _ _ _ _ _ Hp) as (_ & _ & _ & Hnear).
  simpl in Hnear. rewrite Hn0 in Hnear.
  assert (Hraise : (∃ st', bootstrap (parsed p') (s :: rest) st = Raised st')
            <-> ∃ ts, ts ∈ s :: rest
                      ∧ ∀ r x, (r, x) ∈ option_rows ts df -> x < today).
  { unfold bootstrap. rewrite populate_all_raises. split.
    - intros (ts & Hts & Hnone). exists ts. split; [done|].
      apply nearest_expiry_of_None. rewrite Hnear in Hnone.
      destruct (nearest_expiry_of today (option_rows ts df)); [|done].
      by rewrite decide_True in Hnone.
    - intros (ts & Hts & Hold). exists ts. split; [done|].
      apply nearest_expiry_of_None in Hold. by rewrite Hnear, Hold. }
  assert (Hsome : all_instruments p' ≠ []
            <-> ∃ ts r x, ts ∈ s :: rest ∧ (r, x) ∈ option_rows ts df
                          ∧ today <= x).
  { split.
    - intros Hne. destruct (all_instruments p') as [|i l] eqn:Hl; [done|].
      assert (Hi : i ∈ all_instruments p')
        by (rewrite Hl; apply list_elem_of_here).
      apply (parse_instruments_elem _ _ _ _ _ _ Hp) in Hi
        as [Hi|(ts & [r e] & Hts & Hre & _)]; [by apply elem_of_nil in Hi|].
      apply nearest_contracts_elem in Hre as [Hin He].
      apply nearest_expiry_of_spec in He as (? & _). by exists ts, r, e.
    - intros (ts & r & x & Hts & Hin & Hle) Hnil.
      destruct (nearest_expiry_of today (option_rows ts df)) as [e|] eqn:He.
      + destruct (nearest_expiry_of_spec _ _ _ He) as (_ & (r' & Hr') & _).
        assert (Hi : instrument_of ts (r', e) ∈ all_instruments p').
        { apply (parse_instruments_elem _ _ _ _ _ _ Hp). right.
          exists ts, (r', e). split_and!; [done| |done].
          by apply nearest_contracts_elem. }
        rewrite Hnil in Hi. by apply elem_of_nil in Hi.
      + specialize (proj1 (nearest_expiry_of_None _ _) He r x Hin). lia. }
  rewrite <- Hraise, <- Hsome. split.
  - intros (env' & st' & Hstart).
    destruct (all_instruments p'); [done|]. injection Hstart as _ Hboot.
    split; [by exists st'|done].
  - intros [(st' & Hboot) Hne].
    destruct (all_instruments p'); [done|]. exists (parsed p'), st'.
    by rewrite Hboot.
Qed.

Lemma startup_key_error_witness :
  "NIFTY" ∈ valid_symbols
  ∧ nearest_expiry_dates env_empty = ∅
  ∧ ∃ env' st',
      startup csv_ex 20070 ["NIFTY"; "SENSEX"] env_empty store_empty
      = Bootstrapped env' (Raised st').
Proof.
  assert (H : "NIFTY" ∈ valid_symbols) by apply list_elem_of_here.
  split; [exact H|]. split; [reflexivity|].
  apply (proj2 (startup_key_error csv_ex 20070 "NIFTY" ["SENSEX"] env_empty
                  store_empty H eq_refl)).
  split.
  - exists "SENSEX". split; [apply list_elem_of_further, list_elem_of_here|].
    intros r x Hin.
    let l := eval vm_compute in (option_rows "SENSEX" csv_ex) in
    change (option_rows "SENSEX" csv_ex) with l in Hin.
    apply list_elem_of_singleton in Hin as [= -> ->]. lia.
  - exists "NIFTY",
      (CsvRow 11 "NIFTY24DEC24000CE" "NIFTY" "NFO-OPT" (Some 20083) 24000 "CE"),
      20083.
    split_and!; [apply list_elem_of_here| |lia].
    vm_compute. apply list_elem_of_here.
Defined.
